(** * VoxelEngine: the player controller and the heightmap raycaster

    A shallow embedding of [main.py].  Python floats are modelled by the
    real numbers of the Standard Library ([math.sin], [math.cos],
    [math.pow] and [np.linalg.norm] become [sin], [cos], [Rpower] and
    [sqrt]); rounding, infinities and NaN are outside that model.  The
    one place where rounding decides a property, the damping of the
    velocity, is modelled a second time on binary64 numbers.  Python
    and numba integers (pixel rows, grid indices, millisecond clocks, the
    draw distance) are modelled by [Z].  A [ZeroDivisionError] is an
    explicit outcome of the functions that can raise it. *)

From Stdlib Require Import Reals Lra Lia ZArith List Bool FinFun Permutation.
From Stdlib Require Import SpecFloat.
Import ListNotations.

Open Scope R_scope.

(** ** Numeric helpers *)

(** Python's [int(x)] on a float: truncation toward zero. *)
Definition int (x : R) : Z :=
  if Rle_dec 0 x then Zfloor x else Zceil x.

(** A pair of floats, as the two-element numpy arrays [pos] and [vel]. *)
Definition Vec2 : Type := (R * R)%type.

(** [np.linalg.norm] of a two-element array. *)
Definition norm (a : Vec2) : R := sqrt (fst a * fst a + snd a * snd a).

(** ** Configuration constants *)

Definition DRAW_DISTANCE : Z := 5000.
Definition BREATH_AMPLITUDE : R := 2.
Definition BREATH_FREQUENCY : R := 0.002.
Definition ACCELERATION : R := 2.
Definition DAMPING : R := 0.8.
Definition PITCH_ACCEL : R := 0.5.
Definition PITCH_DAMPING : R := 0.9.
Definition PITCH_MIN : R := -1000.
Definition PITCH_MAX : R := 1000.
Definition WORLD_SCALE : R := 1.
Definition WORLD_SCALE_MIN : R := 1.
Definition WORLD_SCALE_MAX : R := 5.
Definition WORLD_SCALE_STEP : R := 0.1.

(** ** Terrain grids

    [base_height_map] and [base_color_map] are loaded from two image
    files that are not part of the source tree; they are parameters of
    the development.  An image has at least one pixel in each direction,
    so a shape is a [positive].  Only channel 0 of the height map is ever
    read. *)

Definition Color : Type := (Z * Z * Z)%type.

Record HeightMap : Type := {
  hm_shape0 : positive;
  hm_shape1 : positive;
  hm_at : Z -> Z -> Z          (* base_height_map[x, y][0] *)
}.

Record ColorMap : Type := {
  cm_shape0 : positive;
  cm_shape1 : positive;
  cm_at : Z -> Z -> Color      (* base_color_map[x, y] *)
}.

(** ** Player state: the dictionary built by [create_player] *)

Record Player : Type := {
  pos : Vec2;
  height : R;
  vel : Vec2;
  v_vel : R;
  pitch : R;
  pitch_vel : R;
  flying : bool;
  last_space_press : Z;
  space_pressed_prev : bool;
  angle : R;
  angle_vel : R;
  is_on_ground : bool;
  velocity_y : R;
  gravity : R;
  jump_force : R
}.

(** Assignments [player['k'] = v], one setter per key that is written. *)

Definition set_pos (p : Player) (v : Vec2) : Player :=
  {| pos := v; height := height p; vel := vel p; v_vel := v_vel p;
     pitch := pitch p; pitch_vel := pitch_vel p; flying := flying p;
     last_space_press := last_space_press p;
     space_pressed_prev := space_pressed_prev p; angle := angle p;
     angle_vel := angle_vel p; is_on_ground := is_on_ground p;
     velocity_y := velocity_y p; gravity := gravity p;
     jump_force := jump_force p |}.

Definition set_height (p : Player) (v : R) : Player :=
  {| pos := pos p; height := v; vel := vel p; v_vel := v_vel p;
     pitch := pitch p; pitch_vel := pitch_vel p; flying := flying p;
     last_space_press := last_space_press p;
     space_pressed_prev := space_pressed_prev p; angle := angle p;
     angle_vel := angle_vel p; is_on_ground := is_on_ground p;
     velocity_y := velocity_y p; gravity := gravity p;
     jump_force := jump_force p |}.

Definition set_vel (p : Player) (v : Vec2) : Player :=
  {| pos := pos p; height := height p; vel := v; v_vel := v_vel p;
     pitch := pitch p; pitch_vel := pitch_vel p; flying := flying p;
     last_space_press := last_space_press p;
     space_pressed_prev := space_pressed_prev p; angle := angle p;
     angle_vel := angle_vel p; is_on_ground := is_on_ground p;
     velocity_y := velocity_y p; gravity := gravity p;
     jump_force := jump_force p |}.

Definition set_v_vel (p : Player) (v : R) : Player :=
  {| pos := pos p; height := height p; vel := vel p; v_vel := v;
     pitch := pitch p; pitch_vel := pitch_vel p; flying := flying p;
     last_space_press := last_space_press p;
     space_pressed_prev := space_pressed_prev p; angle := angle p;
     angle_vel := angle_vel p; is_on_ground := is_on_ground p;
     velocity_y := velocity_y p; gravity := gravity p;
     jump_force := jump_force p |}.

Definition set_pitch (p : Player) (v : R) : Player :=
  {| pos := pos p; height := height p; vel := vel p; v_vel := v_vel p;
     pitch := v; pitch_vel := pitch_vel p; flying := flying p;
     last_space_press := last_space_press p;
     space_pressed_prev := space_pressed_prev p; angle := angle p;
     angle_vel := angle_vel p; is_on_ground := is_on_ground p;
     velocity_y := velocity_y p; gravity := gravity p;
     jump_force := jump_force p |}.

Definition set_pitch_vel (p : Player) (v : R) : Player :=
  {| pos := pos p; height := height p; vel := vel p; v_vel := v_vel p;
     pitch := pitch p; pitch_vel := v; flying := flying p;
     last_space_press := last_space_press p;
     space_pressed_prev := space_pressed_prev p; angle := angle p;
     angle_vel := angle_vel p; is_on_ground := is_on_ground p;
     velocity_y := velocity_y p; gravity := gravity p;
     jump_force := jump_force p |}.

Definition set_flying (p : Player) (v : bool) : Player :=
  {| pos := pos p; height := height p; vel := vel p; v_vel := v_vel p;
     pitch := pitch p; pitch_vel := pitch_vel p; flying := v;
     last_space_press := last_space_press p;
     space_pressed_prev := space_pressed_prev p; angle := angle p;
     angle_vel := angle_vel p; is_on_ground := is_on_ground p;
     velocity_y := velocity_y p; gravity := gravity p;
     jump_force := jump_force p |}.

Definition set_last_space_press (p : Player) (v : Z) : Player :=
  {| pos := pos p; height := height p; vel := vel p; v_vel := v_vel p;
     pitch := pitch p; pitch_vel := pitch_vel p; flying := flying p;
     last_space_press := v;
     space_pressed_prev := space_pressed_prev p; angle := angle p;
     angle_vel := angle_vel p; is_on_ground := is_on_ground p;
     velocity_y := velocity_y p; gravity := gravity p;
     jump_force := jump_force p |}.

Definition set_space_pressed_prev (p : Player) (v : bool) : Player :=
  {| pos := pos p; height := height p; vel := vel p; v_vel := v_vel p;
     pitch := pitch p; pitch_vel := pitch_vel p; flying := flying p;
     last_space_press := last_space_press p;
     space_pressed_prev := v; angle := angle p;
     angle_vel := angle_vel p; is_on_ground := is_on_ground p;
     velocity_y := velocity_y p; gravity := gravity p;
     jump_force := jump_force p |}.

Definition set_angle (p : Player) (v : R) : Player :=
  {| pos := pos p; height := height p; vel := vel p; v_vel := v_vel p;
     pitch := pitch p; pitch_vel := pitch_vel p; flying := flying p;
     last_space_press := last_space_press p;
     space_pressed_prev := space_pressed_prev p; angle := v;
     angle_vel := angle_vel p; is_on_ground := is_on_ground p;
     velocity_y := velocity_y p; gravity := gravity p;
     jump_force := jump_force p |}.

Definition set_is_on_ground (p : Player) (v : bool) : Player :=
  {| pos := pos p; height := height p; vel := vel p; v_vel := v_vel p;
     pitch := pitch p; pitch_vel := pitch_vel p; flying := flying p;
     last_space_press := last_space_press p;
     space_pressed_prev := space_pressed_prev p; angle := angle p;
     angle_vel := angle_vel p; is_on_ground := v;
     velocity_y := velocity_y p; gravity := gravity p;
     jump_force := jump_force p |}.

Definition set_velocity_y (p : Player) (v : R) : Player :=
  {| pos := pos p; height := height p; vel := vel p; v_vel := v_vel p;
     pitch := pitch p; pitch_vel := pitch_vel p; flying := flying p;
     last_space_press := last_space_press p;
     space_pressed_prev := space_pressed_prev p; angle := angle p;
     angle_vel := angle_vel p; is_on_ground := is_on_ground p;
     velocity_y := v; gravity := gravity p;
     jump_force := jump_force p |}.

(** ** Polled input

    [pg.key.get_pressed()], [pg.mouse.get_pressed()] and
    [pg.time.get_ticks()] are read from the environment at each call;
    the keys the program looks at are the fields of [Keys], and [Polled]
    is what one call of [update_player] reads. *)

Record Keys : Type := {
  K_w : bool; K_s : bool; K_a : bool; K_d : bool;
  K_SPACE : bool; K_LSHIFT : bool; K_RSHIFT : bool;
  K_UP : bool; K_DOWN : bool;
  K_PAGEUP : bool; K_PAGEDOWN : bool;
  K_EQUALS : bool; K_KP_PLUS : bool; K_MINUS : bool; K_KP_MINUS : bool
}.


Record Polled : Type := {
  keys : Keys;                 (* pg.key.get_pressed() *)
  mouse_button0 : bool;        (* pg.mouse.get_pressed()[0] *)
  current_time : Z             (* pg.time.get_ticks(), milliseconds *)
}.

(** ** The program, over its module-level globals *)

Section Engine.

(** The source sets [INFINITE_MAP = False]; the flag selects between the
    wrapping and the bounded map at every sampling site, and the
    development covers both settings. *)
Variable INFINITE_MAP : bool.
Variable base_height_map : HeightMap.
Variable base_color_map : ColorMap.

(** *** Collision sampling *)

Definition optimized_collision_check (pos : Vec2) (height_map : HeightMap) : Z :=
  if INFINITE_MAP then
    let x := (int (fst pos) mod Z.pos (hm_shape0 height_map))%Z in
    let y := (int (snd pos) mod Z.pos (hm_shape1 height_map))%Z in
    hm_at height_map x y
  else
    let x := int (fst pos) in
    let y := int (snd pos) in
    let x := if (x <? 0)%Z then 0%Z
             else if (x >=? Z.pos (hm_shape0 height_map))%Z
                  then (Z.pos (hm_shape0 height_map) - 1)%Z else x in
    let y := if (y <? 0)%Z then 0%Z
             else if (y >=? Z.pos (hm_shape1 height_map))%Z
                  then (Z.pos (hm_shape1 height_map) - 1)%Z else y in
    hm_at height_map x y.

(** *** create_player *)

Definition create_player : Player :=
  let initial_pos : Vec2 :=
    (IZR (Z.pos (hm_shape0 base_height_map) / 2),
     IZR (Z.pos (hm_shape1 base_height_map) / 2)) in
  let terrain_height := optimized_collision_check initial_pos base_height_map in
  {| pos := initial_pos;
     height := IZR terrain_height + 40;
     vel := (0, 0);
     v_vel := 0;
     pitch := 0;
     pitch_vel := 0;
     flying := false;
     last_space_press := 0%Z;
     space_pressed_prev := false;
     angle := PI / 4;
     angle_vel := 0.006;
     is_on_ground := true;
     velocity_y := 0;
     gravity := 0.9;
     jump_force := 12 |}.

(** *** update_player, one definition per commented block of the source *)

Definition clamp_pitch (x : R) : R := Rmax (Rmin x PITCH_MAX) PITCH_MIN.

(* --- Mouse Look --- *)
Definition mouse_look (p : Player) (mouse_rel : Z * Z) (dt : R) : Player :=
  let p := set_angle p (angle p + IZR (fst mouse_rel) * angle_vel p * dt * 60) in
  let p := set_pitch p (pitch p - IZR (snd mouse_rel) * 0.7 * dt * 60) in
  set_pitch p (clamp_pitch (pitch p)).

(* The normalised [input_vec] built from W/S/A/D and the left mouse button. *)
Definition input_vector (k : Keys) (mb0 : bool) : Vec2 :=
  let i1 := 0 in
  let i0 := 0 in
  let i1 := if K_w k || mb0 then i1 + 1 else i1 in
  let i1 := if K_s k then i1 - 1 else i1 in
  let i0 := if K_a k then i0 - 1 else i0 in
  let i0 := if K_d k then i0 + 1 else i0 in
  let input_vec : Vec2 := (i0, i1) in
  if Req_dec_T (norm input_vec) 0 then input_vec
  else (fst input_vec / norm input_vec, snd input_vec / norm input_vec).

(* --- Horizontal Movement --- *)
Definition horizontal_move (p : Player) (k : Keys) (mb0 : bool)
    (dt scale_factor : R) : Player :=
  let input_vec := input_vector k mb0 in
  let p := set_vel p
    (fst (vel p) + fst input_vec * ACCELERATION * dt * 60 * scale_factor,
     snd (vel p) + snd input_vec * ACCELERATION * dt * 60 * scale_factor) in
  let p := set_vel p
    (fst (vel p) * Rpower DAMPING (dt * 60),
     snd (vel p) * Rpower DAMPING (dt * 60)) in
  let move_dir : Vec2 :=
    (cos (angle p) * snd (vel p) - sin (angle p) * fst (vel p),
     sin (angle p) * snd (vel p) + cos (angle p) * fst (vel p)) in
  set_pos p
    (fst (pos p) + fst move_dir * dt * 60 * scale_factor,
     snd (pos p) + snd move_dir * dt * 60 * scale_factor).

(* --- Clamp Position --- *)
Definition clamp_position (p : Player) : Player :=
  if negb INFINITE_MAP then
    let map_width := IZR (Z.pos (hm_shape0 base_height_map)) in
    let map_height := IZR (Z.pos (hm_shape1 base_height_map)) in
    let p :=
      if Rlt_dec (fst (pos p)) 0 then
        let p := set_pos p (0, snd (pos p)) in
        set_vel p (Rmax 0 (fst (vel p)), snd (vel p))
      else if Rge_dec (fst (pos p)) map_width then
        let p := set_pos p (map_width - 1, snd (pos p)) in
        set_vel p (Rmin 0 (fst (vel p)), snd (vel p))
      else p in
    if Rlt_dec (snd (pos p)) 0 then
      let p := set_pos p (fst (pos p), 0) in
      set_vel p (fst (vel p), Rmax 0 (snd (vel p)))
    else if Rge_dec (snd (pos p)) map_height then
      let p := set_pos p (fst (pos p), map_height - 1) in
      set_vel p (fst (vel p), Rmin 0 (snd (vel p)))
    else p
  else p.

(* --- Vertical Movement --- *)
Definition vertical_move (p : Player) (k : Keys) (dt scale_factor : R) : Player :=
  let vertical_input := 0 in
  let vertical_input := if K_SPACE k then vertical_input + 1 else vertical_input in
  let vertical_input :=
    if K_LSHIFT k || K_RSHIFT k then vertical_input - 1 else vertical_input in
  let p := set_v_vel p
    (v_vel p + vertical_input * ACCELERATION * dt * 60 * scale_factor) in
  let p := set_v_vel p (v_vel p * Rpower DAMPING (dt * 60)) in
  set_height p (height p + v_vel p * dt * 60 * scale_factor).

(* --- Terrain Collision --- *)
Definition terrain_collision (p : Player) (world_scale : R) : Player :=
  let terrain_height :=
    IZR (optimized_collision_check (pos p) base_height_map) * world_scale in
  if Rlt_dec (height p) (terrain_height + 40 * world_scale) then
    let p := set_height p (terrain_height + 40 * world_scale) in
    set_v_vel p 0
  else p.

(* --- Pitch --- *)
Definition pitch_update (p : Player) (k : Keys) (dt : R) : Player :=
  let pitch_input := 0 in
  let pitch_input := if K_UP k then pitch_input - 1 else pitch_input in
  let pitch_input := if K_DOWN k then pitch_input + 1 else pitch_input in
  let p := set_pitch_vel p (pitch_vel p + pitch_input * PITCH_ACCEL * dt * 60) in
  let p := set_pitch_vel p (pitch_vel p * Rpower PITCH_DAMPING (dt * 60)) in
  let p := set_pitch p (pitch p + pitch_vel p * dt * 60) in
  set_pitch p (clamp_pitch (pitch p)).

(* --- Flying Toggle --- *)
Definition flying_toggle (p : Player) (k : Keys) (current_time : Z)
    (scale_factor : R) : Player :=
  if negb (flying p) then
    let p :=
      if K_SPACE k && negb (space_pressed_prev p) then
        let p :=
          if (current_time - last_space_press p <? 300)%Z then
            let p := set_flying p true in
            set_velocity_y p 0
          else if is_on_ground p then
            let p := set_velocity_y p (jump_force p * scale_factor) in
            set_is_on_ground p false
          else p in
        set_last_space_press p current_time
      else p in
    set_space_pressed_prev p (K_SPACE k)
  else
    let p :=
      if K_SPACE k && negb (space_pressed_prev p) then
        let p :=
          if (current_time - last_space_press p <? 300)%Z then
            let p := set_flying p false in
            set_velocity_y p 0
          else p in
        set_last_space_press p current_time
      else p in
    set_space_pressed_prev p (K_SPACE k).

(* --- Gravity --- *)
Definition gravity_step (p : Player) (dt scale_factor world_scale : R) : Player :=
  if negb (flying p) then
    let p := set_velocity_y p (velocity_y p - gravity p * dt * 60) in
    let p := set_height p (height p + velocity_y p * dt * 60 * scale_factor) in
    let terrain_height :=
      IZR (optimized_collision_check (pos p) base_height_map) * world_scale in
    if Rlt_dec (height p) (terrain_height + 40 * world_scale) then
      let p := set_height p (terrain_height + 40 * world_scale) in
      let p := set_velocity_y p 0 in
      set_is_on_ground p true
    else set_is_on_ground p false
  else p.

(** The blocks after [scale_factor] has been computed. *)
Definition update_player_body (p : Player) (pl : Polled)
    (dt world_scale scale_factor : R) : Player :=
  let p := horizontal_move p (keys pl) (mouse_button0 pl) dt scale_factor in
  let p := clamp_position p in
  let p := vertical_move p (keys pl) dt scale_factor in
  let p := terrain_collision p world_scale in
  let p := pitch_update p (keys pl) dt in
  let p := flying_toggle p (keys pl) (current_time pl) scale_factor in
  gravity_step p dt scale_factor world_scale.

(** [update_player].  [None] is the [ZeroDivisionError] of
    [scale_factor = 1.0 / world_scale].  The final
    [load_chunks_around(player['pos'], cm)] only reads the position and
    works on the chunk manager, a separate object; it is left out.
    [draw_distance] is a parameter the body never uses. *)
Definition update_player (p : Player) (mouse_rel : Z * Z) (draw_distance : Z)
    (dt world_scale : R) (pl : Polled) : option Player :=
  let p := mouse_look p mouse_rel dt in
  if Req_dec_T world_scale 0 then None
  else
    let scale_factor := 1 / world_scale in
    Some (update_player_body p pl dt world_scale scale_factor).

(** *** ray_casting

    The frame buffer [screen_array] and the horizon buffer [y_buffer] are
    updated in place by the compiled loop, which checks no index.  The
    model threads both through the loops and records every array access
    in [accesses], most recent first, so that the indices the code uses
    can be stated and bounded. *)

Definition Screen : Type := Z -> Z -> Color.

Inductive Access : Type :=
| HeightRead (x y : Z)         (* base_height_map[x, y] *)
| ColorRead (x y : Z)          (* base_color_map[x, y] *)
| HorizonWrite (col : Z)       (* y_buffer[col] = ... *)
| PixelWrite (col row : Z).    (* screen_array[col, row] = ... *)

Record RayState : Type := {
  screen_array : Screen;
  y_buffer : Z -> Z;
  accesses : list Access
}.

Definition read_height (st : RayState) (x y : Z) : RayState :=
  {| screen_array := screen_array st; y_buffer := y_buffer st;
     accesses := HeightRead x y :: accesses st |}.

Definition set_y_buffer (st : RayState) (col v : Z) : RayState :=
  {| screen_array := screen_array st;
     y_buffer := fun c => if (c =? col)%Z then v else y_buffer st c;
     accesses := HorizonWrite col :: accesses st |}.

(* screen_array[col, row] = base_color_map[x, y] *)
Definition paint (st : RayState) (col row x y : Z) : RayState :=
  {| screen_array := fun c r =>
       if ((c =? col) && (r =? row))%Z then cm_at base_color_map x y
       else screen_array st c r;
     y_buffer := y_buffer st;
     accesses := PixelWrite col row :: ColorRead x y :: accesses st |}.

(** Python's [range(a, b)]. *)
Definition range (a b : Z) : list Z :=
  map (fun i => (a + Z.of_nat i)%Z) (seq 0 (Z.to_nat (b - a))).

(* for screen_y in range(height_on_screen, y_buffer[num_ray]) *)
Fixpoint paint_rows (rows : list Z) (col x y : Z) (st : RayState) : RayState :=
  match rows with
  | [] => st
  | screen_y :: rest => paint_rows rest col x y (paint st col screen_y x y)
  end.

(** How an iteration leaves the depth loop: it goes on, it hits [break],
    or the division by [depth_corr] raises [ZeroDivisionError]. *)
Inductive Flow : Type := Running | Broken | Raised.

Record March : Type := {
  flow : Flow;
  first_contact : bool;
  ray : RayState
}.

Section Ray.

Variable screen_array0 : Screen.
Variable player_pos : Vec2.
Variables player_angle player_height player_pitch : R.
Variables screen_width screen_height : Z.
Variable delta_angle : R.
Variable ray_distance : Z.
Variables h_fov scale_height world_scale : R.

(** The grid cell of a depth sample; [None] is the [break] of the
    bounded map. *)
Definition sample_cell (ray_angle : R) (depth : Z) : option (Z * Z) :=
  let sin_a := sin ray_angle in
  let cos_a := cos ray_angle in
  let map_width := Z.pos (hm_shape0 base_height_map) in
  let map_height := Z.pos (hm_shape1 base_height_map) in
  if INFINITE_MAP then
    Some ((int (fst player_pos + IZR depth * cos_a) mod map_width)%Z,
          (int (snd player_pos + IZR depth * sin_a) mod map_height)%Z)
  else
    let x := int (fst player_pos + IZR depth * cos_a) in
    let y := int (snd player_pos + IZR depth * sin_a) in
    if ((x <? 0) || (x >=? map_width) || (y <? 0) || (y >=? map_height))%Z
    then None else Some (x, y).

(** The unclamped [height_on_screen] of a sample. *)
Definition project (ray_angle : R) (depth x y : Z) : Z :=
  let depth_corr := IZR depth * cos (player_angle - ray_angle) in
  let scaled_height := IZR (hm_at base_height_map x y) * world_scale in
  int ((player_height - scaled_height) / depth_corr * scale_height
       + player_pitch).

(** One iteration of [for depth in range(1, ray_distance)]. *)
Definition march_step (num_ray : Z) (ray_angle : R) (depth : Z)
    (m : March) : March :=
  match sample_cell ray_angle depth with
  | None => {| flow := Broken; first_contact := first_contact m; ray := ray m |}
  | Some (x, y) =>
    let depth_corr := IZR depth * cos (player_angle - ray_angle) in
    let st := read_height (ray m) x y in
    if Req_dec_T depth_corr 0 then
      {| flow := Raised; first_contact := first_contact m; ray := st |}
    else
      let height_on_screen := project ray_angle depth x y in
      let st :=
        if negb (first_contact m)
        then set_y_buffer st num_ray (Z.min height_on_screen screen_height)
        else st in
      let height_on_screen :=
        if (height_on_screen <? 0)%Z then 0%Z else height_on_screen in
      let st :=
        if (height_on_screen <? y_buffer st num_ray)%Z then
          let st := paint_rows (range height_on_screen (y_buffer st num_ray))
                               num_ray x y st in
          set_y_buffer st num_ray height_on_screen
        else st in
      {| flow := Running; first_contact := true; ray := st |}
  end.

(** The depth loop of column [num_ray] after its first [n] iterations
    (depths [1..n]), or fewer when it has already left the loop. *)
Fixpoint march (num_ray : Z) (ray_angle : R) (st0 : RayState) (n : nat) : March :=
  match n with
  | O => {| flow := Running; first_contact := false; ray := st0 |}
  | S k =>
    let m := march num_ray ray_angle st0 k in
    match flow m with
    | Running => march_step num_ray ray_angle (Z.of_nat (S k)) m
    | _ => m
    end
  end.

(** [range(1, ray_distance)] has [ray_distance - 1] elements. *)
Definition march_column (num_ray : Z) (ray_angle : R) (st0 : RayState) : March :=
  march num_ray ray_angle st0 (Z.to_nat (ray_distance - 1)).

Record Cast : Type := {
  raised : bool;               (* an exception has left the function *)
  ray_angle_of : R;
  state : RayState
}.

(** The column loop after its first [n] iterations (columns [0..n-1]). *)
Fixpoint cast (n : nat) : Cast :=
  match n with
  | O => {| raised := false;
            ray_angle_of := player_angle - h_fov;
            state := {| screen_array := screen_array0;
                        y_buffer := fun _ => screen_height;
                        accesses := [] |} |}
  | S k =>
    let c := cast k in
    if raised c then c
    else
      let m := march_column (Z.of_nat k) (ray_angle_of c) (state c) in
      match flow m with
      | Raised => {| raised := true; ray_angle_of := ray_angle_of c;
                     state := ray m |}
      | _ => {| raised := false;
                ray_angle_of := ray_angle_of c + delta_angle;
                state := ray m |}
      end
  end.

(** [ray_casting]: [for num_ray in range(screen_width)]. *)
Definition ray_casting : Cast := cast (Z.to_nat screen_width).

End Ray.

(** *** The voxel renderer

    The sky surface is drawn with pygame in [create_voxel_render]
    (a gradient and a sun sprite); its pixels are a parameter. *)

Variable sky_pixels : Z -> Z -> Color.

Record SkyImage : Type := {
  sky_width : Z;               (* sky_image.get_width() *)
  sky_height : Z;
  sky_at : Z -> Z -> Color
}.

Record VoxelRender : Type := {
  vr_fov : R;
  vr_h_fov : R;
  vr_num_rays : Z;
  vr_delta_angle : R;
  vr_ray_distance : Z;
  vr_scale_height : R;
  vr_sky_image : SkyImage;
  vr_screen_array : Screen
}.

(** [None] is the [ZeroDivisionError] of [fov / width]. *)
Definition create_voxel_render (width height : Z) : option VoxelRender :=
  let fov := PI / 6 in
  if (width =? 0)%Z then None
  else Some
    {| vr_fov := fov;
       vr_h_fov := fov / 2;
       vr_num_rays := width;
       vr_delta_angle := fov / IZR width;
       vr_ray_distance := 1000;
       vr_scale_height := 920;
       vr_sky_image := {| sky_width := int (IZR width * 1.5);
                          sky_height := int (IZR height * 2);
                          sky_at := sky_pixels |};
       vr_screen_array := fun _ _ => (0, 0, 0)%Z |}.

(** The two blits of the sky onto a fresh surface, at [-sky_x_offset]
    and at [sky_width - sky_x_offset], read back with [array3d]. *)
Definition blit_sky (sky : SkyImage) (sky_x_offset : Z) : Screen :=
  fun c r =>
    if ((0 <=? r) && (r <? sky_height sky))%Z then
      if ((sky_width sky - sky_x_offset <=? c)
          && (c <? 2 * sky_width sky - sky_x_offset))%Z
      then sky_at sky (c - (sky_width sky - sky_x_offset))%Z r
      else if ((- sky_x_offset <=? c) && (c <? sky_width sky - sky_x_offset))%Z
      then sky_at sky (c + sky_x_offset)%Z r
      else (0, 0, 0)%Z
    else (0, 0, 0)%Z.

(** [update_voxel_render]; its [width] and [height] are named
    [screen_width] and [screen_height] here, as [ray_casting] names
    them.  Both dictionaries it receives are mutable, so
    both are returned.  [None] is an exception: the modulo by a zero sky
    width, or the one [ray_casting] raised. *)
Definition update_voxel_render (vr : VoxelRender) (player : Player)
    (screen_width screen_height draw_distance current_time : Z) (world_scale : R)
    : option (VoxelRender * Player) :=
  let ray_distance := draw_distance in
  if (sky_width (vr_sky_image vr) =? 0)%Z then None
  else
    let sky_x_offset :=
      (int (angle player / (2 * PI) * IZR screen_width)
       mod sky_width (vr_sky_image vr))%Z in
    let screen := blit_sky (vr_sky_image vr) sky_x_offset in
    let breath_offset :=
      BREATH_AMPLITUDE * sin (IZR current_time * BREATH_FREQUENCY) in
    let effective_height := height player + breath_offset in
    let c := ray_casting screen (pos player) (angle player) effective_height
               (pitch player) screen_width screen_height (vr_delta_angle vr) ray_distance
               (vr_h_fov vr) (vr_scale_height vr) world_scale in
    if raised c then None
    else Some
      ({| vr_fov := vr_fov vr; vr_h_fov := vr_h_fov vr;
          vr_num_rays := vr_num_rays vr;
          vr_delta_angle := vr_delta_angle vr;
          vr_ray_distance := ray_distance;
          vr_scale_height := vr_scale_height vr;
          vr_sky_image := vr_sky_image vr;
          vr_screen_array := screen_array (state c) |}, player).

(** *** The application *)

Record App : Type := {
  app_width : Z;
  app_height : Z;
  app_draw_distance : Z;
  app_player : Player;
  app_voxel_render : VoxelRender;
  app_dt : R;
  app_world_scale : R
}.

Definition init_app : option App :=
  let width := 800%Z in
  let height := 450%Z in
  match create_voxel_render width height with
  | None => None
  | Some vr =>
    Some {| app_width := width; app_height := height;
            app_draw_distance := DRAW_DISTANCE;
            app_player := create_player;
            app_voxel_render := vr;
            app_dt := 0;
            app_world_scale := WORLD_SCALE |}
  end.

(* PAGEUP / PAGEDOWN *)
Definition adjust_draw_distance (pressed_key : Keys) (draw_distance : Z) : Z :=
  let draw_distance :=
    if K_PAGEUP pressed_key then Z.min 3000 (draw_distance + 50)
    else draw_distance in
  if K_PAGEDOWN pressed_key then Z.max 500 (draw_distance - 50)
  else draw_distance.

(* + / - *)
Definition adjust_world_scale (pressed_key : Keys) (world_scale : R) : R :=
  let world_scale :=
    if K_EQUALS pressed_key || K_KP_PLUS pressed_key
    then Rmin WORLD_SCALE_MAX (world_scale + WORLD_SCALE_STEP)
    else world_scale in
  if K_MINUS pressed_key || K_KP_MINUS pressed_key
  then Rmax WORLD_SCALE_MIN (world_scale - WORLD_SCALE_STEP)
  else world_scale.

(** [update_app].  [mouse_rel], the key state and [ticks] (the
    [current_time] read in [update_app] itself) are polled here; the key
    state does not change between this poll and the one in
    [update_player], the clock may. *)
Definition update_app (app : App) (mouse_rel : Z * Z) (ticks : Z)
    (pl : Polled) : option App :=
  let pressed_key := keys pl in
  let draw_distance := adjust_draw_distance pressed_key (app_draw_distance app) in
  let world_scale := adjust_world_scale pressed_key (app_world_scale app) in
  match update_player (app_player app) mouse_rel draw_distance (app_dt app)
          world_scale pl with
  | None => None
  | Some player =>
    match update_voxel_render (app_voxel_render app) player (app_width app)
            (app_height app) draw_distance ticks world_scale with
    | None => None
    | Some (vr, player) =>
      Some {| app_width := app_width app; app_height := app_height app;
              app_draw_distance := draw_distance;
              app_player := player;
              app_voxel_render := vr;
              app_dt := app_dt app;
              app_world_scale := world_scale |}
    end
  end.

(** *** Successive ticks

    [run_app] calls [update_app], hence [update_player], once per tick.
    A [Tick] is what one call of [update_player] receives and polls;
    [run ticks n p0] is the player after the first [n] calls. *)

Record Tick : Type := {
  t_mouse_rel : Z * Z;
  t_draw_distance : Z;
  t_dt : R;
  t_world_scale : R;
  t_polled : Polled
}.

Definition tick (p : Player) (t : Tick) : option Player :=
  update_player p (t_mouse_rel t) (t_draw_distance t) (t_dt t)
    (t_world_scale t) (t_polled t).

Fixpoint run (ticks : nat -> Tick) (n : nat) (p0 : Player) : option Player :=
  match n with
  | O => Some p0
  | S k =>
    match run ticks k p0 with
    | None => None
    | Some p => tick p (ticks k)
    end
  end.

End Engine.

(** ** The chunk manager

    [player_pos] holds floats, so [world_x // CHUNK_SIZE] is the float
    [floor(world_x / CHUNK_SIZE)]; it is an integer value and is kept as
    a [Z].  The dictionary [loaded_chunks] is a list of key-value pairs
    in insertion order, the FIFO [load_queue] a list with its head
    first.  The set [chunks_to_load] is listed in the order the two
    loops add its elements; Python fixes no iteration order for a set,
    and nothing below depends on one.  [chunk_loader] runs on a worker
    thread; one iteration of its loop is [chunk_loader_step], and how
    iterations interleave with the main thread is not modelled. *)

Definition CHUNK_SIZE : Z := 10.
Definition LOAD_DISTANCE : Z := 1.

Definition Coord : Type := (Z * Z)%type.

Definition coord_eqb (a b : Coord) : bool :=
  ((fst a =? fst b) && (snd a =? snd b))%Z.

Record Chunk : Type := {
  chunk_x : Z;
  chunk_y : Z;
  chunk_heightmap : option HeightMap;
  chunk_colormap : option ColorMap
}.

Definition create_chunk (x y : Z) : Chunk :=
  {| chunk_x := x; chunk_y := y;
     chunk_heightmap := None; chunk_colormap := None |}.

Record ChunkManager : Type := {
  loaded_chunks : list (Coord * Chunk);
  active_area : Coord;
  load_queue : list Coord
}.

Definition init_chunk_manager : ChunkManager :=
  {| loaded_chunks := []; active_area := (0, 0)%Z; load_queue := [] |}.

(* chunk_coord in cm['loaded_chunks'] *)
Definition is_loaded (c : Coord) (loaded : list (Coord * Chunk)) : bool :=
  existsb (fun kv => coord_eqb (fst kv) c) loaded.

(** One iteration of the loop of [chunk_loader]; [None] when the queue
    is empty and [get()] blocks. *)
Definition chunk_loader_step (cm : ChunkManager) : option ChunkManager :=
  match load_queue cm with
  | [] => None
  | chunk_coord :: rest =>
    Some {| loaded_chunks :=
              if is_loaded chunk_coord (loaded_chunks cm)
              then loaded_chunks cm
              else loaded_chunks cm
                   ++ [(chunk_coord,
                        create_chunk (fst chunk_coord) (snd chunk_coord))];
            active_area := active_area cm;
            load_queue := rest |}
  end.

Definition get_chunk (world_x world_y : R) : Coord :=
  (Zfloor (world_x / IZR CHUNK_SIZE), Zfloor (world_y / IZR CHUNK_SIZE)).

(* the set built by the two loops over dx and dy *)
Definition chunks_around (current_chunk : Coord) : list Coord :=
  flat_map
    (fun dx =>
       map (fun dy => (fst current_chunk + dx, snd current_chunk + dy)%Z)
         (range (- LOAD_DISTANCE) (LOAD_DISTANCE + 1)))
    (range (- LOAD_DISTANCE) (LOAD_DISTANCE + 1)).

Definition load_chunks_around (player_pos : Vec2) (cm : ChunkManager)
    : ChunkManager :=
  let current_chunk := get_chunk (fst player_pos) (snd player_pos) in
  let chunks_to_load := chunks_around current_chunk in
  let loaded :=
    filter (fun kv => existsb (coord_eqb (fst kv)) chunks_to_load)
      (loaded_chunks cm) in
  {| loaded_chunks := loaded;
     active_area := active_area cm;
     load_queue :=
       load_queue cm
       ++ filter (fun c => negb (is_loaded c loaded)) chunks_to_load |}.

(** The worker run until the queue is empty, the main thread idle. *)
Fixpoint drain (fuel : nat) (cm : ChunkManager) : ChunkManager :=
  match fuel with
  | O => cm
  | S k =>
    match chunk_loader_step cm with
    | None => cm
    | Some cm' => drain k cm'
    end
  end.

(** ** The sky

    The colour of row [y] of the sky band and the pixel [(x, y)] of the
    sun sprite, as [create_voxel_render] computes them before it hands
    them to pygame, and the unused [create_sky_gradient], whose rows are
    stored in a [uint8] array. *)

Definition sky_color (sky_height y : Z) : Color :=
  let factor := 1 - IZR y / IZR sky_height in
  (int (135 * factor), int (206 * factor), int (235 * factor)).

Definition sun_glow_radius : Z := 80.
Definition sun_radius : Z := 50.

(* math.hypot *)
Definition hypot (a b : R) : R := sqrt (a * a + b * b).

(** The RGBA value [set_at] receives for the pixel [(x, y)]. *)
Definition sun_pixel (x y : Z) : Z * Z * Z * Z :=
  let center := (sun_glow_radius, sun_glow_radius) in
  let dist := hypot (IZR (x - fst center)) (IZR (y - snd center)) in
  if Rle_dec dist (IZR sun_radius) then (255, 255, 0, 255)%Z
  else if Rle_dec dist (IZR sun_glow_radius) then
    let glow_factor :=
      1 - (dist - IZR sun_radius) / IZR (sun_glow_radius - sun_radius) in
    let alpha := int (255 * glow_factor) in
    (255, 255, 0, alpha)%Z
  else (0, 0, 0, 0)%Z.

(** Storing a float in a [uint8] array: truncation, modulo 256. *)
Definition to_uint8 (x : R) : Z := (int x mod 256)%Z.

Definition create_sky_gradient (height : Z) : list Color :=
  map (fun y =>
         let t := IZR y / IZR height in
         (to_uint8 (135 * (1 - t) + 0 * t),
          to_uint8 (206 * (1 - t) + 0 * t),
          to_uint8 (235 * (1 - t) + 125 * t)))
      (range 0 height).

(** ** The main loop

    One iteration of the loop of [run_app] measures [dt], polls the
    input and calls [update_app]; [draw_app] only presents the frame.
    [run_app ... frames n] is the application after [n] iterations, the
    iteration that sees a quit event being the end of the sequence. *)

Record Frame : Type := {
  f_dt : R;                    (* clock.tick(240) / 1000.0 *)
  f_mouse_rel : Z * Z;
  f_ticks : Z;                 (* current_time in update_app *)
  f_polled : Polled
}.

Definition set_dt (app : App) (dt : R) : App :=
  {| app_width := app_width app; app_height := app_height app;
     app_draw_distance := app_draw_distance app;
     app_player := app_player app;
     app_voxel_render := app_voxel_render app;
     app_dt := dt;
     app_world_scale := app_world_scale app |}.

Fixpoint run_app (INFINITE_MAP : bool) (hm : HeightMap) (cm : ColorMap)
    (sky : Z -> Z -> Color) (frames : nat -> Frame) (n : nat) : option App :=
  match n with
  | O => init_app INFINITE_MAP hm sky
  | S k =>
    match run_app INFINITE_MAP hm cm sky frames k with
    | None => None
    | Some app =>
      update_app INFINITE_MAP hm cm (set_dt app (f_dt (frames k)))
        (f_mouse_rel (frames k)) (f_ticks (frames k)) (f_polled (frames k))
    end
  end.

(** ** The damping product in binary64

    The reals above leave out rounding.  The velocity update of lines
    190-191 is modelled a second time on IEEE 754 binary64 numbers, as
    numpy computes it on the [float64] array [vel]: [spec_float] with
    precision 53 and exponent bound 1024, whose [SFmul] and [SFadd]
    round to nearest, ties to even.  [math.pow] is a function of the C
    library; the float it returns is the parameter [pw]. *)
Definition b64_mul : spec_float -> spec_float -> spec_float := SFmul 53 1024.
Definition b64_add : spec_float -> spec_float -> spec_float := SFadd 53 1024.
Definition b64_div : spec_float -> spec_float -> spec_float := SFdiv 53 1024.

(** A well-formed binary64 datum, and one that is neither infinite nor
    NaN. *)
Definition b64_valid (x : spec_float) : bool := valid_binary 53 1024 x.
Definition b64_finite (x : spec_float) : bool :=
  match x with
  | S754_zero _ | S754_finite _ _ _ => true
  | _ => false
  end.
Definition b64_number (x : spec_float) : bool := b64_valid x && b64_finite x.

(** The real number a float stands for. *)
Definition B2R (x : spec_float) : R :=
  match x with
  | S754_finite s m e => IZR (cond_Zopp s (Z.pos m)) * powerRZ 2 e
  | _ => 0
  end.

(** A two-element [float64] array, and the vector it stands for. *)
Definition F2 : Type := (spec_float * spec_float)%type.
Definition F2R (v : F2) : Vec2 := (B2R (fst v), B2R (snd v)).

(** The floats [0.0], [1.0], [60.0], [2.0] (ACCELERATION) and [0.8]
    (DAMPING, the binary64 number nearest to 0.8). *)
Definition zero64 : spec_float := S754_zero false.
Definition one64 : spec_float := S754_finite false 4503599627370496 (-52).
Definition sixty64 : spec_float := S754_finite false 8444249301319680 (-47).
Definition ACCELERATION64 : spec_float :=
  S754_finite false 4503599627370496 (-51).
Definition DAMPING64 : spec_float := S754_finite false 7205759403792794 (-53).

(** Lines 190-191:
    [vel += input_vec * ACCELERATION * dt * 60 * scale_factor] and
    [vel *= math.pow(DAMPING, dt * 60)], each product and sum rounded. *)
Definition horizontal_velocity64 (vel input_vec : F2)
    (dt scale_factor pw : spec_float) : F2 :=
  let term c :=
    b64_mul (b64_mul (b64_mul (b64_mul c ACCELERATION64) dt) sixty64)
      scale_factor in
  let vel := (b64_add (fst vel) (term (fst input_vec)),
              b64_add (snd vel) (term (snd input_vec))) in
  (b64_mul (fst vel) pw, b64_mul (snd vel) pw).

(** [vel] after [n] calls of [update_player] with no movement input, the
    same [dt] and nothing to clamp: no other line writes [vel]. *)
Fixpoint idle_velocity64 (n : nat) (vel : F2)
    (dt scale_factor pw : spec_float) : F2 :=
  match n with
  | O => vel
  | S k =>
    horizontal_velocity64 (idle_velocity64 k vel dt scale_factor pw)
      (zero64, zero64) dt scale_factor pw
  end.

(** ** The velocity in the world frame

    [vel] is kept in the player's frame, [vel[0]] sideways and [vel[1]]
    forward; lines 192-195 of [update_player] rotate it by the yaw into
    [move_dir], the motion along the world axes. *)
Definition move_dir (p : Player) : Vec2 :=
  (cos (angle p) * snd (vel p) - sin (angle p) * fst (vel p),
   sin (angle p) * snd (vel p) + cos (angle p) * fst (vel p)).

(** ** Predicates used in the statements below *)

(** The fields the flying toggle reads: two players that agree on them
    take the same branch of the toggle. *)
Definition same_jump_state (p q : Player) : Prop :=
  flying q = flying p /\ last_space_press q = last_space_press p
  /\ space_pressed_prev q = space_pressed_prev p
  /\ is_on_ground q = is_on_ground p /\ velocity_y q = velocity_y p
  /\ jump_force q = jump_force p /\ gravity q = gravity p.

(** None of W, S, A, D and the left mouse button is down. *)
Definition no_move_input (pl : Polled) : Prop :=
  K_w (keys pl) = false /\ K_s (keys pl) = false
  /\ K_a (keys pl) = false /\ K_d (keys pl) = false
  /\ mouse_button0 pl = false.

(** The player as the boundary step of tick [t] receives it. *)
Definition after_move (p : Player) (t : Tick) : Player :=
  horizontal_move (mouse_look p (t_mouse_rel t) (t_dt t))
    (keys (t_polled t)) (mouse_button0 (t_polled t)) (t_dt t)
    (1 / t_world_scale t).

(** The boundary step of tick [t] has nothing to clamp: the map wraps,
    or the position it receives passes all four tests. *)
Definition no_clamp (INFINITE_MAP : bool) (hm : HeightMap) (p : Player)
    (t : Tick) : Prop :=
  INFINITE_MAP = true
  \/ (0 <= fst (pos (after_move p t)) < IZR (Z.pos (hm_shape0 hm))
      /\ 0 <= snd (pos (after_move p t)) < IZR (Z.pos (hm_shape1 hm))).

(** The player after [n] ticks ([p0] again if a call raised). *)
Definition player_at (INFINITE_MAP : bool) (hm : HeightMap)
    (ticks : nat -> Tick) (p0 : Player) (n : nat) : Player :=
  match run INFINITE_MAP hm ticks n p0 with
  | Some p => p
  | None => p0
  end.

(** The pixels written, as (column, row) pairs, most recent first. *)
Fixpoint pixel_writes (l : list Access) : list (Z * Z) :=
  match l with
  | [] => []
  | PixelWrite col row :: rest => (col, row) :: pixel_writes rest
  | _ :: rest => pixel_writes rest
  end.

(** An access stays inside the array it indexes: the two grids with
    their own shapes, the horizon buffer of [screen_width] entries, the
    frame buffer of [screen_width] x [screen_height] pixels. *)
Definition in_bounds (hm : HeightMap) (cm : ColorMap)
    (screen_width screen_height : Z) (a : Access) : Prop :=
  match a with
  | HeightRead x y =>
      (0 <= x < Z.pos (hm_shape0 hm))%Z /\ (0 <= y < Z.pos (hm_shape1 hm))%Z
  | ColorRead x y =>
      (0 <= x < Z.pos (cm_shape0 cm))%Z /\ (0 <= y < Z.pos (cm_shape1 cm))%Z
  | HorizonWrite col => (0 <= col < screen_width)%Z
  | PixelWrite col row =>
      (0 <= col < screen_width)%Z /\ (0 <= row < screen_height)%Z
  end.

(** What the depth loop of column [c], started in [st0], has done by the
    time it is in [m]: it has written no other entry of the horizon
    buffer; before the first contact it has changed nothing; after it the
    horizon is at most [screen_height]; and the pixels it has painted are
    distinct, lie in column [c], and lie between the current horizon and
    [screen_height], at non-negative rows. *)
Definition march_inv (screen_height c : Z) (st0 : RayState) (m : March)
    : Prop :=
  (forall c', c' <> c -> y_buffer (ray m) c' = y_buffer st0 c')
  /\ (first_contact m = false -> y_buffer (ray m) c = y_buffer st0 c)
  /\ (first_contact m = true -> (y_buffer (ray m) c <= screen_height)%Z)
  /\ exists new,
       pixel_writes (accesses (ray m)) = new ++ pixel_writes (accesses st0)
       /\ (first_contact m = false -> new = [])
       /\ NoDup new
       /\ forall cr, In cr new ->
            fst cr = c
            /\ (y_buffer (ray m) c <= snd cr < screen_height)%Z
            /\ (0 <= snd cr)%Z.

(** The dictionary of loaded chunks is well formed: its keys are
    distinct and each key holds the placeholder record of its own
    coordinates. *)
Definition chunks_wf (cm : ChunkManager) : Prop :=
  NoDup (map fst (loaded_chunks cm))
  /\ forall c ch, In (c, ch) (loaded_chunks cm) ->
                  ch = create_chunk (fst c) (snd c).

(** The frame buffer of [st] against the background [s0] it started
    from: a pixel that was never written still shows the background, and
    a pixel that was written shows the colour of a cell of the grid. *)
Definition traced (hm : HeightMap) (cm : ColorMap) (s0 : Screen)
    (st : RayState) : Prop :=
  (forall c r, ~ In (c, r) (pixel_writes (accesses st)) ->
               screen_array st c r = s0 c r)
  /\ (forall c r, In (c, r) (pixel_writes (accesses st)) ->
        exists x y,
          (0 <= x < Z.pos (hm_shape0 hm))%Z /\ (0 <= y < Z.pos (hm_shape1 hm))%Z
          /\ screen_array st c r = cm_at cm x y).

(** The number of terrain samples taken. *)
Fixpoint height_reads (l : list Access) : nat :=
  match l with
  | [] => O
  | HeightRead _ _ :: rest => S (height_reads rest)
  | _ :: rest => height_reads rest
  end.

(** What holds of the application between two iterations of the main
    loop: the frame size and the projection constants are those of
    [init_app], the world scale and the draw distance are within their
    ranges (the draw distance counting its start value 5000), the pitch
    is within its range, the eye is at or above the floor, and on the
    bounded map the player is inside the map. *)
Definition app_ok (INFINITE_MAP : bool) (hm : HeightMap) (app : App) : Prop :=
  app_width app = 800%Z /\ app_height app = 450%Z
  /\ vr_h_fov (app_voxel_render app) = PI / 6 / 2
  /\ vr_delta_angle (app_voxel_render app) = PI / 6 / IZR 800
  /\ sky_width (vr_sky_image (app_voxel_render app)) = 1200%Z
  /\ WORLD_SCALE_MIN <= app_world_scale app <= WORLD_SCALE_MAX
  /\ (500 <= app_draw_distance app <= 5000)%Z
  /\ PITCH_MIN <= pitch (app_player app) <= PITCH_MAX
  /\ height (app_player app)
     >= IZR (optimized_collision_check INFINITE_MAP (pos (app_player app)) hm)
        * app_world_scale app + 40 * app_world_scale app
  /\ (INFINITE_MAP = false ->
      0 <= fst (pos (app_player app)) < IZR (Z.pos (hm_shape0 hm))
      /\ 0 <= snd (pos (app_player app)) < IZR (Z.pos (hm_shape1 hm))).

(** ** Concrete inputs used in the examples below *)

Definition no_keys : Keys :=
  {| K_w := false; K_s := false; K_a := false; K_d := false;
     K_SPACE := false; K_LSHIFT := false; K_RSHIFT := false;
     K_UP := false; K_DOWN := false;
     K_PAGEUP := false; K_PAGEDOWN := false;
     K_EQUALS := false; K_KP_PLUS := false;
     K_MINUS := false; K_KP_MINUS := false |}.

Definition key_pagedown : Keys :=
  {| K_w := false; K_s := false; K_a := false; K_d := false;
     K_SPACE := false; K_LSHIFT := false; K_RSHIFT := false;
     K_UP := false; K_DOWN := false;
     K_PAGEUP := false; K_PAGEDOWN := true;
     K_EQUALS := false; K_KP_PLUS := false;
     K_MINUS := false; K_KP_MINUS := false |}.

Definition key_space : Keys :=
  {| K_w := false; K_s := false; K_a := false; K_d := false;
     K_SPACE := true; K_LSHIFT := false; K_RSHIFT := false;
     K_UP := false; K_DOWN := false;
     K_PAGEUP := false; K_PAGEDOWN := false;
     K_EQUALS := false; K_KP_PLUS := false;
     K_MINUS := false; K_KP_MINUS := false |}.

(** A flat 4 x 4 terrain of height 0 and its colour grid. *)
Definition flat4 : HeightMap :=
  {| hm_shape0 := 4; hm_shape1 := 4; hm_at := fun _ _ => 0%Z |}.

Definition grey4 : ColorMap :=
  {| cm_shape0 := 4; cm_shape1 := 4; cm_at := fun _ _ => (128, 128, 128)%Z |}.

(** A tick in which nothing is pressed, polled at [t] milliseconds. *)
Definition idle_at (t : Z) : Polled :=
  {| keys := no_keys; mouse_button0 := false; current_time := t |}.

(** A tick in which only the jump key is down. *)
Definition space_at (t : Z) : Polled :=
  {| keys := key_space; mouse_button0 := false; current_time := t |}.

(** A player standing on [flat4] half a cell inside its upper edge in x. *)
Definition near_edge : Player :=
  set_pos (create_player false flat4) (3.5, 2).

(** A player that a move has carried outside [flat4] on both axes. *)
Definition outside : Player :=
  set_vel (set_pos (create_player false flat4) (-1, 5)) (-2, 3).

(** The player [create_player] builds on [flat4]: grounded, not flying,
    no press recorded. *)
Definition rested : Player := create_player false flat4.

(** The same player after a press recorded at 1000 ms. *)
Definition tapped : Player := set_last_space_press rested 1000.

(** Two idle ticks at 0 and 100 ms, then the jump key held from 250 ms
    on, at 60 ticks per second and world scale 1. *)
Definition first_press_ticks (i : nat) : Tick :=
  {| t_mouse_rel := (0, 0)%Z; t_draw_distance := 5000; t_dt := 1 / 60;
     t_world_scale := 1;
     t_polled := if Nat.ltb i 2 then idle_at (100 * Z.of_nat i)
                 else space_at 250 |}.

(** A flat 100 x 100 terrain, a player gliding forward at its centre,
    and idle ticks at 60 per second and world scale 1. *)
Definition flat100 : HeightMap :=
  {| hm_shape0 := 100; hm_shape1 := 100; hm_at := fun _ _ => 0%Z |}.

Definition coasting : Player :=
  set_vel (create_player false flat100) (0, 1).

Definition idle_ticks (i : nat) : Tick :=
  {| t_mouse_rel := (0, 0)%Z; t_draw_distance := 5000; t_dt := 1 / 60;
     t_world_scale := 1; t_polled := idle_at (1000 + 16 * Z.of_nat i) |}.

(** A 4 x 4 terrain with a wall of height 200 along x = 1. *)
Definition cliff4 : HeightMap :=
  {| hm_shape0 := 4; hm_shape1 := 4;
     hm_at := fun x _ => if (x =? 1)%Z then 200%Z else 0%Z |}.

(** A black frame buffer. *)
Definition black : Screen := fun _ _ => (0, 0, 0)%Z.

(** [ray_casting] next to the wall of [cliff4], before its first column:
    the player at (0.5, 0.5), eye height 40, looking along x, a frame of
    height 450, draw distance 2. *)
Definition cliff_start : Cast :=
  cast false cliff4 grey4 black (0.5, 0.5) 0 40 0 450 (PI / 6) 2 0 920 1 0.

(** [flat4] with one cell changed outside the 4 x 4 grid. *)
Definition cliff4_far : HeightMap :=
  {| hm_shape0 := 4; hm_shape1 := 4;
     hm_at := fun x y => if ((x =? 1) && (y =? 9))%Z then 200%Z else 0%Z |}.

(** A flying player 60 above the flat floor whose last press was
    recorded at 1000 ms. *)
Definition airborne : Player :=
  set_height (set_flying tapped true) 100.

(** A sky band of the size [create_voxel_render] gives an 800 x 450
    frame, each pixel holding its own coordinates. *)
Definition sky_sample : SkyImage :=
  {| sky_width := 1200; sky_height := 900;
     sky_at := fun c r => (c, r, 0)%Z |}.

(** A player facing along the world x axis (yaw 0) that moves backwards,
    [vel = (0, -1)], and that the move has carried to x = -1 on
    [flat4]. *)
Definition backed_out : Player :=
  set_vel (set_pos (set_angle (create_player false flat4) 0) (-1, 2)) (0, -1).

(** ** Draw distance *)

(** Inside the range, the two clamps keep the draw distance inside. *)
Lemma adjust_draw_distance_in_range (k : Keys) (d : Z) :
  (500 <= d <= 3000)%Z ->
  (500 <= adjust_draw_distance k d <= 3000)%Z.
Proof.
  intros Hd. unfold adjust_draw_distance.
  destruct (K_PAGEUP k), (K_PAGEDOWN k); lia.
Qed.

(** [update_app] stores the adjusted draw distance. *)
Lemma update_app_draw_distance im hm cm (app app' : App) mr ticks pl :
  update_app im hm cm app mr ticks pl = Some app' ->
  app_draw_distance app' = adjust_draw_distance (keys pl) (app_draw_distance app).
Proof.
  unfold update_app. intros H.
  destruct (update_player _ _ _ _ _ _ _ _) as [q|]; [|discriminate].
  destruct (update_voxel_render _ _ _ _ _ _ _ _ _ _) as [[vr q']|];
    [|discriminate].
  now inversion H.
Qed.

(** C6, at the failing input.  The draw distance [init_app] stores is
    5000, above the upper clamp 3000 of [update_app]; a tick with no key
    held leaves it at 5000 and a tick with PAGEDOWN held makes it 4950,
    so the value is outside [500, 3000] from startup until PAGEUP is
    pressed. *)
Theorem draw_distance_startup_out_of_range :
  (forall im hm sky,
     option_map app_draw_distance (init_app im hm sky) = Some 5000%Z)
  /\ adjust_draw_distance no_keys DRAW_DISTANCE = 5000%Z
  /\ adjust_draw_distance key_pagedown DRAW_DISTANCE = 4950%Z
  /\ ~ (500 <= DRAW_DISTANCE <= 3000)%Z.
Proof.
  repeat split; try reflexivity.
  unfold DRAW_DISTANCE. lia.
Qed.

(** ** The player controller *)

Section PlayerFacts.

Variable INFINITE_MAP : bool.
Variable base_height_map : HeightMap.

Local Abbreviation collision_floor p ws :=
  (IZR (optimized_collision_check INFINITE_MAP (pos p) base_height_map) * ws
   + 40 * ws).

(** Which fields each block writes. *)

Lemma flying_toggle_frame (p : Player) k t sf :
  let p' := flying_toggle p k t sf in
  pos p' = pos p /\ height p' = height p /\ vel p' = vel p.
Proof.
  unfold flying_toggle.
  destruct (flying p), (K_SPACE k), (space_pressed_prev p),
    (t - last_space_press p <? 300)%Z, (is_on_ground p); simpl; auto.
Qed.

Lemma pitch_update_frame (p : Player) k dt :
  let p' := pitch_update p k dt in
  pos p' = pos p /\ height p' = height p /\ vel p' = vel p
  /\ flying p' = flying p /\ last_space_press p' = last_space_press p
  /\ space_pressed_prev p' = space_pressed_prev p
  /\ is_on_ground p' = is_on_ground p /\ velocity_y p' = velocity_y p
  /\ jump_force p' = jump_force p /\ gravity p' = gravity p.
Proof. unfold pitch_update; simpl; repeat split. Qed.

Lemma terrain_collision_frame (p : Player) ws :
  let p' := terrain_collision INFINITE_MAP base_height_map p ws in
  pos p' = pos p /\ vel p' = vel p
  /\ flying p' = flying p /\ last_space_press p' = last_space_press p
  /\ space_pressed_prev p' = space_pressed_prev p
  /\ is_on_ground p' = is_on_ground p /\ velocity_y p' = velocity_y p
  /\ jump_force p' = jump_force p /\ gravity p' = gravity p.
Proof.
  unfold terrain_collision; simpl.
  destruct (Rlt_dec _ _); simpl; repeat split.
Qed.

Lemma vertical_move_frame (p : Player) k dt sf :
  let p' := vertical_move p k dt sf in
  pos p' = pos p /\ vel p' = vel p
  /\ flying p' = flying p /\ last_space_press p' = last_space_press p
  /\ space_pressed_prev p' = space_pressed_prev p
  /\ is_on_ground p' = is_on_ground p /\ velocity_y p' = velocity_y p
  /\ jump_force p' = jump_force p /\ gravity p' = gravity p.
Proof. unfold vertical_move; simpl; repeat split. Qed.

Lemma clamp_position_frame (p : Player) :
  let p' := clamp_position INFINITE_MAP base_height_map p in
  height p' = height p
  /\ flying p' = flying p /\ last_space_press p' = last_space_press p
  /\ space_pressed_prev p' = space_pressed_prev p
  /\ is_on_ground p' = is_on_ground p /\ velocity_y p' = velocity_y p
  /\ jump_force p' = jump_force p /\ gravity p' = gravity p.
Proof.
  unfold clamp_position.
  destruct INFINITE_MAP; simpl; [repeat split|].
  destruct (Rlt_dec (fst (pos p)) 0); [|destruct (Rge_dec (fst (pos p)) _)];
    simpl;
    (destruct (Rlt_dec _ 0); [|destruct (Rge_dec _ _)]); simpl; repeat split.
Qed.

Lemma horizontal_move_frame (p : Player) k mb dt sf :
  let p' := horizontal_move p k mb dt sf in
  height p' = height p
  /\ flying p' = flying p /\ last_space_press p' = last_space_press p
  /\ space_pressed_prev p' = space_pressed_prev p
  /\ is_on_ground p' = is_on_ground p /\ velocity_y p' = velocity_y p
  /\ jump_force p' = jump_force p /\ gravity p' = gravity p.
Proof. unfold horizontal_move; simpl; repeat split. Qed.

Lemma mouse_look_frame (p : Player) mr dt :
  let p' := mouse_look p mr dt in
  pos p' = pos p /\ height p' = height p /\ vel p' = vel p
  /\ flying p' = flying p /\ last_space_press p' = last_space_press p
  /\ space_pressed_prev p' = space_pressed_prev p
  /\ is_on_ground p' = is_on_ground p /\ velocity_y p' = velocity_y p
  /\ jump_force p' = jump_force p /\ gravity p' = gravity p.
Proof. unfold mouse_look; simpl; repeat split. Qed.

(** Both collision blocks leave the eye at or above the floor. *)

Lemma terrain_collision_floor (p : Player) ws :
  let p' := terrain_collision INFINITE_MAP base_height_map p ws in
  height p' >= collision_floor p' ws.
Proof.
  unfold terrain_collision; simpl.
  destruct (Rlt_dec _ _) as [Hlt|Hge]; simpl; lra.
Qed.

Lemma gravity_step_floor (p : Player) dt sf ws :
  flying p = false ->
  let p' := gravity_step INFINITE_MAP base_height_map p dt sf ws in
  height p' >= collision_floor p' ws.
Proof.
  intros Hf. unfold gravity_step. rewrite Hf; simpl.
  destruct (Rlt_dec _ _) as [Hlt|Hge]; simpl; lra.
Qed.

Lemma gravity_step_flying (p : Player) dt sf ws :
  flying p = true ->
  gravity_step INFINITE_MAP base_height_map p dt sf ws = p.
Proof. intros Hf. unfold gravity_step. now rewrite Hf. Qed.

Lemma update_player_body_floor (p : Player) pl dt ws sf :
  let p' := update_player_body INFINITE_MAP base_height_map p pl dt ws sf in
  height p' >= collision_floor p' ws.
Proof.
  unfold update_player_body.
  set (q := terrain_collision _ _ _ ws).
  set (r := flying_toggle _ _ _ _).
  destruct (flying r) eqn:Hfly.
  - rewrite gravity_step_flying by exact Hfly.
    destruct (flying_toggle_frame (pitch_update q (keys pl) dt) (keys pl)
                (current_time pl) sf) as (Hp & Hh & _).
    destruct (pitch_update_frame q (keys pl) dt) as (Hp' & Hh' & _).
    fold r in Hp, Hh. rewrite Hp, Hh, Hp', Hh'.
    apply terrain_collision_floor.
  - now apply gravity_step_floor.
Qed.

(** C1.  Whenever [update_player] returns (that is, for every nonzero
    [world_scale]; any player, input and [dt]), the eye height of the
    player it returns is at least the terrain height sampled at the
    player's position, under the configured boundary policy, times
    [world_scale], plus [40 * world_scale]. *)
Theorem update_player_collision_invariant
    (p : Player) (mouse_rel : Z * Z) (draw_distance : Z)
    (dt world_scale : R) (pl : Polled) :
  world_scale <> 0 ->
  exists p',
    update_player INFINITE_MAP base_height_map p mouse_rel draw_distance
      dt world_scale pl = Some p'
    /\ height p' >=
       IZR (optimized_collision_check INFINITE_MAP (pos p') base_height_map)
         * world_scale + 40 * world_scale.
Proof.
  intros Hws. unfold update_player.
  destruct (Req_dec_T world_scale 0) as [H0|_]; [contradiction|].
  eexists; split; [reflexivity|].
  apply update_player_body_floor.
Qed.

End PlayerFacts.

(** C1, at the player of a flat map and an idle tick of 1/60 s. *)
Lemma update_player_collision_invariant_witness :
  exists p',
    update_player false flat4 (create_player false flat4) (0, 0)%Z 5000
      (1 / 60) 1 (idle_at 1000) = Some p'
    /\ height p' >=
       IZR (optimized_collision_check false (pos p') flat4) * 1 + 40 * 1.
Proof.
  apply (update_player_collision_invariant false flat4
           (create_player false flat4) (0, 0)%Z 5000 (1 / 60) 1 (idle_at 1000)).
  lra.
Defined.

(** ** The boundary step *)

(** Decide the next real comparison of a concrete run. *)
Ltac take_branch :=
  match goal with
  | |- context [Rlt_dec ?a ?b] =>
      destruct (Rlt_dec a b); simpl in *; [try (exfalso; lra)|try (exfalso; lra)]
  | |- context [Rge_dec ?a ?b] =>
      destruct (Rge_dec a b); simpl in *; [try (exfalso; lra)|try (exfalso; lra)]
  end.


Lemma input_vector_idle (k : Keys) :
  K_w k = false -> K_s k = false -> K_a k = false -> K_d k = false ->
  input_vector k false = (0, 0).
Proof.
  intros Hw Hs Ha Hd. unfold input_vector. rewrite Hw, Hs, Ha, Hd; simpl.
  destruct (Req_dec_T _ _); [reflexivity|].
  unfold Rdiv. now rewrite Rmult_0_l.
Qed.

(** The boundary step, as the code has it.  On a bounded map it leaves
    the position in the half-open box [0, W) x [0, H): a coordinate below
    0 becomes 0 and the matching velocity component becomes non-negative,
    a coordinate at or above the dimension becomes the dimension minus 1
    and the matching velocity component becomes non-positive, and a
    coordinate already inside [0, dimension) is kept. *)
Theorem clamp_position_box (hm : HeightMap) (p : Player) :
  let W := IZR (Z.pos (hm_shape0 hm)) in
  let H := IZR (Z.pos (hm_shape1 hm)) in
  let p' := clamp_position false hm p in
  (0 <= fst (pos p') < W /\ 0 <= snd (pos p') < H)
  /\ (fst (pos p) < 0 -> fst (pos p') = 0 /\ 0 <= fst (vel p'))
  /\ (fst (pos p) >= W -> fst (pos p') = W - 1 /\ fst (vel p') <= 0)
  /\ (snd (pos p) < 0 -> snd (pos p') = 0 /\ 0 <= snd (vel p'))
  /\ (snd (pos p) >= H -> snd (pos p') = H - 1 /\ snd (vel p') <= 0)
  /\ (0 <= fst (pos p) < W -> fst (pos p') = fst (pos p))
  /\ (0 <= snd (pos p) < H -> snd (pos p') = snd (pos p)).
Proof.
  intros W H p'. subst p'. unfold clamp_position. simpl negb. cbv iota.
  fold W; fold H.
  assert (HW : 1 <= W) by (apply IZR_le; lia).
  assert (HH : 1 <= H) by (apply IZR_le; lia).
  pose proof (Rmax_l 0 (fst (vel p))) as M0.
  pose proof (Rmin_l 0 (fst (vel p))) as m0.
  pose proof (Rmax_l 0 (snd (vel p))) as M1.
  pose proof (Rmin_l 0 (snd (vel p))) as m1.
  destruct (Rlt_dec (fst (pos p)) 0) as [Hx|Hx];
    [|destruct (Rge_dec (fst (pos p)) W) as [Hx'|Hx']]; simpl;
    (destruct (Rlt_dec (snd (pos p)) 0) as [Hy|Hy];
       [|destruct (Rge_dec (snd (pos p)) H) as [Hy'|Hy']]); simpl;
    repeat split; intros; try lra.
Qed.

(** [update_player] returns for every nonzero [world_scale]. *)
Lemma update_player_returns im hm (p : Player) mr dd dt ws pl :
  ws <> 0 -> exists p', update_player im hm p mr dd dt ws pl = Some p'.
Proof.
  intros Hws. unfold update_player.
  destruct (Req_dec_T ws 0); [contradiction|]. now eexists.
Qed.

(** The position [update_player] returns is the one the boundary step
    produced: later blocks do not move the player horizontally. *)
Lemma update_player_pos im hm (p p' : Player) mr dd dt ws pl :
  update_player im hm p mr dd dt ws pl = Some p' ->
  pos p' = pos (clamp_position im hm
                  (horizontal_move (mouse_look p mr dt) (keys pl)
                     (mouse_button0 pl) dt (1 / ws))).
Proof.
  unfold update_player. destruct (Req_dec_T ws 0); [discriminate|].
  intros H; inversion H; clear H. unfold update_player_body.
  set (q0 := clamp_position _ _ _).
  set (q1 := vertical_move q0 _ _ _).
  set (q2 := terrain_collision im hm q1 ws).
  set (q3 := pitch_update q2 _ _).
  set (q4 := flying_toggle q3 _ _ _).
  assert (E : pos q4 = pos q0).
  { unfold q4, q3, q2, q1.
    rewrite (proj1 (flying_toggle_frame _ _ _ _)).
    rewrite (proj1 (pitch_update_frame _ _ _)).
    rewrite (proj1 (terrain_collision_frame im hm _ _)).
    now rewrite (proj1 (vertical_move_frame _ _ _ _)). }
  rewrite <- E. unfold gravity_step.
  destruct (flying q4); simpl; [reflexivity|].
  destruct (Rlt_dec _ _); reflexivity.
Qed.

(** The box is half-open: a player half a cell inside the upper x edge
    of a 4 x 4 map (x = 3.5) is not moved by the boundary step, during an
    idle tick [update_player] returns it at x = 3.5, and 3.5 is above
    [W - 1 = 3]. *)
Lemma clamp_position_above_last_cell :
  fst (pos (clamp_position false flat4 near_edge)) = 3.5
  /\ (exists p',
        update_player false flat4 near_edge (0, 0)%Z 5000 (1 / 60) 1
          (idle_at 1000) = Some p'
        /\ fst (pos p') = 3.5)
  /\ ~ (0 <= 3.5 <= IZR (Z.pos (hm_shape0 flat4)) - 1).
Proof.
  split; [|split].
  - unfold clamp_position, near_edge; simpl.
    repeat take_branch. reflexivity.
  - destruct (update_player_returns false flat4 near_edge
                (0, 0)%Z 5000 (1 / 60) 1 (idle_at 1000)) as (p' & Hp');
      [lra|].
    exists p'. split; [exact Hp'|].
    rewrite (update_player_pos _ _ _ _ _ _ _ _ _ Hp').
    unfold horizontal_move. cbn [keys mouse_button0 idle_at].
    rewrite (input_vector_idle no_keys) by reflexivity.
    unfold clamp_position; simpl.
    set (r := Rpower DAMPING (1 / 60 * 60)).
    set (a := PI / 4 + 0 * 0.006 * (1 / 60) * 60).
    repeat take_branch. simpl. lra.
  - simpl. lra.
Qed.

(** The boundary step at a player carried to (-1, 5) with velocity
    (-2, 3) on a 4 x 4 map: it is put back at (0, 3) with velocity
    components 0 and 0. *)
Lemma clamp_position_box_witness :
  (fst (pos (clamp_position false flat4 outside)) = 0
   /\ 0 <= fst (vel (clamp_position false flat4 outside)))
  /\ (snd (pos (clamp_position false flat4 outside)) = 4 - 1
      /\ snd (vel (clamp_position false flat4 outside)) <= 0).
Proof.
  pose proof (clamp_position_box flat4 outside) as H. cbv zeta in H.
  destruct H as (_ & Hx & _ & _ & Hy & _).
  split; [apply Hx|apply Hy]; simpl; lra.
Defined.

(** C5, the velocity part, fails in the code.  The boundary step
    changes the entry of [vel] that has the index of the clamped axis,
    but [vel] is in the player's frame.  For a player clamped at the low
    x edge that faces into the first quadrant ([cos yaw > 0],
    [sin yaw >= 0]) and moves backwards ([vel[1] < 0]): the step puts it
    at x = 0 and makes [vel[0]] non-negative, yet the x component of its
    world velocity [move_dir] is still negative, and the next call
    without input carries it to x < 0 again before the clamp. *)
Theorem clamp_position_keeps_outward_motion (hm : HeightMap) (p : Player) :
  fst (pos p) < 0 ->
  0 <= snd (pos p) < IZR (Z.pos (hm_shape1 hm)) ->
  0 < cos (angle p) -> 0 <= sin (angle p) -> snd (vel p) < 0 ->
  let p' := clamp_position false hm p in
  fst (pos p') = 0
  /\ vel p' = (Rmax 0 (fst (vel p)), snd (vel p))
  /\ fst (move_dir p') < 0
  /\ forall dt scale_factor, 0 < dt -> 0 < scale_factor ->
       fst (pos (horizontal_move p' no_keys false dt scale_factor)) < 0.
Proof.
  intros Hx Hy Hcos Hsin Hv p'.
  assert (E : p' = set_vel (set_pos p (0, snd (pos p)))
                     (Rmax 0 (fst (vel p)), snd (vel p))).
  { unfold p', clamp_position. simpl negb. cbv iota zeta.
    destruct (Rlt_dec (fst (pos p)) 0) as [_|N]; [|contradiction].
    cbn [pos vel set_pos set_vel fst snd].
    destruct (Rlt_dec (snd (pos p)) 0) as [C|_]; [lra|].
    destruct (Rge_dec (snd (pos p)) (IZR (Z.pos (hm_shape1 hm)))) as [C|_];
      [lra|reflexivity]. }
  pose proof (Rmax_l 0 (fst (vel p))) as M0.
  assert (Hdir : cos (angle p) * snd (vel p)
                 - sin (angle p) * Rmax 0 (fst (vel p)) < 0) by nra.
  rewrite E. split; [reflexivity|]. split; [reflexivity|].
  split; [exact Hdir|].
  intros dt scale_factor Hdt Hsf.
  unfold horizontal_move. rewrite (input_vector_idle no_keys) by reflexivity.
  cbn [pos vel angle set_pos set_vel fst snd].
  assert (Hr : 0 < Rpower DAMPING (dt * 60)) by (unfold Rpower; apply exp_pos).
  set (r := Rpower DAMPING (dt * 60)) in *.
  set (v0 := Rmax 0 (fst (vel p))) in *.
  replace (0 + (cos (angle p)
                * ((snd (vel p) + 0 * ACCELERATION * dt * 60 * scale_factor) * r)
                - sin (angle p)
                  * ((v0 + 0 * ACCELERATION * dt * 60 * scale_factor) * r))
               * dt * 60 * scale_factor)
    with ((cos (angle p) * snd (vel p) - sin (angle p) * v0)
          * (r * dt * 60 * scale_factor)) by ring.
  assert (0 < r * dt * 60 * scale_factor).
  { repeat apply Rmult_lt_0_compat; lra. }
  nra.
Qed.

(** The player of [backed_out] on the 4 x 4 map: put back at x = 0 with
    [vel = (0, -1)], it still moves along -x. *)
Lemma clamp_position_keeps_outward_motion_witness :
  fst (pos (clamp_position false flat4 backed_out)) = 0
  /\ vel (clamp_position false flat4 backed_out)
     = (Rmax 0 (fst (vel backed_out)), snd (vel backed_out))
  /\ fst (move_dir (clamp_position false flat4 backed_out)) < 0.
Proof.
  assert (Hc : cos (angle backed_out) = 1) by (exact cos_0).
  assert (Hs : sin (angle backed_out) = 0) by (exact sin_0).
  destruct (clamp_position_keeps_outward_motion flat4 backed_out)
    as (H1 & H2 & H3 & _).
  - simpl. lra.
  - simpl. lra.
  - rewrite Hc. lra.
  - rewrite Hs. lra.
  - simpl. lra.
  - repeat split; assumption.
Defined.

(** ** Jumping and the flying toggle *)

Section JumpFacts.

Variable INFINITE_MAP : bool.
Variable base_height_map : HeightMap.

Lemma flying_toggle_same (p q : Player) k t sf :
  same_jump_state p q ->
  same_jump_state (flying_toggle p k t sf) (flying_toggle q k t sf).
Proof.
  unfold same_jump_state, flying_toggle.
  intros (E1 & E2 & E3 & E4 & E5 & E6 & E7). rewrite E1, E2, E3, E4.
  destruct (flying p) eqn:?, (K_SPACE k), (space_pressed_prev p) eqn:?,
    (t - last_space_press p <? 300)%Z, (is_on_ground p) eqn:?; simpl;
    repeat split; congruence.
Qed.

Lemma same_jump_state_trans (p q r : Player) :
  same_jump_state p q -> same_jump_state q r -> same_jump_state p r.
Proof.
  unfold same_jump_state.
  intros (A1 & A2 & A3 & A4 & A5 & A6 & A7) (B1 & B2 & B3 & B4 & B5 & B6 & B7).
  repeat split; congruence.
Qed.

(** The blocks ahead of the toggle leave the jump state alone. *)
Lemma before_toggle_same (p : Player) mr dt ws sf pl :
  same_jump_state p
    (pitch_update
       (terrain_collision INFINITE_MAP base_height_map
          (vertical_move
             (clamp_position INFINITE_MAP base_height_map
                (horizontal_move (mouse_look p mr dt) (keys pl)
                   (mouse_button0 pl) dt sf))
             (keys pl) dt sf) ws)
       (keys pl) dt).
Proof.
  assert (S1 : forall q, same_jump_state q (mouse_look q mr dt)).
  { intros q. pose proof (mouse_look_frame q mr dt) as H.
    cbv zeta in *. unfold same_jump_state. tauto. }
  assert (S2 : forall q, same_jump_state q
             (horizontal_move q (keys pl) (mouse_button0 pl) dt sf)).
  { intros q.
    pose proof (horizontal_move_frame q (keys pl) (mouse_button0 pl) dt sf).
    cbv zeta in *. unfold same_jump_state. tauto. }
  assert (S3 : forall q, same_jump_state q
             (clamp_position INFINITE_MAP base_height_map q)).
  { intros q.
    pose proof (clamp_position_frame INFINITE_MAP base_height_map q).
    cbv zeta in *. unfold same_jump_state. tauto. }
  assert (S4 : forall q, same_jump_state q (vertical_move q (keys pl) dt sf)).
  { intros q. pose proof (vertical_move_frame q (keys pl) dt sf).
    cbv zeta in *. unfold same_jump_state. tauto. }
  assert (S5 : forall q, same_jump_state q
             (terrain_collision INFINITE_MAP base_height_map q ws)).
  { intros q.
    pose proof (terrain_collision_frame INFINITE_MAP base_height_map q ws).
    cbv zeta in *. unfold same_jump_state. tauto. }
  assert (S6 : forall q, same_jump_state q (pitch_update q (keys pl) dt)).
  { intros q. pose proof (pitch_update_frame q (keys pl) dt).
    cbv zeta in *. unfold same_jump_state. tauto. }
  eapply same_jump_state_trans; [apply S1|].
  eapply same_jump_state_trans; [apply S2|].
  eapply same_jump_state_trans; [apply S3|].
  eapply same_jump_state_trans; [apply S4|].
  eapply same_jump_state_trans; [apply S5|].
  apply S6.
Qed.

(** Gravity does not touch the three fields of the toggle. *)
Lemma gravity_step_toggle_fields (p : Player) dt sf ws :
  let p' := gravity_step INFINITE_MAP base_height_map p dt sf ws in
  flying p' = flying p /\ last_space_press p' = last_space_press p
  /\ space_pressed_prev p' = space_pressed_prev p.
Proof.
  unfold gravity_step. destruct (flying p) eqn:E; simpl; auto.
  destruct (Rlt_dec _ _); simpl; auto.
Qed.

(** What [update_player] returns, seen from the toggle: the three fields
    of the toggle are those of [flying_toggle] run on the incoming
    player, and when the returned player is flying so are [velocity_y]
    and [is_on_ground]. *)
Lemma update_player_toggle (p : Player) mr dd dt ws pl :
  ws <> 0 ->
  exists p',
    update_player INFINITE_MAP base_height_map p mr dd dt ws pl = Some p'
    /\ let q := flying_toggle p (keys pl) (current_time pl) (1 / ws) in
       flying p' = flying q /\ last_space_press p' = last_space_press q
       /\ space_pressed_prev p' = space_pressed_prev q
       /\ (flying q = true ->
           velocity_y p' = velocity_y q /\ is_on_ground p' = is_on_ground q).
Proof.
  intros Hws. unfold update_player.
  destruct (Req_dec_T ws 0); [contradiction|].
  eexists; split; [reflexivity|]. cbv zeta. unfold update_player_body.
  pose proof (flying_toggle_same _ _ (keys pl) (current_time pl) (1 / ws)
                (before_toggle_same p mr dt ws (1 / ws) pl))
    as (E1 & E2 & E3 & E4 & E5 & _).
  set (r := flying_toggle (pitch_update _ _ _) _ _ _) in *.
  destruct (gravity_step_toggle_fields r dt (1 / ws) ws) as (-> & -> & ->).
  repeat split; try assumption.
  - rewrite gravity_step_flying; [assumption|congruence].
  - rewrite gravity_step_flying; [assumption|congruence].
Qed.

(** The branches of the toggle for a player that is not flying. *)
Lemma flying_toggle_cases (p : Player) (k : Keys) (t : Z) (sf : R) :
  flying p = false ->
  let q := flying_toggle p k t sf in
  (K_SPACE k = true -> space_pressed_prev p = false ->
   (t - last_space_press p < 300)%Z ->
   flying q = true /\ velocity_y q = 0 /\ is_on_ground q = is_on_ground p
   /\ last_space_press q = t /\ space_pressed_prev q = true)
  /\ (K_SPACE k = true -> space_pressed_prev p = false ->
      (300 <= t - last_space_press p)%Z -> is_on_ground p = true ->
      flying q = false /\ velocity_y q = jump_force p * sf
      /\ is_on_ground q = false
      /\ last_space_press q = t /\ space_pressed_prev q = true)
  /\ (K_SPACE k = false \/ space_pressed_prev p = true ->
      flying q = false /\ velocity_y q = velocity_y p
      /\ is_on_ground q = is_on_ground p
      /\ last_space_press q = last_space_press p
      /\ space_pressed_prev q = K_SPACE k).
Proof.
  intros Hf. unfold flying_toggle. rewrite Hf. simpl negb. cbv iota zeta.
  split; [|split].
  - intros -> -> Ht. apply Z.ltb_lt in Ht. rewrite Ht. simpl. auto.
  - intros -> -> Ht ->. apply Z.ltb_ge in Ht. rewrite Ht. simpl. auto.
  - intros [-> | ->]; simpl; [auto|].
    rewrite andb_false_r. simpl. auto.
Qed.

(** A single tap taken to the end of [update_player]: when the impulse
    outweighs one tick of gravity the player leaves the ground with
    [jump_force / world_scale] less that tick of gravity. *)
Lemma update_player_jump (p : Player) mr dd dt ws pl :
  ws <> 0 -> flying p = false ->
  K_SPACE (keys pl) = true -> space_pressed_prev p = false ->
  (300 <= current_time pl - last_space_press p)%Z ->
  is_on_ground p = true ->
  0 <= (jump_force p * (1 / ws) - gravity p * dt * 60) * dt * 60 * (1 / ws) ->
  exists p',
    update_player INFINITE_MAP base_height_map p mr dd dt ws pl = Some p'
    /\ velocity_y p' = jump_force p * (1 / ws) - gravity p * dt * 60
    /\ is_on_ground p' = false /\ flying p' = false
    /\ last_space_press p' = current_time pl
    /\ space_pressed_prev p' = true.
Proof.
  intros Hws Hf Hk Hprev Ht Hg Hrise. unfold update_player.
  destruct (Req_dec_T ws 0); [contradiction|].
  eexists; split; [reflexivity|]. unfold update_player_body.
  pose proof (before_toggle_same p mr dt ws (1 / ws) pl) as Hsame.
  set (q2 := terrain_collision _ _ _ ws) in *.
  set (q3 := pitch_update q2 _ _) in *.
  pose proof (flying_toggle_same _ _ (keys pl) (current_time pl) (1 / ws) Hsame)
    as (E1 & E2 & E3 & E4 & E5 & E6 & E7).
  destruct (flying_toggle_cases p (keys pl) (current_time pl) (1 / ws) Hf)
    as (_ & Hjump & _).
  destruct (Hjump Hk Hprev Ht Hg) as (F1 & F2 & F3 & F4 & F5).
  destruct (flying_toggle_frame q3 (keys pl) (current_time pl) (1 / ws))
    as (P1 & P2 & _).
  destruct (pitch_update_frame q2 (keys pl) dt) as (P3 & P4 & _).
  fold q3 in P3, P4.
  pose proof (terrain_collision_floor INFINITE_MAP base_height_map
                (vertical_move
                   (clamp_position INFINITE_MAP base_height_map
                      (horizontal_move (mouse_look p mr dt) (keys pl)
                         (mouse_button0 pl) dt (1 / ws)))
                   (keys pl) dt (1 / ws)) ws) as Hfloor.
  cbv zeta in Hfloor. fold q2 in Hfloor.
  set (r := flying_toggle q3 _ _ _) in *.
  assert (G : gravity r = gravity p).
  { unfold r, flying_toggle.
    destruct Hsame as (_ & _ & _ & _ & _ & _ & <-).
    destruct (flying q3), (K_SPACE (keys pl)), (space_pressed_prev q3),
      (current_time pl - last_space_press q3 <? 300)%Z, (is_on_ground q3);
      reflexivity. }
  unfold gravity_step. rewrite E1, F1. simpl negb. cbv iota zeta. simpl.
  rewrite E5, F2, G, P1, P2, P3, P4.
  destruct (Rlt_dec _ _) as [Hlt|Hge]; simpl.
  - exfalso. lra.
  - rewrite ?E1, ?F1, ?E2, ?E3, ?F4, ?F5. auto.
Qed.

(** C2, as the code has it.  For a player that is not flying and a call
    of [update_player] with nonzero [world_scale]:
    - on a jump-key down-edge less than 300 ms after the recorded
      previous press, the toggle block sets [flying] and zeroes
      [velocity_y]; it neither assigns the jump impulse nor clears
      [is_on_ground], and [update_player] returns with [flying] set and
      [velocity_y = 0];
    - on a down-edge at least 300 ms after the recorded previous press,
      when grounded, the toggle block sets
      [velocity_y = jump_force / world_scale] and clears [is_on_ground],
      whether or not another edge follows;
    - without a down-edge (key up, or key held since an earlier tick) the
      toggle block changes none of these fields, so the impulse of an
      edge is assigned once. *)
Theorem jump_edge_semantics (p : Player) (mouse_rel : Z * Z)
    (draw_distance : Z) (dt world_scale : R) (pl : Polled) :
  world_scale <> 0 -> flying p = false ->
  let k := keys pl in
  let t := current_time pl in
  let q := flying_toggle p k t (1 / world_scale) in
  (K_SPACE k = true -> space_pressed_prev p = false ->
   (t - last_space_press p < 300)%Z ->
   (flying q = true /\ velocity_y q = 0 /\ is_on_ground q = is_on_ground p
    /\ last_space_press q = t)
   /\ exists p',
        update_player INFINITE_MAP base_height_map p mouse_rel draw_distance
          dt world_scale pl = Some p'
        /\ flying p' = true /\ velocity_y p' = 0
        /\ is_on_ground p' = is_on_ground p /\ last_space_press p' = t)
  /\ (K_SPACE k = true -> space_pressed_prev p = false ->
      (300 <= t - last_space_press p)%Z -> is_on_ground p = true ->
      flying q = false /\ velocity_y q = jump_force p / world_scale
      /\ is_on_ground q = false /\ last_space_press q = t)
  /\ (K_SPACE k = false \/ space_pressed_prev p = true ->
      flying q = false /\ velocity_y q = velocity_y p
      /\ is_on_ground q = is_on_ground p
      /\ last_space_press q = last_space_press p).
Proof.
  intros Hws Hf k t q.
  destruct (flying_toggle_cases p k t (1 / world_scale) Hf) as (HA & HB & HC).
  fold q in HA, HB, HC.
  split; [|split].
  - intros Hk Hprev Ht.
    destruct (HA Hk Hprev Ht) as (A1 & A2 & A3 & A4 & A5).
    split; [auto|].
    destruct (update_player_toggle p mouse_rel draw_distance dt world_scale
                pl Hws) as (p' & Hp' & Hq).
    cbv zeta in Hq. fold k t q in Hq.
    destruct Hq as (Q1 & Q2 & Q3 & Q4).
    destruct (Q4 A1) as (Q5 & Q6).
    exists p'. repeat split; congruence.
  - intros Hk Hprev Ht Hg.
    destruct (HB Hk Hprev Ht Hg) as (B1 & B2 & B3 & B4 & B5).
    repeat split; try assumption.
    rewrite B2. unfold Rdiv. now rewrite Rmult_1_l.
  - intros Hno. destruct (HC Hno) as (C1 & C2 & C3 & C4 & C5). auto.
Qed.

End JumpFacts.

(** C2 as stated fails on the first edge of a double tap.  The player of
    [create_player], grounded and with recorded press time 0, presses the
    jump key at 1000 ms, releases it, and presses it again at 1100 ms.
    The first edge assigns the jump impulse and the player leaves the
    ground; the second edge, 100 ms later, switches flying on. *)
Lemma double_tap_first_edge_jumps :
  velocity_y (flying_toggle rested key_space 1000 (1 / 1))
    = jump_force rested * (1 / 1)
  /\ exists p1 p2 p3,
       update_player false flat4 rested (0, 0)%Z 5000 (1 / 60) 1
         (space_at 1000) = Some p1
       /\ update_player false flat4 p1 (0, 0)%Z 5000 (1 / 60) 1
            (idle_at 1050) = Some p2
       /\ update_player false flat4 p2 (0, 0)%Z 5000 (1 / 60) 1
            (space_at 1100) = Some p3
       /\ flying rested = false /\ is_on_ground rested = true
       /\ (1100 - 1000 < 300)%Z
       /\ velocity_y p1 = 12 * (1 / 1) - 0.9 * (1 / 60) * 60
       /\ is_on_ground p1 = false
       /\ flying p2 = false
       /\ flying p3 = true /\ velocity_y p3 = 0.
Proof.
  split; [reflexivity|].
  destruct (update_player_jump false flat4 rested (0, 0)%Z 5000 (1 / 60) 1
              (space_at 1000))
    as (p1 & H1 & V1 & G1 & F1 & L1 & S1);
    try reflexivity; try (simpl; lra); try (simpl; lia).
  destruct (update_player_toggle false flat4 p1 (0, 0)%Z 5000 (1 / 60) 1
              (idle_at 1050)) as (p2 & H2 & F2 & L2 & S2 & _); [lra|].
  destruct (flying_toggle_cases p1 (keys (idle_at 1050))
              (current_time (idle_at 1050)) (1 / 1) F1)
    as (_ & _ & Hidle).
  destruct Hidle as (I1 & _ & _ & I4 & I5); [left; reflexivity|].
  rewrite I1 in F2. rewrite I4, L1 in L2. rewrite I5 in S2. simpl in S2, L2.
  destruct (update_player_toggle false flat4 p2 (0, 0)%Z 5000 (1 / 60) 1
              (space_at 1100)) as (p3 & H3 & F3 & _ & _ & V3); [lra|].
  destruct (flying_toggle_cases p2 (keys (space_at 1100))
              (current_time (space_at 1100)) (1 / 1) F2)
    as (Hdouble & _ & _).
  destruct Hdouble as (D1 & D2 & _); [reflexivity|exact S2|rewrite L2; simpl; lia|].
  rewrite D1 in F3. destruct (V3 D1) as (V3' & _). rewrite D2 in V3'.
  exists p1, p2, p3. repeat split; try assumption; reflexivity.
Qed.

(** C2 at two concrete edges on a flat map: an edge at 1100 ms, 100 ms
    after the recorded press of [tapped], and an edge at 1000 ms for
    [rested], whose recorded press time is 0. *)
Lemma jump_edge_semantics_witness :
  (exists p',
     update_player false flat4 tapped (0, 0)%Z 5000 (1 / 60) 1
       (space_at 1100) = Some p'
     /\ flying p' = true /\ velocity_y p' = 0
     /\ is_on_ground p' = is_on_ground tapped
     /\ last_space_press p' = 1100%Z)
  /\ (velocity_y (flying_toggle rested key_space 1000 (1 / 1))
        = jump_force rested / 1
      /\ is_on_ground (flying_toggle rested key_space 1000 (1 / 1)) = false).
Proof.
  split.
  - destruct (jump_edge_semantics false flat4 tapped (0, 0)%Z 5000 (1 / 60) 1
                (space_at 1100)) as (H & _ & _);
      [lra|reflexivity|].
    destruct H as (_ & H); [reflexivity|reflexivity|simpl; lia|exact H].
  - destruct (jump_edge_semantics false flat4 rested (0, 0)%Z 5000 (1 / 60) 1
                (space_at 1000)) as (_ & H & _);
      [lra|reflexivity|].
    destruct H as (_ & H1 & H2 & _);
      [reflexivity|reflexivity|simpl; lia|reflexivity|].
    split; [exact H1|exact H2].
Defined.

(** ** The first press after start *)

Section FirstPress.

Variable INFINITE_MAP : bool.
Variable base_height_map : HeightMap.

(** As long as the jump key has never been down, the player is not
    flying, no press is recorded and the recorded time is still the 0 of
    [create_player]. *)
Lemma run_without_press (ticks : nat -> Tick) (n : nat) :
  (forall i, (i < n)%nat -> t_world_scale (ticks i) <> 0) ->
  (forall i, (i < n)%nat -> K_SPACE (keys (t_polled (ticks i))) = false) ->
  exists p,
    run INFINITE_MAP base_height_map ticks n
      (create_player INFINITE_MAP base_height_map) = Some p
    /\ flying p = false /\ last_space_press p = 0%Z
    /\ space_pressed_prev p = false.
Proof.
  induction n as [|n IH]; intros Hws Hkeys.
  - exists (create_player INFINITE_MAP base_height_map). simpl. auto.
  - destruct IH as (p & Hrun & Hf & Hl & Hs).
    { intros i Hi. apply Hws. lia. }
    { intros i Hi. apply Hkeys. lia. }
    destruct (update_player_toggle INFINITE_MAP base_height_map p
                (t_mouse_rel (ticks n)) (t_draw_distance (ticks n))
                (t_dt (ticks n)) (t_world_scale (ticks n))
                (t_polled (ticks n)))
      as (p' & Hp' & F & L & S & _); [apply Hws; lia|].
    destruct (flying_toggle_cases p (keys (t_polled (ticks n)))
                (current_time (t_polled (ticks n)))
                (1 / t_world_scale (ticks n)) Hf) as (_ & _ & Hidle).
    destruct Hidle as (I1 & _ & _ & I4 & I5); [left; apply Hkeys; lia|].
    exists p'. simpl. rewrite Hrun. unfold tick. split; [exact Hp'|].
    rewrite F, L, S, I1, I4, I5, Hl. repeat split. apply Hkeys. lia.
Qed.

(** C10.  Starting from [create_player], if the jump key is first down
    at tick [n] and the clock then reads less than 300 ms, the call of
    that tick returns a flying player with [velocity_y = 0] and the
    grounded flag it had before the call: the press is handled as the
    second tap of a double tap and no jump impulse is assigned, although
    no press came before it. *)
Theorem first_press_within_300ms_starts_flying (ticks : nat -> Tick) (n : nat) :
  (forall i, (i <= n)%nat -> t_world_scale (ticks i) <> 0) ->
  (forall i, (i < n)%nat -> K_SPACE (keys (t_polled (ticks i))) = false) ->
  K_SPACE (keys (t_polled (ticks n))) = true ->
  (current_time (t_polled (ticks n)) < 300)%Z ->
  last_space_press (create_player INFINITE_MAP base_height_map) = 0%Z
  /\ exists p p',
       run INFINITE_MAP base_height_map ticks n
         (create_player INFINITE_MAP base_height_map) = Some p
       /\ run INFINITE_MAP base_height_map ticks (S n)
            (create_player INFINITE_MAP base_height_map) = Some p'
       /\ flying p = false
       /\ flying p' = true /\ velocity_y p' = 0
       /\ is_on_ground p' = is_on_ground p.
Proof.
  intros Hws Hkeys Hdown Hearly. split; [reflexivity|].
  destruct (run_without_press ticks n) as (p & Hrun & Hf & Hl & Hs).
  { intros i Hi. apply Hws. lia. }
  { exact Hkeys. }
  destruct (update_player_toggle INFINITE_MAP base_height_map p
              (t_mouse_rel (ticks n)) (t_draw_distance (ticks n))
              (t_dt (ticks n)) (t_world_scale (ticks n))
              (t_polled (ticks n)))
    as (p' & Hp' & F & _ & _ & V); [apply Hws; lia|].
  destruct (flying_toggle_cases p (keys (t_polled (ticks n)))
              (current_time (t_polled (ticks n)))
              (1 / t_world_scale (ticks n)) Hf) as (Hdouble & _ & _).
  destruct Hdouble as (D1 & D2 & D3 & _);
    [exact Hdown|exact Hs|rewrite Hl; lia|].
  destruct (V D1) as (V1 & V2).
  exists p, p'. simpl. rewrite Hrun. unfold tick.
  repeat split; try assumption; congruence.
Qed.

End FirstPress.

(** C10 on a flat map: two idle ticks, then the jump key at 250 ms. *)
Lemma first_press_within_300ms_starts_flying_witness :
  last_space_press (create_player false flat4) = 0%Z
  /\ exists p p',
       run false flat4 first_press_ticks 2 (create_player false flat4) = Some p
       /\ run false flat4 first_press_ticks 3 (create_player false flat4)
          = Some p'
       /\ flying p = false
       /\ flying p' = true /\ velocity_y p' = 0
       /\ is_on_ground p' = is_on_ground p.
Proof.
  apply (first_press_within_300ms_starts_flying false flat4
           first_press_ticks 2).
  - intros i _. simpl. lra.
  - intros i Hi. destruct i as [|[|i]]; [reflexivity|reflexivity|lia].
  - reflexivity.
  - simpl. lia.
Defined.

(** ** Velocity decay *)

Lemma damping_ratio (dt : R) :
  0 < dt -> 0 < Rpower DAMPING (dt * 60) < 1.
Proof.
  intros Hdt. unfold Rpower. split; [apply exp_pos|].
  rewrite <- exp_0. apply exp_increasing.
  assert (Hln : ln DAMPING < 0).
  { rewrite <- ln_1. apply ln_increasing; unfold DAMPING; lra. }
  nra.
Qed.

Lemma norm_nonneg (v : Vec2) : 0 <= norm v.
Proof. apply sqrt_pos. Qed.

Lemma norm_scale (v : Vec2) (r : R) :
  0 <= r -> norm (fst v * r, snd v * r) = r * norm v.
Proof.
  intros Hr. unfold norm. simpl.
  replace (fst v * r * (fst v * r) + snd v * r * (snd v * r))
    with (r * r * (fst v * fst v + snd v * snd v)) by ring.
  rewrite sqrt_mult_alt by nra.
  now rewrite sqrt_square.
Qed.

Section Decay.

Variable INFINITE_MAP : bool.
Variable base_height_map : HeightMap.

Lemma clamp_position_inside (q : Player) :
  INFINITE_MAP = true
  \/ (0 <= fst (pos q) < IZR (Z.pos (hm_shape0 base_height_map))
      /\ 0 <= snd (pos q) < IZR (Z.pos (hm_shape1 base_height_map))) ->
  clamp_position INFINITE_MAP base_height_map q = q.
Proof.
  unfold clamp_position. intros [-> | (Hx & Hy)]; [reflexivity|].
  destruct INFINITE_MAP; [reflexivity|]. simpl negb. cbv iota zeta.
  destruct (Rlt_dec (fst (pos q)) 0); [lra|].
  destruct (Rge_dec (fst (pos q)) _); [lra|].
  destruct (Rlt_dec (snd (pos q)) 0); [lra|].
  destruct (Rge_dec (snd (pos q)) _); [lra|]. reflexivity.
Qed.

Lemma gravity_step_vel (p : Player) dt sf ws :
  vel (gravity_step INFINITE_MAP base_height_map p dt sf ws) = vel p.
Proof.
  unfold gravity_step. destruct (flying p); simpl; [reflexivity|].
  destruct (Rlt_dec _ _); reflexivity.
Qed.

(** One call with no movement input and nothing to clamp: both velocity
    components are multiplied by [DAMPING ** (dt * 60)], and the player
    is where the move took it. *)
Lemma tick_idle (p : Player) (t : Tick) :
  t_world_scale t <> 0 -> no_move_input (t_polled t) ->
  no_clamp INFINITE_MAP base_height_map p t ->
  exists p',
    tick INFINITE_MAP base_height_map p t = Some p'
    /\ vel p' = (fst (vel p) * Rpower DAMPING (t_dt t * 60),
                 snd (vel p) * Rpower DAMPING (t_dt t * 60))
    /\ pos p' = pos (after_move p t).
Proof.
  intros Hws (Hw & Hs & Ha & Hd & Hm) Hin.
  unfold tick, update_player.
  destruct (Req_dec_T (t_world_scale t) 0); [contradiction|].
  eexists; split; [reflexivity|]. unfold update_player_body.
  fold (after_move p t).
  rewrite (clamp_position_inside (after_move p t) Hin).
  rewrite gravity_step_vel.
  rewrite (proj2 (proj2 (flying_toggle_frame _ _ _ _))).
  rewrite (proj1 (proj2 (proj2 (pitch_update_frame _ _ _)))).
  rewrite (proj1 (proj2 (terrain_collision_frame INFINITE_MAP
                           base_height_map _ _))).
  rewrite (proj1 (proj2 (vertical_move_frame _ _ _ _))).
  split.
  - unfold after_move, horizontal_move. rewrite Hm.
    rewrite (input_vector_idle _ Hw Hs Ha Hd). simpl.
    f_equal; ring.
  - set (q := flying_toggle _ _ _ _).
    assert (E : pos q = pos (after_move p t)).
    { unfold q.
      rewrite (proj1 (flying_toggle_frame _ _ _ _)).
      rewrite (proj1 (pitch_update_frame _ _ _)).
      rewrite (proj1 (terrain_collision_frame INFINITE_MAP base_height_map _ _)).
      now rewrite (proj1 (vertical_move_frame _ _ _ _)). }
    rewrite <- E. unfold gravity_step.
    destruct (flying q); simpl; [reflexivity|].
    destruct (Rlt_dec _ _); reflexivity.
Qed.

Lemma run_idle_returns (ticks : nat -> Tick) (p0 : Player) :
  (forall i, t_world_scale (ticks i) <> 0
             /\ no_move_input (t_polled (ticks i))) ->
  (forall i p, run INFINITE_MAP base_height_map ticks i p0 = Some p ->
               no_clamp INFINITE_MAP base_height_map p (ticks i)) ->
  forall n, exists p, run INFINITE_MAP base_height_map ticks n p0 = Some p.
Proof.
  intros Hidle Hin. induction n as [|n (p & Hp)].
  - now exists p0.
  - destruct (Hidle n) as (Hws & Hkeys).
    destruct (tick_idle p (ticks n) Hws Hkeys (Hin n p Hp)) as (p' & Hp' & _).
    exists p'. simpl. now rewrite Hp.
Qed.

(** The decay in exact arithmetic, that is with the products of line
    191 not rounded.  Let the ticks have a fixed positive [dt], no
    movement input and a nonzero world scale, and let no tick find
    anything to clamp.  Then every call returns and multiplies both
    velocity components by [DAMPING ** (dt * 60)], a ratio strictly
    between 0 and 1; so the speed [|velocity|] after [n] ticks is the
    ratio to the power [n] times the initial speed, it is strictly
    smaller after each tick as long as it is not 0, and it tends to 0.
    The program rounds each product to binary64, and there the strict
    decrease and the limit fail: see the next section. *)
Theorem velocity_decay_exact (ticks : nat -> Tick) (p0 : Player) (dt : R) :
  0 < dt ->
  (forall i, t_dt (ticks i) = dt /\ t_world_scale (ticks i) <> 0
             /\ no_move_input (t_polled (ticks i))) ->
  (forall i p, run INFINITE_MAP base_height_map ticks i p0 = Some p ->
               no_clamp INFINITE_MAP base_height_map p (ticks i)) ->
  let r := Rpower DAMPING (dt * 60) in
  let v := fun n => vel (player_at INFINITE_MAP base_height_map ticks p0 n) in
  (forall n, exists p, run INFINITE_MAP base_height_map ticks n p0 = Some p)
  /\ (forall n, v (S n) = (fst (v n) * r, snd (v n) * r))
  /\ 0 < r < 1
  /\ (forall n, norm (v (S n)) = r * norm (v n))
  /\ (forall n, 0 < norm (v n) -> norm (v (S n)) < norm (v n))
  /\ (forall n, norm (v n) = r ^ n * norm (vel p0))
  /\ Un_cv (fun n => norm (v n)) 0.
Proof.
  intros Hdt Hticks Hin r v.
  assert (Hret : forall n, exists p,
             run INFINITE_MAP base_height_map ticks n p0 = Some p).
  { apply run_idle_returns; [|exact Hin].
    intros i. destruct (Hticks i) as (_ & H1 & H2). now split. }
  assert (Hr : 0 < r < 1) by (apply damping_ratio; exact Hdt).
  assert (Hstep : forall n, v (S n) = (fst (v n) * r, snd (v n) * r)).
  { intros n. destruct (Hret n) as (p & Hp).
    destruct (Hticks n) as (Edt & Hws & Hkeys).
    destruct (tick_idle p (ticks n) Hws Hkeys (Hin n p Hp))
      as (p' & Hp' & Hv & _).
    unfold v, player_at. simpl run. rewrite Hp, Hp', Hv, Edt. reflexivity. }
  assert (Hnorm : forall n, norm (v (S n)) = r * norm (v n)).
  { intros n. rewrite Hstep. apply norm_scale. lra. }
  assert (Hpow : forall n, norm (v n) = r ^ n * norm (vel p0)).
  { induction n as [|n IH].
    - unfold v, player_at. simpl. lra.
    - rewrite Hnorm, IH. simpl. ring. }
  repeat split; try assumption; try apply Hr.
  - intros n Hpos. rewrite Hnorm. nra.
  - intros eps Heps.
    pose proof (norm_nonneg (vel p0)) as Hc.
    destruct (pow_lt_1_zero r) with (y := eps / (norm (vel p0) + 1))
      as (N & HN).
    { rewrite Rabs_pos_eq; lra. }
    { apply Rdiv_lt_0_compat; lra. }
    exists N. intros n Hn. specialize (HN n Hn).
    unfold Rdist. rewrite Rminus_0_r, Hpow.
    rewrite Rabs_mult, (Rabs_pos_eq (norm (vel p0))) by exact Hc.
    apply Rle_lt_trans with (Rabs (r ^ n) * (norm (vel p0) + 1)).
    + pose proof (Rabs_pos (r ^ n)). nra.
    + apply Rmult_lt_reg_r with (/ (norm (vel p0) + 1)).
      * apply Rinv_0_lt_compat. lra.
      * rewrite Rmult_assoc, Rinv_r by lra. rewrite Rmult_1_r. exact HN.
Qed.

End Decay.

(** With no movement input a tick moves the player, on each axis, by at
    most the damped speed of both components times the step length. *)
Lemma after_move_idle (p : Player) (t : Tick) :
  no_move_input (t_polled t) ->
  let r := Rpower DAMPING (t_dt t * 60) in
  let step := Rabs (t_dt t * 60 * (1 / t_world_scale t)) in
  let speed := Rabs (fst (vel p)) + Rabs (snd (vel p)) in
  Rabs (fst (pos (after_move p t)) - fst (pos p)) <= speed * r * step
  /\ Rabs (snd (pos (after_move p t)) - snd (pos p)) <= speed * r * step.
Proof.
  intros (Hw & Hs & Ha & Hd & Hm) r step speed.
  assert (Hr : 0 < r) by apply exp_pos.
  unfold after_move, horizontal_move. rewrite Hm.
  rewrite (input_vector_idle _ Hw Hs Ha Hd). simpl.
  fold r.
  set (a := angle p + IZR (fst (t_mouse_rel t)) * angle_vel p * t_dt t * 60).
  assert (Hc : Rabs (cos a) <= 1) by (apply Rabs_le, COS_bound).
  assert (Hs' : Rabs (sin a) <= 1) by (apply Rabs_le, SIN_bound).
  pose proof (Rabs_pos (fst (vel p))) as P0.
  pose proof (Rabs_pos (snd (vel p))) as P1.
  pose proof (Rabs_pos (t_dt t * 60 * (1 / t_world_scale t))) as P2.
  pose proof (Rabs_pos (cos a)) as P3.
  pose proof (Rabs_pos (sin a)) as P4.
  assert (B : forall c s u w : R, Rabs c <= 1 -> Rabs s <= 1 ->
            Rabs ((c * (u * r) + s * (w * r)) * t_dt t * 60
                  * (1 / t_world_scale t))
            <= (Rabs w + Rabs u) * r * step).
  { intros c s u w Bc Bs.
    replace ((c * (u * r) + s * (w * r)) * t_dt t * 60 * (1 / t_world_scale t))
      with ((c * u + s * w) * r * (t_dt t * 60 * (1 / t_world_scale t)))
      by ring.
    rewrite (Rabs_mult _ (t_dt t * 60 * (1 / t_world_scale t))).
    rewrite (Rabs_mult _ r). fold step. rewrite (Rabs_pos_eq r) by lra.
    apply Rmult_le_compat_r; [exact P2|].
    apply Rmult_le_compat_r; [lra|].
    eapply Rle_trans; [apply Rabs_triang|]. rewrite !Rabs_mult.
    pose proof (Rabs_pos c). pose proof (Rabs_pos s).
    pose proof (Rabs_pos u). pose proof (Rabs_pos w). nra. }
  split.
  - replace (fst (pos p)
             + (cos a * ((snd (vel p) + 0 * ACCELERATION * t_dt t * 60
                          * (1 / t_world_scale t)) * r)
                - sin a * ((fst (vel p) + 0 * ACCELERATION * t_dt t * 60
                            * (1 / t_world_scale t)) * r))
               * t_dt t * 60 * (1 / t_world_scale t) - fst (pos p))
      with ((cos a * (snd (vel p) * r) + (- sin a) * (fst (vel p) * r))
            * t_dt t * 60 * (1 / t_world_scale t)) by ring.
    apply B; [exact Hc|now rewrite Rabs_Ropp].
  - replace (snd (pos p)
             + (sin a * ((snd (vel p) + 0 * ACCELERATION * t_dt t * 60
                          * (1 / t_world_scale t)) * r)
                + cos a * ((fst (vel p) + 0 * ACCELERATION * t_dt t * 60
                            * (1 / t_world_scale t)) * r))
               * t_dt t * 60 * (1 / t_world_scale t) - snd (pos p))
      with ((sin a * (snd (vel p) * r) + cos a * (fst (vel p) * r))
            * t_dt t * 60 * (1 / t_world_scale t)) by ring.
    apply B; [exact Hs'|exact Hc].
Qed.

Lemma Rabs_le_both (a b : R) : Rabs a <= b -> - b <= a <= b.
Proof. unfold Rabs. destruct (Rcase_abs a); lra. Qed.

(** The gliding player of [coasting] never comes near an edge of the
    100 x 100 map: its speed is at most [0.8 ^ n] after [n] idle ticks,
    so it stays within 4 cells of the centre. *)
Lemma coasting_bounds (n : nat) (p : Player) :
  run false flat100 idle_ticks n coasting = Some p ->
  (Rabs (fst (vel p)) + Rabs (snd (vel p)) <= 0.8 ^ n
   /\ Rabs (fst (pos p) - 50) <= 4 - 4 * 0.8 ^ n
   /\ Rabs (snd (pos p) - 50) <= 4 - 4 * 0.8 ^ n)
  /\ no_clamp false flat100 p (idle_ticks n).
Proof.
  assert (Hr : Rpower DAMPING (1 / 60 * 60) = 0.8).
  { replace (1 / 60 * 60) with 1 by lra. apply Rpower_1. unfold DAMPING. lra. }
  assert (Hstep : Rabs (1 / 60 * 60 * (1 / 1)) = 1).
  { replace (1 / 60 * 60 * (1 / 1)) with 1 by lra. apply Rabs_R1. }
  assert (Hidle : forall i, no_move_input (t_polled (idle_ticks i))).
  { intros i. repeat split. }
  assert (Hclamp : forall i q,
            Rabs (fst (vel q)) + Rabs (snd (vel q)) <= 0.8 ^ i ->
            Rabs (fst (pos q) - 50) <= 4 - 4 * 0.8 ^ i ->
            Rabs (snd (pos q) - 50) <= 4 - 4 * 0.8 ^ i ->
            Rabs (fst (pos (after_move q (idle_ticks i))) - 50)
              <= 4 - 4 * 0.8 ^ S i
            /\ Rabs (snd (pos (after_move q (idle_ticks i))) - 50)
              <= 4 - 4 * 0.8 ^ S i).
  { intros i q Hv Hx Hy.
    destruct (after_move_idle q (idle_ticks i) (Hidle i)) as (Dx & Dy).
    cbn [t_dt t_world_scale idle_ticks] in Dx, Dy.
    rewrite Hr, Hstep in Dx, Dy.
    assert (Hpow : 0 < 0.8 ^ i) by (apply pow_lt; lra).
    split.
    - replace (fst (pos (after_move q (idle_ticks i))) - 50)
        with ((fst (pos (after_move q (idle_ticks i))) - fst (pos q))
              + (fst (pos q) - 50)) by ring.
      eapply Rle_trans; [apply Rabs_triang|]. simpl pow. nra.
    - replace (snd (pos (after_move q (idle_ticks i))) - 50)
        with ((snd (pos (after_move q (idle_ticks i))) - snd (pos q))
              + (snd (pos q) - 50)) by ring.
      eapply Rle_trans; [apply Rabs_triang|]. simpl pow. nra. }
  assert (Hinside : forall i q,
            Rabs (fst (pos (after_move q (idle_ticks i))) - 50)
              <= 4 - 4 * 0.8 ^ S i ->
            Rabs (snd (pos (after_move q (idle_ticks i))) - 50)
              <= 4 - 4 * 0.8 ^ S i ->
            no_clamp false flat100 q (idle_ticks i)).
  { intros i q Hx Hy. right.
    assert (Hpow : 0 < 0.8 ^ S i) by (apply pow_lt; lra).
    change (IZR (Z.pos (hm_shape0 flat100))) with 100.
    change (IZR (Z.pos (hm_shape1 flat100))) with 100.
    apply Rabs_le_both in Hx, Hy. lra. }
  revert p. induction n as [|n IH]; intros p Hrun.
  - simpl in Hrun. inversion Hrun; subst p; clear Hrun.
    assert (B : Rabs (fst (vel coasting)) + Rabs (snd (vel coasting)) <= 0.8 ^ 0
                /\ Rabs (fst (pos coasting) - 50) <= 4 - 4 * 0.8 ^ 0
                /\ Rabs (snd (pos coasting) - 50) <= 4 - 4 * 0.8 ^ 0).
    { assert (E0 : fst (vel coasting) = 0) by reflexivity.
      assert (E1 : snd (vel coasting) = 1) by reflexivity.
      assert (E2 : fst (pos coasting) = 50) by reflexivity.
      assert (E3 : snd (pos coasting) = 50) by reflexivity.
      rewrite E0, E1, E2, E3.
      replace (50 - 50) with 0 by ring. rewrite Rabs_R0, Rabs_R1.
      simpl pow. lra. }
    split; [exact B|].
    destruct B as (Bv & Bx & By).
    destruct (Hclamp 0%nat coasting Bv Bx By). now apply Hinside.
  - simpl in Hrun.
    destruct (run false flat100 idle_ticks n coasting) as [q|] eqn:Hq;
      [|discriminate].
    destruct (IH q eq_refl) as ((Bv & Bx & By) & Hno).
    destruct (tick_idle false flat100 q (idle_ticks n)) as (p' & Hp' & Hv & Hp);
      [simpl; lra|apply Hidle|exact Hno|].
    rewrite Hp' in Hrun. inversion Hrun; subst p'; clear Hrun.
    destruct (Hclamp n q Bv Bx By) as (Cx & Cy).
    assert (B : Rabs (fst (vel p)) + Rabs (snd (vel p)) <= 0.8 ^ S n
                /\ Rabs (fst (pos p) - 50) <= 4 - 4 * 0.8 ^ S n
                /\ Rabs (snd (pos p) - 50) <= 4 - 4 * 0.8 ^ S n).
    { rewrite Hv, Hp. cbn [t_dt idle_ticks fst snd]. rewrite Hr.
      rewrite !Rabs_mult, (Rabs_pos_eq 0.8) by lra.
      repeat split; [simpl pow; lra|exact Cx|exact Cy]. }
    split; [exact B|].
    destruct B as (Bv' & Bx' & By').
    destruct (Hclamp (S n) p Bv' Bx' By'). now apply Hinside.
Qed.

(** The exact decay on the bounded 100 x 100 map: the gliding player of
    [coasting], idle ticks of 1/60 s. *)
Lemma velocity_decay_exact_witness :
  let v := fun n => vel (player_at false flat100 idle_ticks coasting n) in
  (forall n, v (S n) = (fst (v n) * Rpower DAMPING (1 / 60 * 60),
                        snd (v n) * Rpower DAMPING (1 / 60 * 60)))
  /\ (forall n, 0 < norm (v n) -> norm (v (S n)) < norm (v n))
  /\ Un_cv (fun n => norm (v n)) 0.
Proof.
  destruct (velocity_decay_exact false flat100 idle_ticks coasting (1 / 60))
    as (_ & Hstep & _ & _ & Hdec & _ & Hcv).
  - lra.
  - intros i. simpl. repeat split. lra.
  - intros i p Hrun. exact (proj2 (coasting_bounds i p Hrun)).
  - repeat split; assumption.
Defined.

(** ** Velocity decay in binary64 *)

(** [SFmul] rounds the exact product [m * 2^e] of two finite floats with
    [binary_round_aux]: the mantissa is shifted right to the exponent
    the format gives a number of that size ([shr], which keeps a round
    and a sticky bit), rounded to nearest, ties to even, on the bits
    shifted out, and shifted once more if the rounding carried into a
    54th bit.  The lemmas follow these steps. *)

Section Binary64.

Local Open Scope Z_scope.

Lemma iter_pos_nat {A : Type} (f : A -> A) (p : positive) (x : A) :
  iter_pos f p x = Nat.iter (Pos.to_nat p) f x.
Proof.
  revert x. induction p as [p IH|p IH|]; intros x; cbn [iter_pos].
  - rewrite !IH. rewrite Pos2Nat.inj_xI.
    replace (S (2 * Pos.to_nat p))%nat with (Pos.to_nat p + S (Pos.to_nat p))%nat
      by lia.
    rewrite Nat.iter_add, Nat.iter_succ_r. reflexivity.
  - rewrite !IH. rewrite Pos2Nat.inj_xO.
    replace (2 * Pos.to_nat p)%nat with (Pos.to_nat p + Pos.to_nat p)%nat by lia.
    now rewrite Nat.iter_add.
  - reflexivity.
Qed.

Lemma shr_1_m (mrs : shr_record) :
  0 <= shr_m mrs ->
  shr_m (shr_1 mrs) = shr_m mrs / 2
  /\ shr_r (shr_1 mrs) = Z.odd (shr_m mrs)
  /\ shr_s (shr_1 mrs) = shr_r mrs || shr_s mrs.
Proof.
  destruct mrs as [m r s]. simpl. intros Hm.
  destruct m as [|[p|p|]|p]; simpl; try lia; repeat split; try reflexivity.
  - rewrite Pos2Z.inj_xI. apply Z.div_unique with (r := 1); lia.
  - rewrite Pos2Z.inj_xO. apply Z.div_unique with (r := 0); lia.
Qed.

Lemma shr_iter (M : Z) (j : nat) :
  0 <= M ->
  shr_m (Nat.iter (S j) shr_1 {| shr_m := M; shr_r := false; shr_s := false |})
  = M / 2 ^ Z.of_nat (S j)
  /\ shr_r (Nat.iter (S j) shr_1
              {| shr_m := M; shr_r := false; shr_s := false |})
     = Z.odd (M / 2 ^ Z.of_nat j)
  /\ shr_s (Nat.iter (S j) shr_1
              {| shr_m := M; shr_r := false; shr_s := false |})
     = negb (M mod 2 ^ Z.of_nat j =? 0).
Proof.
  intros HM. induction j as [|j IH].
  - cbn [Nat.iter nat_rect].
    destruct (shr_1_m {| shr_m := M; shr_r := false; shr_s := false |} HM)
      as (E1 & E2 & E3). cbn [shr_m shr_r shr_s] in *.
    rewrite E1, E2, E3. change (2 ^ Z.of_nat 1) with 2. change (2 ^ Z.of_nat 0) with 1.
    rewrite Z.div_1_r, Z.mod_1_r. auto.
  - destruct IH as (I1 & I2 & I3).
    set (prev := Nat.iter (S j) shr_1 _) in *.
    change (Nat.iter (S (S j)) shr_1
              {| shr_m := M; shr_r := false; shr_s := false |})
      with (shr_1 prev).
    assert (P : 0 < 2 ^ Z.of_nat j) by (apply Z.pow_pos_nonneg; lia).
    assert (E : 2 ^ Z.of_nat (S j) = 2 ^ Z.of_nat j * 2).
    { rewrite Nat2Z.inj_succ, Z.pow_succ_r by lia. lia. }
    assert (E' : 2 ^ Z.of_nat (S (S j)) = 2 ^ Z.of_nat (S j) * 2).
    { rewrite (Nat2Z.inj_succ (S j)), Z.pow_succ_r by lia. lia. }
    assert (Hp : 0 <= shr_m prev).
    { rewrite I1. apply Z.div_pos; lia. }
    destruct (shr_1_m prev Hp) as (E1 & E2 & E3).
    rewrite E1, E2, E3, I1, I2, I3.
    split; [|split].
    + rewrite E'. rewrite Z.div_div by lia. reflexivity.
    + reflexivity.
    + rewrite E. rewrite Z.rem_mul_r by lia.
      pose proof (Z.mod_pos_bound M (2 ^ Z.of_nat j) P) as B.
      rewrite Zodd_mod.
      pose proof (Z.mod_pos_bound (M / 2 ^ Z.of_nat j) 2 ltac:(lia)) as B2.
      destruct (Z.eqb_spec (M mod 2 ^ Z.of_nat j) 0) as [Hzero|NZ];
        destruct (Z.eqb_spec ((M / 2 ^ Z.of_nat j) mod 2) 1) as [O1|O1]; simpl;
        symmetry.
      * apply negb_true_iff, Z.eqb_neq. nia.
      * apply negb_false_iff, Z.eqb_eq. nia.
      * apply negb_true_iff, Z.eqb_neq. nia.
      * apply negb_true_iff, Z.eqb_neq. nia.
Qed.

Lemma shr_spec (M e n : Z) :
  0 <= M ->
  snd (shr {| shr_m := M; shr_r := false; shr_s := false |} e n) = e + Z.max n 0
  /\ shr_m (fst (shr {| shr_m := M; shr_r := false; shr_s := false |} e n))
     = M / 2 ^ Z.max n 0
  /\ (0 < n ->
      shr_r (fst (shr {| shr_m := M; shr_r := false; shr_s := false |} e n))
      = Z.odd (M / 2 ^ (n - 1))
      /\ shr_s (fst (shr {| shr_m := M; shr_r := false; shr_s := false |} e n))
         = negb (M mod 2 ^ (n - 1) =? 0))
  /\ (n <= 0 ->
      fst (shr {| shr_m := M; shr_r := false; shr_s := false |} e n)
      = {| shr_m := M; shr_r := false; shr_s := false |}).
Proof.
  intros HM. destruct n as [|p|p]; cbn [shr fst snd].
  - rewrite Z.div_1_r. repeat split; try lia; try reflexivity.
  - destruct (Pos2Nat.is_succ p) as (j & Hj).
    rewrite iter_pos_nat, Hj.
    destruct (shr_iter M j HM) as (E1 & E2 & E3).
    assert (Ep : Z.pos p = Z.of_nat (S j)) by lia.
    assert (Ej : Z.pos p - 1 = Z.of_nat j) by lia.
    rewrite Z.max_l by lia. rewrite Ej.
    split; [reflexivity|]. split; [rewrite Ep; exact E1|].
    split; [intros _; split; assumption|lia].
  - rewrite Z.max_r by lia. cbn [shr_m]. rewrite Z.add_0_r.
    change (2 ^ 0) with 1. rewrite Z.div_1_r. repeat split; try lia.
Qed.

Lemma round_nearest_even_bounds (m : Z) (l : location) :
  m <= round_nearest_even m l <= m + 1.
Proof.
  destruct l as [|[| |]]; simpl; try destruct (Z.even m); lia.
Qed.

Lemma round_after_shr (M e n K : Z) :
  0 <= M -> M <= K * 2 ^ Z.max n 0 ->
  0 <= round_nearest_even
         (shr_m (fst (shr {| shr_m := M; shr_r := false; shr_s := false |} e n)))
         (loc_of_shr_record
            (fst (shr {| shr_m := M; shr_r := false; shr_s := false |} e n)))
    <= K.
Proof.
  intros HM HK.
  destruct (shr_spec M e n HM) as (_ & Em & Ers & Eid).
  set (mrs := fst (shr _ e n)) in *.
  destruct (Z_lt_le_dec 0 n) as [Hn|Hn].
  - destruct (Ers Hn) as (Er & Es). rewrite Z.max_l in * by lia.
    assert (P : 0 < 2 ^ n) by (apply Z.pow_pos_nonneg; lia).
    assert (P1 : 0 < 2 ^ (n - 1)) by (apply Z.pow_pos_nonneg; lia).
    assert (E2 : 2 ^ n = 2 ^ (n - 1) * 2).
    { replace n with (Z.succ (n - 1)) at 1 by lia.
      rewrite Z.pow_succ_r by lia. lia. }
    pose proof (round_nearest_even_bounds (shr_m mrs) (loc_of_shr_record mrs)) as B.
    assert (H0 : 0 <= shr_m mrs) by (rewrite Em; apply Z.div_pos; lia).
    split; [lia|].
    destruct (Z.eq_dec (M mod 2 ^ n) 0) as [Hex|Hin].
    + assert (Hq : M = 2 ^ n * (M / 2 ^ n)).
      { pose proof (Z.div_mod M (2 ^ n) ltac:(lia)). lia. }
      assert (Hr : shr_r mrs = false).
      { rewrite Er. rewrite Hq, E2.
        replace (2 ^ (n - 1) * 2 * (M / (2 ^ (n - 1) * 2)))
          with (2 * (M / (2 ^ (n - 1) * 2)) * 2 ^ (n - 1)) by ring.
        rewrite Z.div_mul by lia. rewrite Z.odd_mul. reflexivity. }
      assert (Hs : shr_s mrs = false).
      { rewrite Es. apply negb_false_iff, Z.eqb_eq.
        rewrite Hq, E2.
        replace (2 ^ (n - 1) * 2 * (M / (2 ^ (n - 1) * 2)))
          with (2 * (M / (2 ^ (n - 1) * 2)) * 2 ^ (n - 1)) by ring.
        apply Z.mod_mul. lia. }
      destruct mrs as [m r s]. cbn [shr_m shr_r shr_s] in *. subst r s.
      cbn [loc_of_shr_record]. rewrite Hr, Hs. cbn [round_nearest_even].
      rewrite Em. apply (Z.mul_le_mono_pos_l _ _ (2 ^ n)); lia.
    + assert (M < K * 2 ^ n).
      { destruct (Z.eq_dec M (K * 2 ^ n)) as [E|E]; [|lia].
        exfalso. apply Hin. rewrite E. apply Z.mod_mul. lia. }
      assert (M / 2 ^ n < K) by (apply Z.div_lt_upper_bound; lia).
      lia.
  - rewrite (Eid Hn). cbn [shr_m loc_of_shr_record round_nearest_even].
    rewrite Z.max_r in HK by lia. change (2 ^ 0) with 1 in HK. lia.
Qed.

Lemma digits2_pos_bounds (m : positive) :
  2 ^ (Z.pos (digits2_pos m) - 1) <= Z.pos m < 2 ^ Z.pos (digits2_pos m).
Proof.
  induction m as [m IH|m IH|]; cbn [digits2_pos].
  - rewrite Pos2Z.inj_succ, (Pos2Z.inj_xI m).
    replace (Z.succ (Z.pos (digits2_pos m)) - 1) with (Z.pos (digits2_pos m))
      by lia.
    rewrite Z.pow_succ_r by lia.
    assert (E : 2 ^ Z.pos (digits2_pos m) = 2 * 2 ^ (Z.pos (digits2_pos m) - 1)).
    { rewrite <- Z.pow_succ_r by lia. f_equal. lia. }
    lia.
  - rewrite Pos2Z.inj_succ, (Pos2Z.inj_xO m).
    replace (Z.succ (Z.pos (digits2_pos m)) - 1) with (Z.pos (digits2_pos m))
      by lia.
    rewrite Z.pow_succ_r by lia.
    assert (E : 2 ^ Z.pos (digits2_pos m) = 2 * 2 ^ (Z.pos (digits2_pos m) - 1)).
    { rewrite <- Z.pow_succ_r by lia. f_equal. lia. }
    lia.
  - simpl. lia.
Qed.

Lemma digits2_pos_le (a b : positive) (k : Z) :
  0 <= k -> Z.pos a <= Z.pos b * 2 ^ k ->
  Z.pos (digits2_pos a) <= Z.pos (digits2_pos b) + k.
Proof.
  intros Hk Hab.
  pose proof (digits2_pos_bounds a) as (Ha & _).
  pose proof (digits2_pos_bounds b) as (_ & Hb).
  assert (P : 0 < 2 ^ k) by (apply Z.pow_pos_nonneg; lia).
  assert (H : 2 ^ (Z.pos (digits2_pos a) - 1) < 2 ^ (Z.pos (digits2_pos b) + k)).
  { rewrite Z.pow_add_r by lia. nia. }
  apply Z.pow_lt_mono_r_iff in H; lia.
Qed.

Lemma binary_round_aux_le (s : bool) (m mx : positive) (e ex : Z) :
  bounded 53 1024 mx ex = true -> e <= ex ->
  Z.pos m <= Z.pos mx * 2 ^ (ex - e) ->
  binary_round_aux 53 1024 s (Z.pos m) e loc_Exact = S754_zero s
  \/ exists mf ef,
       binary_round_aux 53 1024 s (Z.pos m) e loc_Exact = S754_finite s mf ef
       /\ ef <= ex /\ Z.pos mf <= Z.pos mx * 2 ^ (ex - ef).
Proof.
  intros Hb He Hm.
  apply andb_true_iff in Hb. destruct Hb as (Hc & Hmax).
  apply Z.eqb_eq in Hc. apply Z.leb_le in Hmax.
  change (fexp 53 1024 (Z.pos (digits2_pos mx) + ex))
    with (Z.max (Z.pos (digits2_pos mx) + ex - 53) (-1074)) in Hc.
  change (1024 - 53) with 971 in Hmax.
  unfold binary_round_aux, shr_fexp. cbn [shr_record_of_loc Zdigits2].
  change (fexp 53 1024 (Z.pos (digits2_pos m) + e))
    with (Z.max (Z.pos (digits2_pos m) + e - 53) (-1074)).
  set (n1 := Z.max (Z.pos (digits2_pos m) + e - 53) (-1074) - e).
  pose proof (digits2_pos_le m mx (ex - e) ltac:(lia) Hm) as Hd.
  assert (Hn1 : e + Z.max n1 0 <= ex) by lia.
  destruct (shr_spec (Z.pos m) e n1 ltac:(lia)) as (Ee1 & _).
  assert (HK : Z.pos m <= (Z.pos mx * 2 ^ (ex - (e + Z.max n1 0))) * 2 ^ Z.max n1 0).
  { rewrite <- Z.mul_assoc, <- Z.pow_add_r by lia.
    replace (ex - (e + Z.max n1 0) + Z.max n1 0) with (ex - e) by lia. exact Hm. }
  pose proof (round_after_shr (Z.pos m) e n1 _ ltac:(lia) HK) as Hr.
  destruct (shr {| shr_m := Z.pos m; shr_r := false; shr_s := false |} e n1)
    as [mrs' e1] eqn:E1. cbn [fst snd] in Ee1, Hr.
  set (m1 := round_nearest_even (shr_m mrs') (loc_of_shr_record mrs')) in *.
  subst e1.
  set (e1 := e + Z.max n1 0) in *.
  change (fexp 53 1024 (Zdigits2 m1 + e1))
    with (Z.max (Zdigits2 m1 + e1 - 53) (-1074)).
  set (n2 := Z.max (Zdigits2 m1 + e1 - 53) (-1074) - e1).
  destruct (shr_spec m1 e1 n2 ltac:(lia)) as (Ee2 & Em2 & _).
  destruct (shr {| shr_m := m1; shr_r := false; shr_s := false |} e1 n2)
    as [mrs'' e2] eqn:E2. cbn [fst snd] in Ee2, Em2.
  assert (P2 : 0 < 2 ^ Z.max n2 0) by (apply Z.pow_pos_nonneg; lia).
  assert (H0 : 0 <= shr_m mrs'') by (rewrite Em2; apply Z.div_pos; lia).
  destruct (shr_m mrs'') as [|mf|mf] eqn:Emf; [now left| |lia].
  right.
  assert (Hm1 : 0 < m1).
  { destruct (Z.eq_dec m1 0) as [Hzero|]; [|lia].
    rewrite Hzero in Em2. rewrite Z.div_0_l in Em2 by lia. discriminate. }
  destruct m1 as [|p1|p1] eqn:Ep1; try lia.
  cbn [Zdigits2] in n2.
  pose proof (digits2_pos_le p1 mx (ex - e1) ltac:(lia) ltac:(lia)) as Hd1.
  assert (He2 : e2 <= ex) by (unfold n2 in *; lia).
  assert (Hle : (e2 <=? 1024 - 53) = true) by (apply Z.leb_le; lia).
  rewrite Hle. exists mf, e2. split; [reflexivity|]. split; [exact He2|].
  rewrite Em2.
  assert (Z.pos mx * 2 ^ (ex - e1) = Z.pos mx * 2 ^ (ex - e2) * 2 ^ Z.max n2 0).
  { rewrite <- Z.mul_assoc, <- Z.pow_add_r by lia. do 2 f_equal. lia. }
  apply Z.div_le_upper_bound; [lia|]. lia.
Qed.

Lemma powerRZ_2_nonneg (k : Z) : 0 <= k -> powerRZ 2 k = IZR (2 ^ k).
Proof.
  intros Hk. rewrite <- (Z2Nat.id k) by exact Hk.
  rewrite <- pow_powerRZ. now rewrite pow_IZR.
Qed.

Lemma powerRZ_2_pos (k : Z) : (0 < powerRZ 2 k)%R.
Proof. apply powerRZ_lt. lra. Qed.

Lemma powerRZ_2_split (a b : Z) :
  b <= a -> powerRZ 2 a = (IZR (2 ^ (a - b)) * powerRZ 2 b)%R.
Proof.
  intros H. rewrite <- powerRZ_2_nonneg by lia.
  rewrite <- powerRZ_add by lra. f_equal. lia.
Qed.

Lemma B2R_abs (s : bool) (m : positive) (e : Z) :
  Rabs (B2R (S754_finite s m e)) = (IZR (Z.pos m) * powerRZ 2 e)%R.
Proof.
  pose proof (powerRZ_2_pos e) as P.
  assert (0 < IZR (Z.pos m))%R by (apply IZR_lt; lia).
  cbn [B2R]. rewrite Rabs_mult, (Rabs_pos_eq (powerRZ 2 e)) by lra.
  destruct s; cbn [cond_Zopp].
  - rewrite opp_IZR, Rabs_Ropp, Rabs_pos_eq by lra. reflexivity.
  - rewrite Rabs_pos_eq by lra. reflexivity.
Qed.

Lemma le_one_mantissa (m : positive) (e : Z) :
  (IZR (Z.pos m) * powerRZ 2 e <= 1)%R -> e <= 0 /\ Z.pos m <= 2 ^ (- e).
Proof.
  intros H.
  assert (Hm : (1 <= IZR (Z.pos m))%R) by (apply IZR_le; lia).
  pose proof (powerRZ_2_pos e) as P.
  assert (He : e <= 0).
  { destruct (Z_lt_le_dec 0 e) as [Hpos|]; [|assumption]. exfalso.
    rewrite (powerRZ_2_split e 1) in H by lia.
    change (powerRZ 2 1) with (2 * 1)%R in H.
    assert (1 <= IZR (2 ^ (e - 1)))%R.
    { apply IZR_le. pose proof (Z.pow_pos_nonneg 2 (e - 1)). lia. }
    nra. }
  split; [exact He|].
  apply le_IZR. rewrite <- powerRZ_2_nonneg by lia.
  pose proof (powerRZ_2_pos (- e)) as P'.
  assert (E : (powerRZ 2 e * powerRZ 2 (- e) = 1)%R).
  { rewrite <- powerRZ_add by lra. replace (e + - e) with 0 by lia. reflexivity. }
  nra.
Qed.


Lemma gt_half_mantissa (m : positive) (e : Z) :
  e <= 0 -> (1 / 2 < IZR (Z.pos m) * powerRZ 2 e)%R -> 2 ^ (- e) < 2 * Z.pos m.
Proof.
  intros He H. apply lt_IZR. rewrite mult_IZR.
  rewrite <- powerRZ_2_nonneg by lia.
  pose proof (powerRZ_2_pos (- e)) as P'. pose proof (powerRZ_2_pos e) as P.
  assert (E : (powerRZ 2 e * powerRZ 2 (- e) = 1)%R).
  { rewrite <- powerRZ_add by lra. replace (e + - e) with 0 by lia. reflexivity. }
  nra.
Qed.

Lemma lt_one_mantissa (m : positive) (e : Z) :
  (IZR (Z.pos m) * powerRZ 2 e < 1)%R -> e <= 0 /\ Z.pos m < 2 ^ (- e).
Proof.
  intros H. destruct (le_one_mantissa m e ltac:(lra)) as (He & Hm).
  split; [exact He|]. apply lt_IZR. rewrite <- powerRZ_2_nonneg by lia.
  pose proof (powerRZ_2_pos (- e)) as P'. pose proof (powerRZ_2_pos e) as P.
  assert (E : (powerRZ 2 e * powerRZ 2 (- e) = 1)%R).
  { rewrite <- powerRZ_add by lra. replace (e + - e) with 0 by lia. reflexivity. }
  nra.
Qed.

(** A binary64 number strictly between 1/2 and 1 has exponent -53 and a
    mantissa strictly between 2^52 and 2^53. *)
Lemma b64_between_half_and_one (pw : spec_float) :
  b64_valid pw = true -> (1 / 2 < B2R pw < 1)%R ->
  exists mr, pw = S754_finite false mr (-53)
             /\ 2 ^ 52 < Z.pos mr < 2 ^ 53.
Proof.
  intros Hv (Hlo & Hhi).
  destruct pw as [sp| | |sp mr er]; cbn [B2R] in Hlo; try lra.
  assert (Hs : sp = false).
  { destruct sp; [|reflexivity]. exfalso. cbn [cond_Zopp] in Hlo.
    pose proof (powerRZ_2_pos er).
    assert (IZR (- Z.pos mr) < 0)%R by (apply IZR_lt; lia). nra. }
  subst sp. cbn [B2R cond_Zopp] in Hlo, Hhi.
  destruct (lt_one_mantissa mr er Hhi) as (He & Hm).
  pose proof (gt_half_mantissa mr er He Hlo) as Hh.
  unfold b64_valid, valid_binary, bounded, canonical_mantissa in Hv.
  apply andb_true_iff in Hv. destruct Hv as (Hc & _). apply Z.eqb_eq in Hc.
  change (fexp 53 1024 (Z.pos (digits2_pos mr) + er))
    with (Z.max (Z.pos (digits2_pos mr) + er - 53) (-1074)) in Hc.
  pose proof (digits2_pos_bounds mr) as (Hd1 & Hd2).
  assert (Hlt1 : 2 ^ (Z.pos (digits2_pos mr) - 1) < 2 ^ (- er)) by lia.
  apply Z.pow_lt_mono_r_iff in Hlt1; [|lia|lia].
  assert (Hlt2 : 2 ^ (- er) < 2 ^ (Z.pos (digits2_pos mr) + 1)).
  { rewrite Z.pow_add_r by lia. change (2 ^ 1) with 2. lia. }
  apply Z.pow_lt_mono_r_iff in Hlt2; [|lia|lia].
  assert (Ed : Z.pos (digits2_pos mr) = - er) by lia.
  assert (Eer : er = -53) by lia.
  subst er. exists mr. split; [reflexivity|].
  rewrite Ed in Hd1, Hd2. change (- -53 - 1) with 52 in Hd1.
  change (- -53) with 53 in *.
  change (2 ^ 53) with (2 * 2 ^ 52) in Hh. lia.
Qed.

(** The smallest positive binary64 number, times a factor strictly
    between 1/2 and 1, rounds back to itself. *)
Lemma b64_mul_min_subnormal (s : bool) (pw : spec_float) :
  b64_valid pw = true -> (1 / 2 < B2R pw < 1)%R ->
  b64_mul (S754_finite s 1 (-1074)) pw = S754_finite s 1 (-1074).
Proof.
  intros Hv Hpw.
  destruct (b64_between_half_and_one pw Hv Hpw) as (mr & -> & Hlo & Hhi).
  unfold b64_mul. cbn [SFmul]. rewrite Pos.mul_1_l, xorb_false_r.
  change (-1074 + -53) with (-1127).
  assert (Ed : Z.pos (digits2_pos mr) = 53).
  { pose proof (digits2_pos_bounds mr) as (Hd1 & Hd2).
    assert (H1 : 2 ^ (Z.pos (digits2_pos mr) - 1) < 2 ^ 53) by lia.
    apply Z.pow_lt_mono_r_iff in H1; [|lia|lia].
    assert (H2 : 2 ^ 52 < 2 ^ Z.pos (digits2_pos mr)) by lia.
    apply Z.pow_lt_mono_r_iff in H2; [|lia|lia]. lia. }
  unfold binary_round_aux, shr_fexp. cbn [shr_record_of_loc Zdigits2].
  rewrite Ed. change (fexp 53 1024 (53 + -1127) - -1127) with 53.
  destruct (shr_spec (Z.pos mr) (-1127) 53 ltac:(lia)) as (Ee & Em & Ers & _).
  destruct (Ers ltac:(lia)) as (Er & Es). clear Ers.
  destruct (shr {| shr_m := Z.pos mr; shr_r := false; shr_s := false |} (-1127) 53)
    as [[m' r' s'] e'] eqn:E1.
  cbn [fst snd shr_m shr_r shr_s] in Ee, Em, Er, Es.
  assert (Em' : m' = 0).
  { rewrite Em. apply Z.div_small. change (Z.max 53 0) with 53. lia. }
  assert (Er' : r' = true).
  { rewrite Er. change (53 - 1) with 52.
    replace (Z.pos mr / 2 ^ 52) with 1; [reflexivity|].
    apply Z.div_unique with (r := Z.pos mr - 2 ^ 52); lia. }
  assert (Es' : s' = true).
  { rewrite Es. change (53 - 1) with 52. apply negb_true_iff, Z.eqb_neq.
    assert (Hmod : Z.pos mr - 2 ^ 52 = Z.pos mr mod 2 ^ 52)
      by (apply Z.mod_unique with (q := 1); lia).
    lia. }
  clear Em Er Es. subst m' r' s' e'. reflexivity.
Qed.

Lemma digits2_pos_unique (p : positive) (k : Z) :
  2 ^ (k - 1) <= Z.pos p < 2 ^ k -> Z.pos (digits2_pos p) = k.
Proof.
  intros (H1 & H2). pose proof (digits2_pos_bounds p) as (B1 & B2).
  assert (Hk : 0 < k).
  { destruct (Z_lt_le_dec 0 k) as [|Hk]; [assumption|]. exfalso.
    destruct (Z.eq_dec k 0) as [->|]; [simpl in H2; lia|].
    rewrite Z.pow_neg_r in H2 by lia. lia. }
  assert (A : 2 ^ (Z.pos (digits2_pos p) - 1) < 2 ^ k) by lia.
  apply Z.pow_lt_mono_r_iff in A; [|lia|lia].
  assert (B : 2 ^ (k - 1) < 2 ^ Z.pos (digits2_pos p)) by lia.
  apply Z.pow_lt_mono_r_iff in B; [|lia|lia]. lia.
Qed.

(** Rounding a product whose exponent is not above the target exponent
    gives a canonical mantissa. *)
Lemma binary_round_aux_canonical (s s' : bool) (m mf : positive) (e ef : Z) :
  e <= Z.max (Z.pos (digits2_pos m) + e - 53) (-1074) ->
  binary_round_aux 53 1024 s (Z.pos m) e loc_Exact = S754_finite s' mf ef ->
  canonical_mantissa 53 1024 mf ef = true.
Proof.
  intros Hn1. unfold binary_round_aux, shr_fexp.
  cbn [shr_record_of_loc Zdigits2].
  change (fexp 53 1024 (Z.pos (digits2_pos m) + e))
    with (Z.max (Z.pos (digits2_pos m) + e - 53) (-1074)).
  set (d := Z.pos (digits2_pos m)) in *.
  set (n1 := Z.max (d + e - 53) (-1074) - e).
  assert (Hn : 0 <= n1) by (unfold n1; lia).
  pose proof (digits2_pos_bounds m) as (Hd1 & Hd2). fold d in Hd1, Hd2.
  destruct (shr_spec (Z.pos m) e n1 ltac:(lia)) as (Ee1 & Em1 & _).
  pose proof (round_nearest_even_bounds
                (shr_m (fst (shr {| shr_m := Z.pos m; shr_r := false;
                                    shr_s := false |} e n1)))
                (loc_of_shr_record
                   (fst (shr {| shr_m := Z.pos m; shr_r := false;
                                shr_s := false |} e n1)))) as Hr.
  destruct (shr {| shr_m := Z.pos m; shr_r := false; shr_s := false |} e n1)
    as [mrs' e1] eqn:E1. cbn [fst snd] in Ee1, Em1, Hr.
  rewrite Z.max_l in Ee1, Em1 by lia.
  set (m1 := round_nearest_even (shr_m mrs') (loc_of_shr_record mrs')) in *.
  rewrite Em1 in Hr. clear Em1.
  assert (P1 : 0 < 2 ^ n1) by (apply Z.pow_pos_nonneg; lia).
  assert (Hm' : 0 <= Z.pos m / 2 ^ n1) by (apply Z.div_pos; lia).
  change (fexp 53 1024 (Zdigits2 m1 + e1))
    with (Z.max (Zdigits2 m1 + e1 - 53) (-1074)).
  set (n2 := Z.max (Zdigits2 m1 + e1 - 53) (-1074) - e1).
  destruct (shr_spec m1 e1 n2 ltac:(lia)) as (Ee2 & Em2 & _).
  destruct (shr {| shr_m := m1; shr_r := false; shr_s := false |} e1 n2)
    as [mrs'' e2] eqn:E2. cbn [fst snd] in Ee2, Em2.
  destruct (shr_m mrs'') as [|mf'|mf'] eqn:Emf; try discriminate.
  destruct (e2 <=? 1024 - 53); [|discriminate].
  intros Hres. injection Hres as _ Emf' Eef. subst mf ef.
  assert (Hm1 : 0 < m1).
  { destruct (Z.eq_dec m1 0) as [Hzero|]; [|lia].
    rewrite Hzero in Em2. rewrite Z.div_0_l in Em2; [discriminate|].
    apply Z.pow_nonzero; lia. }
  destruct m1 as [|p1|p1] eqn:Ep1; try lia.
  cbn [Zdigits2] in n2.
  pose proof (digits2_pos_bounds p1) as (Hp1 & Hp2).
  set (d1 := Z.pos (digits2_pos p1)) in *.
  unfold canonical_mantissa.
  change (fexp 53 1024 (Z.pos (digits2_pos mf') + e2))
    with (Z.max (Z.pos (digits2_pos mf') + e2 - 53) (-1074)).
  apply Z.eqb_eq.
  destruct (Z_le_gt_dec (-1074) (d + e - 53)) as [Hnorm|Hsub].
  - (* normal range: the shifted mantissa has 53 bits *)
    assert (En1 : n1 = d - 53) by (unfold n1; lia).
    assert (Hlo : 2 ^ 52 <= Z.pos m / 2 ^ n1).
    { apply Z.div_le_lower_bound; [lia|].
      rewrite <- Z.pow_add_r by lia.
      replace (n1 + 52) with (d - 1) by lia. exact Hd1. }
    assert (Hhi : Z.pos m / 2 ^ n1 < 2 ^ 53).
    { apply Z.div_lt_upper_bound; [lia|].
      rewrite <- Z.pow_add_r by lia.
      replace (n1 + 53) with d by lia. exact Hd2. }
    assert (Hd1' : 53 <= d1).
    { assert (A : 2 ^ 52 < 2 ^ d1) by lia.
      apply Z.pow_lt_mono_r_iff in A; lia. }
    assert (Hd1'' : d1 <= 54).
    { assert (A : 2 ^ (d1 - 1) < 2 ^ 54).
      { change (2 ^ 54) with (2 * 2 ^ 53). lia. }
      apply Z.pow_lt_mono_r_iff in A; lia. }
    destruct (Z.eq_dec d1 53) as [E53|N53].
    + assert (En2 : n2 = 0) by (unfold n2; lia).
      rewrite En2 in Ee2, Em2. change (Z.max 0 0) with 0 in Ee2, Em2.
      change (2 ^ 0) with 1 in Em2. rewrite Z.div_1_r in Em2.
      injection Em2 as ->. fold d1. lia.
    + assert (E54 : d1 = 54) by lia.
      assert (En2 : n2 = 1) by (unfold n2; lia).
      rewrite En2 in Ee2, Em2. change (Z.max 1 0) with 1 in Ee2, Em2.
      change (2 ^ 1) with 2 in Em2.
      assert (Ep : Z.pos p1 = 2 ^ 53).
      { rewrite E54 in Hp1. change (54 - 1) with 53 in Hp1. lia. }
      rewrite Ep in Em2. change (2 ^ 53 / 2) with (2 ^ 52) in Em2.
      rewrite (digits2_pos_unique mf' 53); [lia|].
      rewrite Em2. change (53 - 1) with 52. split; [lia|]. reflexivity.
  - (* subnormal range: at most 53 bits at the smallest exponent *)
    assert (Ee : e1 = -1074) by (unfold n1 in *; lia).
    assert (Hhi : Z.pos m / 2 ^ n1 < 2 ^ 52).
    { apply Z.div_lt_upper_bound; [lia|].
      rewrite <- Z.pow_add_r by lia.
      apply Z.lt_le_trans with (2 ^ d); [exact Hd2|].
      apply Z.pow_le_mono_r; unfold n1; lia. }
    assert (Hd1' : d1 <= 53).
    { assert (A : 2 ^ (d1 - 1) < 2 ^ 53).
      { change (2 ^ 53) with (2 * 2 ^ 52). lia. }
      apply Z.pow_lt_mono_r_iff in A; lia. }
    assert (En2 : n2 = 0) by (unfold n2; lia).
    rewrite En2 in Ee2, Em2. change (Z.max 0 0) with 0 in Ee2, Em2.
    change (2 ^ 0) with 1 in Em2. rewrite Z.div_1_r in Em2.
    injection Em2 as ->. fold d1. lia.
Qed.

(** The rounded product with a factor in [[0, 1]] is again a finite
    binary64 number, and not larger in magnitude. *)
Lemma b64_mul_le (v pw : spec_float) :
  b64_number v = true -> b64_finite pw = true ->
  (0 <= B2R pw <= 1)%R ->
  b64_number (b64_mul v pw) = true
  /\ (Rabs (B2R (b64_mul v pw)) <= Rabs (B2R v))%R.
Proof.
  intros Hnv Hfp Hpw. unfold b64_number in Hnv.
  apply andb_true_iff in Hnv. destruct Hnv as (Hv & Hfv).
  destruct v as [sv| | |sx mx ex]; try discriminate.
  - destruct pw as [sp| | |sp mr er]; try discriminate; cbn; rewrite Rabs_R0;
      (split; [reflexivity|lra]).
  - destruct pw as [sp| | |sp mr er]; try discriminate.
    + cbn [b64_mul SFmul B2R]. rewrite Rabs_R0.
      split; [reflexivity|apply Rabs_pos].
    + assert (Hs : sp = false).
      { destruct sp; [|reflexivity]. exfalso. cbn [B2R cond_Zopp] in Hpw.
        pose proof (powerRZ_2_pos er).
        assert (IZR (- Z.pos mr) < 0)%R by (apply IZR_lt; lia). nra. }
      subst sp. cbn [B2R cond_Zopp] in Hpw.
      destruct (le_one_mantissa mr er (proj2 Hpw)) as (He & Hm).
      unfold b64_mul. cbn [SFmul].
      assert (Hle : Z.pos (mx * mr) <= Z.pos mx * 2 ^ (ex - (ex + er))).
      { rewrite Pos2Z.inj_mul. replace (ex - (ex + er)) with (- er) by lia.
        apply Z.mul_le_mono_nonneg_l; lia. }
      destruct (binary_round_aux_le (xorb sx false) (mx * mr) mx (ex + er) ex
                  Hv ltac:(lia) Hle) as [E|(mf & ef & E & Hef & Hmf)].
      * rewrite E. cbn [B2R]. rewrite Rabs_R0.
        split; [reflexivity|apply Rabs_pos].
      * assert (Hcan : canonical_mantissa 53 1024 mf ef = true).
        { apply (binary_round_aux_canonical (xorb sx false) (xorb sx false)
                   (mx * mr) mf (ex + er) ef); [|exact E].
          pose proof (digits2_pos_le mx (mx * mr) 0 ltac:(lia)) as Hd.
          rewrite Pos2Z.inj_mul in Hd. change (2 ^ 0) with 1 in Hd.
          specialize (Hd ltac:(nia)).
          unfold b64_valid, valid_binary, bounded, canonical_mantissa in Hv.
          apply andb_true_iff in Hv. destruct Hv as (Hc & _).
          apply Z.eqb_eq in Hc.
          change (fexp 53 1024 (Z.pos (digits2_pos mx) + ex))
            with (Z.max (Z.pos (digits2_pos mx) + ex - 53) (-1074)) in Hc.
          lia. }
        assert (Hex : ex <= 971).
        { unfold b64_valid, valid_binary, bounded in Hv.
          apply andb_true_iff in Hv. destruct Hv as (_ & Hmax).
          apply Z.leb_le in Hmax. exact Hmax. }
        rewrite E. split.
        -- unfold b64_number, b64_valid, valid_binary, bounded.
           rewrite Hcan. cbn [b64_finite andb]. rewrite andb_true_r.
           apply Z.leb_le. change (1024 - 53) with 971. lia.
        -- rewrite !B2R_abs. rewrite (powerRZ_2_split ex ef Hef).
           pose proof (powerRZ_2_pos ef).
           apply IZR_le in Hmf. rewrite mult_IZR in Hmf. nra.
Qed.

(** The acceleration term of a call without movement input is a zero. *)
Lemma idle_acceleration64 (dt scale_factor : spec_float) :
  b64_finite dt = true -> b64_finite scale_factor = true ->
  exists s,
    b64_mul (b64_mul (b64_mul (b64_mul zero64 ACCELERATION64) dt) sixty64)
      scale_factor = S754_zero s.
Proof.
  intros Hdt Hsf.
  destruct dt as [sd| | |sd md ed]; try discriminate;
    destruct scale_factor as [ss| | |ss ms es]; try discriminate;
    cbn; eexists; reflexivity.
Qed.

(** One component of the velocity through a call without movement
    input. *)
Lemma idle_component64 (x pw : spec_float) (s : bool) :
  b64_number x = true -> b64_finite pw = true -> (0 <= B2R pw <= 1)%R ->
  b64_number (b64_mul (b64_add x (S754_zero s)) pw) = true
  /\ B2R (b64_mul (b64_add x (S754_zero s)) pw) = B2R (b64_mul x pw)
  /\ (Rabs (B2R (b64_mul (b64_add x (S754_zero s)) pw)) <= Rabs (B2R x))%R.
Proof.
  intros Hx Hfp Hpw.
  destruct x as [sx| | |sx mx ex]; try discriminate.
  - assert (E : exists s', b64_add (S754_zero sx) (S754_zero s) = S754_zero s').
    { destruct sx, s; cbn; eexists; reflexivity. }
    destruct E as (s' & ->).
    destruct pw as [sp| | |sp mr er]; try discriminate; cbn; rewrite Rabs_R0;
      repeat split; lra.
  - change (b64_add (S754_finite sx mx ex) (S754_zero s))
      with (S754_finite sx mx ex).
    destruct (b64_mul_le (S754_finite sx mx ex) pw Hx Hfp Hpw) as (H1 & H2).
    repeat split; assumption.
Qed.

Lemma powerRZ_2_neg (k : Z) : 0 <= k -> powerRZ 2 (- k) = (/ IZR (2 ^ k))%R.
Proof.
  intros Hk. rewrite <- powerRZ_2_nonneg by exact Hk.
  pose proof (powerRZ_2_pos k) as P.
  apply Rmult_eq_reg_r with (powerRZ 2 k); [|lra].
  rewrite <- powerRZ_add by lra. replace (- k + k) with 0 by lia.
  rewrite Rinv_l by lra. reflexivity.
Qed.

Lemma B2R_DAMPING64 :
  B2R DAMPING64 = (7205759403792794 / 9007199254740992)%R.
Proof.
  unfold DAMPING64. cbn [B2R cond_Zopp].
  pose proof (powerRZ_2_neg 53 ltac:(lia)) as E.
  change (Z.opp 53) with (-53) in E. rewrite E.
  change (2 ^ 53) with 9007199254740992. reflexivity.
Qed.

Lemma norm_le_components_abs (a b : Vec2) :
  (Rabs (fst a) <= Rabs (fst b))%R -> (Rabs (snd a) <= Rabs (snd b))%R ->
  (norm a <= norm b)%R.
Proof.
  intros H0 H1. unfold norm. apply sqrt_le_1_alt.
  apply Rsqr_le_abs_1 in H0, H1. unfold Rsqr in H0, H1. lra.
Qed.

End Binary64.




(** ** The raycaster *)

Lemma int_IZR (z : Z) : int (IZR z) = z.
Proof.
  unfold int. destruct (Rle_dec 0 (IZR z)); [apply ZfloorZ|].
  apply Zceil_eq. lra.
Qed.

Lemma int_floor (z : Z) (x : R) :
  0 <= x -> IZR z <= x < IZR z + 1 -> int x = z.
Proof.
  intros Hx Hz. unfold int. destruct (Rle_dec 0 x); [|contradiction].
  now apply Zfloor_eq.
Qed.

Lemma range_spec (a b r : Z) : In r (range a b) <-> (a <= r < b)%Z.
Proof.
  unfold range. rewrite in_map_iff. split.
  - intros (i & <- & Hi). apply in_seq in Hi. lia.
  - intros Hr. exists (Z.to_nat (r - a)). split; [lia|].
    apply in_seq. lia.
Qed.

Lemma range_NoDup (a b : Z) : NoDup (range a b).
Proof.
  unfold range. apply Injective_map_NoDup; [|apply seq_NoDup].
  intros i j Hij. lia.
Qed.

Section PaintFacts.

Variable base_color_map : ColorMap.

Lemma paint_rows_y_buffer rows col x y st :
  y_buffer (paint_rows base_color_map rows col x y st) = y_buffer st.
Proof.
  revert st. induction rows as [|r rows IH]; intros st; simpl; [reflexivity|].
  now rewrite IH.
Qed.

Lemma paint_rows_pixel_writes rows col x y st :
  pixel_writes (accesses (paint_rows base_color_map rows col x y st))
  = rev (map (pair col) rows) ++ pixel_writes (accesses st).
Proof.
  revert st. induction rows as [|r rows IH]; intros st; simpl; [reflexivity|].
  rewrite IH. simpl. now rewrite <- app_assoc.
Qed.

Lemma paint_rows_in_bounds hm sw sh rows col x y st :
  (0 <= col < sw)%Z ->
  (forall r, In r rows -> (0 <= r < sh)%Z) ->
  in_bounds hm base_color_map sw sh (ColorRead x y) ->
  Forall (in_bounds hm base_color_map sw sh) (accesses st) ->
  Forall (in_bounds hm base_color_map sw sh)
    (accesses (paint_rows base_color_map rows col x y st)).
Proof.
  intros Hcol Hrows Hxy. revert st.
  induction rows as [|r rows IH]; intros st Hst; simpl; [exact Hst|].
  apply IH.
  - intros r' Hr'. apply Hrows. now right.
  - simpl. repeat constructor; try exact Hst; try apply Hxy;
      try apply Hcol; apply (Hrows r); now left.
Qed.

End PaintFacts.

Section RayFacts.

Variable INFINITE_MAP : bool.
Variable base_height_map : HeightMap.
Variable base_color_map : ColorMap.
Variable screen_array0 : Screen.
Variable player_pos : Vec2.
Variables player_angle player_height player_pitch : R.
Variables screen_width screen_height : Z.
Variable delta_angle : R.
Variable ray_distance : Z.
Variables h_fov scale_height world_scale : R.

Local Abbreviation cell := (sample_cell INFINITE_MAP base_height_map player_pos).
Local Abbreviation proj :=
  (project base_height_map player_angle player_height player_pitch
     scale_height world_scale).
Local Abbreviation step :=
  (march_step INFINITE_MAP base_height_map base_color_map player_pos
     player_angle player_height player_pitch screen_height scale_height
     world_scale).
Local Abbreviation marching :=
  (march INFINITE_MAP base_height_map base_color_map player_pos
     player_angle player_height player_pitch screen_height scale_height
     world_scale).
Local Abbreviation column :=
  (march_column INFINITE_MAP base_height_map base_color_map player_pos
     player_angle player_height player_pitch screen_height ray_distance
     scale_height world_scale).
Local Abbreviation casting :=
  (cast INFINITE_MAP base_height_map base_color_map screen_array0 player_pos
     player_angle player_height player_pitch screen_height delta_angle
     ray_distance h_fov scale_height world_scale).

(** A sampled cell is a cell of the height map, in both modes. *)
Lemma sample_cell_inside (a : R) (depth x y : Z) :
  cell a depth = Some (x, y) ->
  (0 <= x < Z.pos (hm_shape0 base_height_map))%Z
  /\ (0 <= y < Z.pos (hm_shape1 base_height_map))%Z.
Proof.
  unfold sample_cell. destruct INFINITE_MAP.
  - intros H. inversion H; subst. split; apply Z.mod_pos_bound; lia.
  - destruct (_ || _)%bool eqn:E; [discriminate|].
    intros H. inversion H; subst. clear H.
    repeat (apply orb_false_iff in E; destruct E as (E & ?)). lia.
Qed.

(** One iteration keeps [march_inv], and does not raise the horizon of a
    column whose entry started at [screen_height]. *)
Lemma march_step_inv (c : Z) (a : R) (depth : Z) (st0 : RayState) (m : March) :
  march_inv screen_height c st0 m ->
  march_inv screen_height c st0 (step c a depth m)
  /\ (y_buffer st0 c = screen_height ->
      (y_buffer (ray (step c a depth m)) c <= y_buffer (ray m) c)%Z).
Proof.
  intros (Hother & Hbefore & Hafter & new & Hnew & Hempty & Hdup & Hrows).
  unfold march_inv, march_step.
  destruct (cell a depth) as [[x y]|]; simpl.
  2:{ split; [|lia]. repeat split; try assumption. now exists new. }
  destruct (Req_dec_T _ 0); simpl.
  { split; [|lia]. repeat split; try assumption. now exists new. }
  set (h := proj a depth x y).
  destruct (first_contact m) eqn:Hfc; simpl.
  - (* later samples *)
    specialize (Hafter eq_refl).
    set (h' := if (h <? 0)%Z then 0%Z else h).
    assert (Hh' : (0 <= h')%Z) by (unfold h'; destruct (h <? 0)%Z eqn:E; lia).
    destruct (h' <? y_buffer (ray m) c)%Z eqn:Hlt; simpl.
    + apply Z.ltb_lt in Hlt. rewrite Z.eqb_refl. split; [|lia].
      split; [|split; [|split]].
      * intros c' Hc'. apply Z.eqb_neq in Hc'. rewrite Hc'.
        rewrite paint_rows_y_buffer. simpl. apply Hother.
        now apply Z.eqb_neq.
      * discriminate.
      * intros _. lia.
      * exists (rev (map (pair c) (range h' (y_buffer (ray m) c))) ++ new).
        rewrite paint_rows_pixel_writes. simpl. rewrite Hnew, app_assoc.
        split; [reflexivity|]. split; [discriminate|]. split.
        -- apply NoDup_app; [|exact Hdup|].
           ++ apply NoDup_rev, Injective_map_NoDup; [|apply range_NoDup].
              intros i j Hij. now inversion Hij.
           ++ intros [c1 r1] Hin Hin'. apply in_rev, in_map_iff in Hin.
              destruct Hin as (r & Hr & Hin). inversion Hr; subst.
              apply range_spec in Hin.
              destruct (Hrows _ Hin') as (_ & Hge & _). simpl in Hge. lia.
        -- intros [c1 r1] Hin. apply in_app_or in Hin. destruct Hin as [Hin|Hin].
           ++ apply in_rev, in_map_iff in Hin.
              destruct Hin as (r & Hr & Hin). inversion Hr; subst.
              apply range_spec in Hin. simpl. repeat split; lia.
           ++ destruct (Hrows _ Hin) as (Hc1 & Hge & Hpos). simpl in *.
              repeat split; lia.
    + split; [|lia]. split; [|split; [|split]]; try assumption.
      * intros _. exact Hafter.
      * exists new. repeat split; try assumption; try discriminate;
          now apply Hrows.
  - (* the first contact *)
    specialize (Hbefore eq_refl). specialize (Hempty eq_refl). subst new.
    rewrite Z.eqb_refl.
    set (h' := if (h <? 0)%Z then 0%Z else h).
    assert (Hno : (h' <? Z.min h screen_height)%Z = false).
    { apply Z.ltb_ge. unfold h'. destruct (h <? 0)%Z eqn:E; lia. }
    rewrite Hno. simpl. rewrite Z.eqb_refl. split.
    + split; [|split; [|split]].
      * intros c' Hc'. apply Z.eqb_neq in Hc'. rewrite Hc'. apply Hother.
        now apply Z.eqb_neq.
      * discriminate.
      * intros _. lia.
      * exists []. simpl. rewrite Hnew. simpl.
        repeat split; try constructor; try discriminate; contradiction.
    + intros Hstart. rewrite Hbefore, Hstart. lia.
Qed.

Lemma march_succ (c : Z) (a : R) (st0 : RayState) (n : nat) :
  marching c a st0 (S n)
  = match flow (marching c a st0 n) with
    | Running => step c a (Z.of_nat (S n)) (marching c a st0 n)
    | _ => marching c a st0 n
    end.
Proof. reflexivity. Qed.

Lemma march_keeps_inv (c : Z) (a : R) (st0 : RayState) (n : nat) :
  march_inv screen_height c st0 (marching c a st0 n).
Proof.
  induction n as [|n IH].
  - unfold march_inv; simpl. repeat split; try discriminate.
    exists []. repeat split; try constructor; contradiction.
  - rewrite march_succ. destruct (flow (marching c a st0 n)); try exact IH.
    exact (proj1 (march_step_inv c a _ st0 _ IH)).
Qed.

Lemma march_horizon_step (c : Z) (a : R) (st0 : RayState) (n : nat) :
  y_buffer st0 c = screen_height ->
  (y_buffer (ray (marching c a st0 (S n))) c
   <= y_buffer (ray (marching c a st0 n)) c)%Z.
Proof.
  intros Hstart. rewrite march_succ.
  destruct (flow (marching c a st0 n)); try lia.
  exact (proj2 (march_step_inv c a _ st0 _ (march_keeps_inv c a st0 n)) Hstart).
Qed.

Lemma march_horizon_monotone (c : Z) (a : R) (st0 : RayState) (n n' : nat) :
  y_buffer st0 c = screen_height -> (n <= n')%nat ->
  (y_buffer (ray (marching c a st0 n')) c
   <= y_buffer (ray (marching c a st0 n)) c)%Z.
Proof.
  intros Hstart Hle. induction Hle as [|n' Hle IH]; [lia|].
  pose proof (march_horizon_step c a st0 n' Hstart). lia.
Qed.

Lemma cast_succ (k : nat) :
  casting (S k)
  = if raised (casting k) then casting k
    else
      let m := column (Z.of_nat k) (ray_angle_of (casting k))
                 (state (casting k)) in
      match flow m with
      | Raised => {| raised := true; ray_angle_of := ray_angle_of (casting k);
                     state := ray m |}
      | _ => {| raised := false;
                ray_angle_of := ray_angle_of (casting k) + delta_angle;
                state := ray m |}
      end.
Proof. reflexivity. Qed.

Lemma cast_state_succ (k : nat) :
  state (casting (S k)) = state (casting k)
  \/ state (casting (S k))
     = ray (column (Z.of_nat k) (ray_angle_of (casting k)) (state (casting k))).
Proof.
  rewrite cast_succ. destruct (raised (casting k)); [now left|].
  right. cbv zeta. destruct (flow _); reflexivity.
Qed.

(** After [k] columns: the horizon entries of the columns still to come
    hold [screen_height], and the pixels painted so far are distinct and
    lie in the columns already marched. *)
Lemma cast_inv (k : nat) :
  (forall c, (Z.of_nat k <= c)%Z ->
             y_buffer (state (casting k)) c = screen_height)
  /\ NoDup (pixel_writes (accesses (state (casting k))))
  /\ (forall cr, In cr (pixel_writes (accesses (state (casting k)))) ->
                 (0 <= fst cr < Z.of_nat k)%Z).
Proof.
  induction k as [|k (IHy & IHd & IHc)].
  - simpl. repeat split; try constructor; contradiction.
  - destruct (cast_state_succ k) as [E|E]; rewrite E.
    + repeat split; try assumption.
      * intros c Hc. apply IHy. lia.
      * apply IHc in H. lia.
      * apply IHc in H. lia.
    + destruct (march_keeps_inv (Z.of_nat k) (ray_angle_of (casting k))
                  (state (casting k)) (Z.to_nat (ray_distance - 1)))
        as (Hother & _ & _ & new & Hnew & _ & Hdup & Hrows).
      unfold march_column. rewrite Hnew.
      split; [|split].
      * intros c Hc. rewrite Hother by lia. apply IHy. lia.
      * apply NoDup_app; [exact Hdup|exact IHd|].
        intros cr Hin Hin'. apply Hrows in Hin. apply IHc in Hin'. lia.
      * intros cr Hin. apply in_app_or in Hin. destruct Hin as [Hin|Hin].
        -- apply Hrows in Hin. lia.
        -- apply IHc in Hin. lia.
Qed.

(** C3.  In the depth loop of every column [k], started as [ray_casting]
    starts it, the horizon entry of the column after [n'] depth samples
    is at most what it was after [n <= n'] samples; and the pixels
    painted by one call of [ray_casting] are pairwise distinct, so no row
    of any column is painted twice. *)
Theorem horizon_monotone_no_repaint :
  (forall k n n' : nat, (n <= n')%nat ->
     (y_buffer (ray (marching (Z.of_nat k) (ray_angle_of (casting k))
                       (state (casting k)) n')) (Z.of_nat k)
      <= y_buffer (ray (marching (Z.of_nat k) (ray_angle_of (casting k))
                          (state (casting k)) n)) (Z.of_nat k))%Z)
  /\ NoDup (pixel_writes (accesses (state
       (ray_casting INFINITE_MAP base_height_map base_color_map
          screen_array0 player_pos player_angle player_height player_pitch
          screen_width screen_height delta_angle ray_distance h_fov
          scale_height world_scale)))).
Proof.
  split.
  - intros k n n' Hle. apply march_horizon_monotone; [|exact Hle].
    apply cast_inv. lia.
  - unfold ray_casting. apply cast_inv.
Qed.

(** The first depth sample of a column, case by case. *)
Lemma march_first_sample (c : Z) (a : R) (st0 : RayState) :
  match cell a 1 with
  | None =>
      marching c a st0 1
      = {| flow := Broken; first_contact := false; ray := st0 |}
  | Some (x, y) =>
      if Req_dec_T (IZR 1 * cos (player_angle - a)) 0 then
        marching c a st0 1
        = {| flow := Raised; first_contact := false;
             ray := read_height st0 x y |}
      else
        marching c a st0 1
        = {| flow := Running; first_contact := true;
             ray := set_y_buffer (read_height st0 x y) c
                      (Z.min (proj a 1 x y) screen_height) |}
  end.
Proof.
  rewrite march_succ. simpl flow. cbv iota.
  change (Z.of_nat 1) with 1%Z. unfold march_step.
  destruct (cell a 1) as [[x y]|]; [|reflexivity].
  destruct (Req_dec_T _ 0); [reflexivity|]. simpl.
  rewrite Z.eqb_refl.
  set (h := proj a 1 x y).
  assert (Hno : ((if (h <? 0)%Z then 0%Z else h)
                 <? Z.min h screen_height)%Z = false).
  { apply Z.ltb_ge. destruct (h <? 0)%Z eqn:E; lia. }
  now rewrite Hno.
Qed.

(** C4, as the code has it.  At the first depth sample of a column the
    loop either breaks (the sample is off the bounded map) or raises
    (zero corrected depth), leaving the horizon entry as it was, or it
    sets the entry to [min(screenY, frameHeight)] where [screenY] is the
    truncated projection before it is clamped to [>= 0]; nothing is
    painted at that sample.  So the entry is at most [frameHeight], and
    for a non-negative [frameHeight] it is non-negative exactly when the
    unclamped [screenY] is. *)
Theorem first_sample_horizon (c : Z) (a : R) (st0 : RayState) :
  let m := marching c a st0 1 in
  match cell a 1 with
  | None => flow m = Broken /\ ray m = st0
  | Some (x, y) =>
      if Req_dec_T (IZR 1 * cos (player_angle - a)) 0 then
        flow m = Raised /\ y_buffer (ray m) c = y_buffer st0 c
      else
        let screenY := proj a 1 x y in
        flow m = Running
        /\ y_buffer (ray m) c = Z.min screenY screen_height
        /\ (y_buffer (ray m) c <= screen_height)%Z
        /\ ((0 <= screen_height)%Z ->
            ((0 <= y_buffer (ray m) c)%Z <-> (0 <= screenY)%Z))
        /\ pixel_writes (accesses (ray m)) = pixel_writes (accesses st0)
  end.
Proof.
  intros m. subst m. pose proof (march_first_sample c a st0) as H.
  destruct (cell a 1) as [[x y]|].
  - destruct (Req_dec_T _ 0); rewrite H; simpl.
    + split; reflexivity.
    + rewrite Z.eqb_refl. repeat split; try reflexivity; lia.
  - rewrite H. split; reflexivity.
Qed.

(** Every access of one iteration is in bounds when those before it
    were. *)
Lemma march_step_bounds (c : Z) (a : R) (depth : Z) (st0 : RayState)
    (m : March) :
  cm_shape0 base_color_map = hm_shape0 base_height_map ->
  cm_shape1 base_color_map = hm_shape1 base_height_map ->
  (0 <= c < screen_width)%Z ->
  march_inv screen_height c st0 m ->
  Forall (in_bounds base_height_map base_color_map screen_width screen_height)
    (accesses (ray m)) ->
  Forall (in_bounds base_height_map base_color_map screen_width screen_height)
    (accesses (ray (step c a depth m))).
Proof.
  intros Hs0 Hs1 Hc (_ & _ & Hafter & _) Hall.
  unfold march_step.
  destruct (cell a depth) as [[x y]|] eqn:Hcell; simpl; [|exact Hall].
  pose proof (sample_cell_inside a depth x y Hcell) as Hxy.
  assert (Hread : Forall (in_bounds base_height_map base_color_map
                            screen_width screen_height)
                    (accesses (read_height (ray m) x y))).
  { simpl. constructor; [exact Hxy|exact Hall]. }
  destruct (Req_dec_T _ 0); simpl; [exact Hread|].
  set (h := proj a depth x y).
  set (h' := if (h <? 0)%Z then 0%Z else h).
  assert (Hh' : (0 <= h')%Z) by (unfold h'; destruct (h <? 0)%Z eqn:E; lia).
  assert (Hcolor : in_bounds base_height_map base_color_map screen_width
                     screen_height (ColorRead x y)).
  { simpl. rewrite Hs0, Hs1. exact Hxy. }
  destruct (first_contact m) eqn:Hfc; simpl.
  - specialize (Hafter eq_refl).
    destruct (h' <? y_buffer (ray m) c)%Z eqn:Hlt; simpl; [|exact Hread].
    constructor; [exact Hc|].
    apply paint_rows_in_bounds; try assumption.
    intros r Hr. apply range_spec in Hr. lia.
  - rewrite Z.eqb_refl.
    assert (Hno : (h' <? Z.min h screen_height)%Z = false).
    { apply Z.ltb_ge. unfold h'. destruct (h <? 0)%Z eqn:E; lia. }
    rewrite Hno. simpl. constructor; [exact Hc|exact Hread].
Qed.

Lemma march_bounds (c : Z) (a : R) (st0 : RayState) (n : nat) :
  cm_shape0 base_color_map = hm_shape0 base_height_map ->
  cm_shape1 base_color_map = hm_shape1 base_height_map ->
  (0 <= c < screen_width)%Z ->
  Forall (in_bounds base_height_map base_color_map screen_width screen_height)
    (accesses st0) ->
  Forall (in_bounds base_height_map base_color_map screen_width screen_height)
    (accesses (ray (marching c a st0 n))).
Proof.
  intros Hs0 Hs1 Hc Hall. induction n as [|n IH]; [exact Hall|].
  rewrite march_succ. destruct (flow (marching c a st0 n)); try exact IH.
  apply (march_step_bounds c a _ st0); try assumption. apply march_keeps_inv.
Qed.

Lemma cast_bounds (k : nat) :
  cm_shape0 base_color_map = hm_shape0 base_height_map ->
  cm_shape1 base_color_map = hm_shape1 base_height_map ->
  (Z.of_nat k <= Z.max 0 screen_width)%Z ->
  Forall (in_bounds base_height_map base_color_map screen_width screen_height)
    (accesses (state (casting k))).
Proof.
  intros Hs0 Hs1. induction k as [|k IH]; intros Hk; [constructor|].
  destruct (cast_state_succ k) as [E|E]; rewrite E.
  - apply IH. lia.
  - unfold march_column. apply march_bounds; try assumption; [lia|].
    apply IH. lia.
Qed.

(** C9.  With the two grids of one shape, every array access of
    [ray_casting] is in bounds, whatever the position, the angles, the
    eye height and the pitch: each painted pixel has its column in
    [0, screen_width) and its row in [0, screen_height), each horizon
    entry written is one of the [screen_width] entries, and each read of
    the height and colour grids is at a cell of the grid, wrapped on the
    unbounded map and never attempted past the [break] on the bounded
    one.  This holds for the accesses made before a raised exception as
    well. *)
Theorem ray_casting_in_bounds :
  cm_shape0 base_color_map = hm_shape0 base_height_map ->
  cm_shape1 base_color_map = hm_shape1 base_height_map ->
  Forall (in_bounds base_height_map base_color_map screen_width screen_height)
    (accesses (state
       (ray_casting INFINITE_MAP base_height_map base_color_map
          screen_array0 player_pos player_angle player_height player_pitch
          screen_width screen_height delta_angle ray_distance h_fov
          scale_height world_scale))).
Proof.
  intros Hs0 Hs1. unfold ray_casting. apply cast_bounds; try assumption. lia.
Qed.

End RayFacts.

(** C4 as stated fails next to a wall.  The player stands at (0.5, 0.5)
    on [cliff4] with its eye at height 40 and looks along x; the first
    sample of the only column falls on the wall of height 200, the
    unclamped [screenY] is (40 - 200) / 1 * 920 + 0 = -147200, and that
    is the horizon entry the call leaves behind: below 0. *)
Lemma first_sample_horizon_negative :
  let c := ray_casting false cliff4 grey4 black (0.5, 0.5) 0 40 0 1 450
             (PI / 6) 2 0 920 1 in
  raised c = false
  /\ y_buffer (state c) 0 = (-147200)%Z
  /\ ~ (0 <= y_buffer (state c) 0 <= 450)%Z.
Proof.
  assert (Ha : 0 - 0 = 0) by lra.
  assert (Hcell : sample_cell false cliff4 (0.5, 0.5) (0 - 0) 1 = Some (1, 0)%Z).
  { unfold sample_cell. rewrite Ha, cos_0, sin_0. simpl fst; simpl snd.
    rewrite (int_floor 1 (0.5 + 1 * 1)) by lra.
    rewrite (int_floor 0 (0.5 + 1 * 0)) by lra. reflexivity. }
  assert (Hcorr : IZR 1 * cos (0 - (0 - 0)) = 1).
  { rewrite Ha, Ha, cos_0. lra. }
  assert (Hproj : project cliff4 0 40 0 920 1 (0 - 0) 1 1 0 = (-147200)%Z).
  { unfold project. rewrite Hcorr. simpl hm_at.
    replace ((40 - 200 * 1) / 1 * 920 + 0) with (IZR (-147200)) by lra.
    apply int_IZR. }
  assert (Hcast : state (ray_casting false cliff4 grey4 black (0.5, 0.5) 0 40 0
                           1 450 (PI / 6) 2 0 920 1)
                  = set_y_buffer
                      (read_height {| screen_array := black;
                                      y_buffer := fun _ => 450%Z;
                                      accesses := [] |} 1 0)
                      0 (Z.min (-147200) 450)
                  /\ raised (ray_casting false cliff4 grey4 black (0.5, 0.5) 0
                               40 0 1 450 (PI / 6) 2 0 920 1) = false).
  { unfold ray_casting. change (Z.to_nat 1) with 1%nat. rewrite cast_succ.
    cbn [cast raised ray_angle_of state]. unfold march_column.
    change (Z.to_nat (2 - 1)) with 1%nat. change (Z.of_nat 0) with 0%Z.
    pose proof (march_first_sample false cliff4 grey4 (0.5, 0.5) 0 40 0 450
                  920 1 0 (0 - 0)
                  {| screen_array := black; y_buffer := fun _ => 450%Z;
                     accesses := [] |}) as H.
    rewrite Hcell in H.
    destruct (Req_dec_T (IZR 1 * cos (0 - (0 - 0))) 0) as [E|_];
      [exfalso; lra|].
    rewrite H, Hproj. simpl. split; reflexivity. }
  cbv zeta. destruct Hcast as (-> & ->).
  simpl. repeat split. lia.
Qed.

(** C3 on [cliff4]: the horizon of column 0 after its first sample is
    not above its value before any sample. *)
Lemma horizon_monotone_no_repaint_witness :
  Z.le
    (y_buffer (ray (march false cliff4 grey4 (0.5, 0.5) 0 40 0 450 920 1 0
                      (ray_angle_of cliff_start) (state cliff_start) 1)) 0)
    (y_buffer (ray (march false cliff4 grey4 (0.5, 0.5) 0 40 0 450 920 1 0
                      (ray_angle_of cliff_start) (state cliff_start) 0)) 0).
Proof.
  apply (proj1 (horizon_monotone_no_repaint false cliff4 grey4 black
                  (0.5, 0.5) 0 40 0 1 450 (PI / 6) 2 0 920 1) 0%nat 0%nat 1%nat).
  lia.
Defined.

(** C9 on the 4 x 4 grids [cliff4] and [grey4], which have one shape. *)
Lemma ray_casting_in_bounds_witness :
  Forall (in_bounds cliff4 grey4 1 450)
    (accesses (state (ray_casting false cliff4 grey4 black (0.5, 0.5) 0 40 0
                        1 450 (PI / 6) 2 0 920 1))).
Proof.
  apply (ray_casting_in_bounds false cliff4 grey4 black (0.5, 0.5) 0 40 0
           1 450 (PI / 6) 2 0 920 1); reflexivity.
Defined.

(** ** Rendering *)

(** C8.  [update_voxel_render] runs [ray_casting] on the sky background
    with the player's position, yaw and pitch and with the eye height
    [height + BREATH_AMPLITUDE * sin (current_time * BREATH_FREQUENCY)];
    when it returns, the frame it stores is the one that call produced
    and the player dictionary is the one it received, field for field.
    It fails only on a sky of width 0 or when [ray_casting] raises. *)
Theorem update_voxel_render_breathing
    (INFINITE_MAP : bool) (base_height_map : HeightMap)
    (base_color_map : ColorMap) (vr : VoxelRender) (player : Player)
    (screen_width screen_height draw_distance current_time : Z)
    (world_scale : R) :
  let effective_height :=
    height player
    + BREATH_AMPLITUDE * sin (IZR current_time * BREATH_FREQUENCY) in
  let sky := vr_sky_image vr in
  let background :=
    blit_sky sky
      (int (angle player / (2 * PI) * IZR screen_width) mod sky_width sky)%Z in
  let c :=
    ray_casting INFINITE_MAP base_height_map base_color_map background
      (pos player) (angle player) effective_height (pitch player)
      screen_width screen_height (vr_delta_angle vr) draw_distance
      (vr_h_fov vr) (vr_scale_height vr) world_scale in
  match update_voxel_render INFINITE_MAP base_height_map base_color_map vr
          player screen_width screen_height draw_distance current_time
          world_scale with
  | Some (vr', player') =>
      sky_width sky <> 0%Z /\ raised c = false
      /\ vr_screen_array vr' = screen_array (state c)
      /\ vr_ray_distance vr' = draw_distance
      /\ player' = player
  | None => sky_width sky = 0%Z \/ raised c = true
  end.
Proof.
  cbv zeta. unfold update_voxel_render.
  destruct (sky_width (vr_sky_image vr) =? 0)%Z eqn:Hsky.
  - left. now apply Z.eqb_eq.
  - apply Z.eqb_neq in Hsky.
    destruct (raised (ray_casting _ _ _ _ _ _ _ _ _ _ _ _ _ _ _)) eqn:Hr.
    + now right.
    + simpl. repeat split; assumption.
Qed.

(** The player [update_app] stores is the one [update_player] returned:
    rendering comes after the physics and does not alter it. *)
Lemma update_app_player im hm cm (app app' : App) mr ticks pl :
  update_app im hm cm app mr ticks pl = Some app' ->
  update_player im hm (app_player app) mr
    (adjust_draw_distance (keys pl) (app_draw_distance app)) (app_dt app)
    (adjust_world_scale (keys pl) (app_world_scale app)) pl
  = Some (app_player app').
Proof.
  unfold update_app. intros H.
  destruct (update_player _ _ _ _ _ _ _ _) as [q|]; [|discriminate].
  destruct (update_voxel_render _ _ _ _ _ _ _ _ _ _) as [[vr q']|] eqn:E;
    [|discriminate].
  inversion H; subst; clear H. simpl. f_equal.
  unfold update_voxel_render in E.
  destruct (_ =? 0)%Z; [discriminate|].
  destruct (raised _); [discriminate|]. now inversion E.
Qed.

(** ** The chunk manager *)

Lemma coord_eqb_eq (a b : Coord) : coord_eqb a b = true <-> a = b.
Proof.
  destruct a as [a0 a1], b as [b0 b1]. unfold coord_eqb; simpl.
  rewrite andb_true_iff, !Z.eqb_eq. split.
  - intros (-> & ->). reflexivity.
  - intros H. inversion H. auto.
Qed.

Lemma is_loaded_spec (c : Coord) (loaded : list (Coord * Chunk)) :
  is_loaded c loaded = true <-> In c (map fst loaded).
Proof.
  unfold is_loaded. rewrite existsb_exists, in_map_iff. split.
  - intros (kv & Hin & He). apply coord_eqb_eq in He. now exists kv.
  - intros (kv & He & Hin). exists kv. split; [exact Hin|].
    now apply coord_eqb_eq.
Qed.

Lemma chunks_around_spec (cur c : Coord) :
  In c (chunks_around cur)
  <-> (fst cur - 1 <= fst c <= fst cur + 1)%Z
      /\ (snd cur - 1 <= snd c <= snd cur + 1)%Z.
Proof.
  unfold chunks_around. rewrite in_flat_map. split.
  - intros (dx & Hdx & Hin). apply in_map_iff in Hin.
    destruct Hin as (dy & <- & Hdy).
    apply range_spec in Hdx, Hdy. unfold LOAD_DISTANCE in *. simpl. lia.
  - intros (Hx & Hy). exists (fst c - fst cur)%Z. split.
    + apply range_spec. unfold LOAD_DISTANCE. lia.
    + apply in_map_iff. exists (snd c - snd cur)%Z. split.
      * destruct c; simpl; f_equal; lia.
      * apply range_spec. unfold LOAD_DISTANCE. lia.
Qed.

Lemma chunks_around_NoDup (cur : Coord) : NoDup (chunks_around cur).
Proof.
  unfold chunks_around, LOAD_DISTANCE.
  change (range (- (1)) (1 + 1)) with [(-1)%Z; 0%Z; 1%Z]. simpl.
  repeat constructor; simpl; intros H;
    repeat (destruct H as [H|H]; [inversion H; lia|]); exact H.
Qed.

(** X1.  A position lies in the square of its chunk: the chunk
    coordinate times [CHUNK_SIZE] is at most the coordinate, which is
    less than that plus [CHUNK_SIZE]. *)
Theorem get_chunk_contains (world_x world_y : R) :
  IZR CHUNK_SIZE * IZR (fst (get_chunk world_x world_y)) <= world_x
    < IZR CHUNK_SIZE * IZR (fst (get_chunk world_x world_y)) + IZR CHUNK_SIZE
  /\ IZR CHUNK_SIZE * IZR (snd (get_chunk world_x world_y)) <= world_y
       < IZR CHUNK_SIZE * IZR (snd (get_chunk world_x world_y))
         + IZR CHUNK_SIZE.
Proof.
  unfold get_chunk, CHUNK_SIZE. simpl fst; simpl snd.
  pose proof (Zfloor_bound (world_x / 10)) as Hx.
  pose proof (Zfloor_bound (world_y / 10)) as Hy.
  lra.
Qed.

Lemma load_chunks_around_effect (player_pos : Vec2) (cm : ChunkManager) :
  let cur := get_chunk (fst player_pos) (snd player_pos) in
  let cm' := load_chunks_around player_pos cm in
  (forall kv, In kv (loaded_chunks cm')
              <-> In kv (loaded_chunks cm) /\ In (fst kv) (chunks_around cur))
  /\ exists added,
       load_queue cm' = load_queue cm ++ added
       /\ NoDup added
       /\ forall c, In c added
                    <-> In c (chunks_around cur)
                        /\ ~ In c (map fst (loaded_chunks cm)).
Proof.
  intros cur cm'. subst cm'. unfold load_chunks_around. fold cur.
  cbn [loaded_chunks load_queue].
  assert (Hkeep : forall kv,
            In kv (filter (fun kv => existsb (coord_eqb (fst kv))
                                       (chunks_around cur)) (loaded_chunks cm))
            <-> In kv (loaded_chunks cm) /\ In (fst kv) (chunks_around cur)).
  { intros kv. rewrite filter_In, existsb_exists. split.
    - intros (Hin & c & Hc & He). apply coord_eqb_eq in He. subst c. auto.
    - intros (Hin & Hc). split; [exact Hin|]. exists (fst kv).
      split; [exact Hc|]. now apply coord_eqb_eq. }
  split; [exact Hkeep|].
  eexists. split; [reflexivity|]. split.
  - apply NoDup_filter, chunks_around_NoDup.
  - intros c. rewrite filter_In, negb_true_iff.
    rewrite <- not_true_iff_false, is_loaded_spec, !in_map_iff. split.
    + intros (Hc & Hnot). split; [exact Hc|].
      intros (kv & He & Hin). apply Hnot. exists kv. split; [exact He|].
      apply Hkeep. subst c. auto.
    + intros (Hc & Hnot). split; [exact Hc|].
      intros (kv & He & Hin). apply Hnot. exists kv. split; [exact He|].
      now apply Hkeep in Hin.
Qed.

(** X2.  After [load_chunks_around] the loaded chunks are those that
    were loaded before and lie within [LOAD_DISTANCE] of the player's
    chunk on both axes, each with the record it had; and the queue has
    grown by the chunks of that 3 x 3 area that were not loaded, each of
    them once. *)
Theorem load_chunks_around_spec (player_pos : Vec2) (cm : ChunkManager) :
  let cur := get_chunk (fst player_pos) (snd player_pos) in
  let cm' := load_chunks_around player_pos cm in
  (forall kv, In kv (loaded_chunks cm')
              <-> In kv (loaded_chunks cm) /\ In (fst kv) (chunks_around cur))
  /\ exists added,
       load_queue cm' = load_queue cm ++ added
       /\ NoDup added
       /\ forall c, In c added
                    <-> In c (chunks_around cur)
                        /\ ~ In c (map fst (loaded_chunks cm)).
Proof. exact (load_chunks_around_effect player_pos cm). Qed.

Lemma NoDup_map_filter {A B : Type} (f : A -> B) (keep : A -> bool)
    (l : list A) :
  NoDup (map f l) -> NoDup (map f (filter keep l)).
Proof.
  induction l as [|a l IH]; simpl; intros Hdup; [constructor|].
  inversion Hdup; subst. destruct (keep a); [|now apply IH].
  simpl. constructor; [|now apply IH].
  intros Hin. apply H1. apply in_map_iff in Hin.
  destruct Hin as (a' & He & Hin). apply filter_In in Hin.
  apply in_map_iff. exists a'. tauto.
Qed.

Lemma load_chunks_around_wf (player_pos : Vec2) (cm : ChunkManager) :
  chunks_wf cm -> chunks_wf (load_chunks_around player_pos cm).
Proof.
  intros (Hdup & Hrec). unfold chunks_wf, load_chunks_around.
  cbn [loaded_chunks]. split.
  - now apply NoDup_map_filter.
  - intros c ch Hin. apply filter_In in Hin. now apply Hrec.
Qed.

Lemma chunk_loader_step_keys (cm cm' : ChunkManager) :
  chunk_loader_step cm = Some cm' ->
  exists c,
    load_queue cm = c :: load_queue cm'
    /\ (forall k, In k (map fst (loaded_chunks cm'))
                  <-> In k (map fst (loaded_chunks cm)) \/ k = c)
    /\ (chunks_wf cm -> chunks_wf cm').
Proof.
  unfold chunk_loader_step. destruct (load_queue cm) as [|c rest] eqn:Hq;
    [discriminate|].
  intros H. inversion H; subst cm'; clear H. exists c.
  cbn [load_queue loaded_chunks]. split; [reflexivity|].
  destruct (is_loaded c (loaded_chunks cm)) eqn:Hl.
  - apply is_loaded_spec in Hl. split.
    + intros k. split; [auto|]. intros [Hk | ->]; assumption.
    + auto.
  - assert (Hnot : ~ In c (map fst (loaded_chunks cm))).
    { intros Hin. apply is_loaded_spec in Hin. congruence. }
    split.
    + intros k. rewrite map_app, in_app_iff. simpl. intuition.
    + intros (Hdup & Hrec). unfold chunks_wf. cbn [loaded_chunks]. split.
      * rewrite map_app. simpl. apply NoDup_app; [exact Hdup| |].
        -- constructor; [intros []|constructor].
        -- intros k Hk [<- | []]. contradiction.
      * intros k ch Hin. apply in_app_or in Hin. destruct Hin as [Hin|Hin].
        -- now apply Hrec.
        -- destruct Hin as [Hin|[]]. now inversion Hin.
Qed.

(** X3.  The chunk dictionary stays well formed: it starts empty, and
    neither [load_chunks_around] nor an iteration of [chunk_loader]
    creates a second entry for a key or stores a record whose
    coordinates differ from its key. *)
Theorem chunks_wf_kept :
  chunks_wf init_chunk_manager
  /\ (forall player_pos cm,
        chunks_wf cm -> chunks_wf (load_chunks_around player_pos cm))
  /\ (forall cm cm',
        chunks_wf cm -> chunk_loader_step cm = Some cm' -> chunks_wf cm').
Proof.
  split; [|split].
  - split; [constructor|intros c ch []].
  - exact load_chunks_around_wf.
  - intros cm cm' Hwf Hstep.
    destruct (chunk_loader_step_keys cm cm' Hstep) as (c & _ & _ & H).
    now apply H.
Qed.

Lemma drain_spec (fuel : nat) (cm : ChunkManager) :
  (length (load_queue cm) <= fuel)%nat ->
  load_queue (drain fuel cm) = []
  /\ (forall k, In k (map fst (loaded_chunks (drain fuel cm)))
                <-> In k (map fst (loaded_chunks cm)) \/ In k (load_queue cm))
  /\ (chunks_wf cm -> chunks_wf (drain fuel cm)).
Proof.
  revert cm. induction fuel as [|fuel IH]; intros cm Hlen.
  - simpl. destruct (load_queue cm) eqn:Hq; [|simpl in Hlen; lia].
    split; [reflexivity|]. split; [|auto]. intros k. simpl. tauto.
  - simpl. destruct (chunk_loader_step cm) as [cm'|] eqn:Hstep.
    + destruct (chunk_loader_step_keys cm cm' Hstep) as (c & Hq & Hk & Hwf).
      destruct (IH cm') as (E & K & W).
      { rewrite Hq in Hlen. simpl in Hlen. lia. }
      split; [exact E|]. split; [|auto].
      intros k. rewrite K, Hk, Hq. simpl. intuition.
    + unfold chunk_loader_step in Hstep.
      destruct (load_queue cm) eqn:Hq; [|discriminate].
      split; [reflexivity|]. split; [|auto]. intros k. simpl. tauto.
Qed.

(** X4.  With nothing pending, [load_chunks_around] followed by the
    worker emptying the queue leaves exactly the 3 x 3 area around the
    player's chunk loaded: nine chunks, one per coordinate of the area,
    and an empty queue. *)
Theorem load_then_drain (player_pos : Vec2) (cm : ChunkManager) :
  chunks_wf cm -> load_queue cm = [] ->
  let cur := get_chunk (fst player_pos) (snd player_pos) in
  let cm' := drain 9 (load_chunks_around player_pos cm) in
  load_queue cm' = []
  /\ (forall c, In c (map fst (loaded_chunks cm')) <-> In c (chunks_around cur))
  /\ length (loaded_chunks cm') = 9%nat
  /\ chunks_wf cm'.
Proof.
  intros Hwf Hq cur cm'. subst cm'.
  destruct (load_chunks_around_effect player_pos cm)
    as (Hkeep & added & Ha & Hd & Hin).
  cbv zeta in Hkeep, Ha, Hin. fold cur in Hkeep, Hin.
  rewrite Hq, app_nil_l in Ha.
  assert (Hlen : (length added <= 9)%nat).
  { change 9%nat with (length (chunks_around cur)).
    apply NoDup_incl_length; [exact Hd|]. intros c Hc. now apply Hin. }
  destruct (drain_spec 9 (load_chunks_around player_pos cm)) as (E & K & W).
  { now rewrite Ha. }
  assert (Hmem : forall c,
            In c (map fst (loaded_chunks
                             (drain 9 (load_chunks_around player_pos cm))))
            <-> In c (chunks_around cur)).
  { intros c. rewrite K, Ha, Hin, in_map_iff. split.
    - intros [(kv & <- & Hkv) | (Hc & _)]; [|exact Hc]. now apply Hkeep.
    - intros Hc.
      destruct (is_loaded c (loaded_chunks cm)) eqn:Hl.
      2:{ right. split; [exact Hc|]. intros Hin'.
          apply is_loaded_spec in Hin'. congruence. }
      apply is_loaded_spec in Hl.
      left. apply in_map_iff in Hl. destruct Hl as (kv & <- & Hkv).
      exists kv. split; [reflexivity|]. apply Hkeep. auto. }
  assert (Hwf' : chunks_wf (drain 9 (load_chunks_around player_pos cm))).
  { apply W. now apply load_chunks_around_wf. }
  repeat split; try assumption; try apply Hmem; try apply Hwf'.
  rewrite <- (length_map fst).
  change 9%nat with (length (chunks_around cur)).
  apply Permutation_length, NoDup_Permutation;
    [apply Hwf'|apply chunks_around_NoDup|exact Hmem].
Qed.

(** X4 from the empty manager, the player at (12.5, 7). *)
Lemma load_then_drain_witness :
  load_queue (drain 9 (load_chunks_around (12.5, 7) init_chunk_manager)) = []
  /\ length (loaded_chunks
               (drain 9 (load_chunks_around (12.5, 7) init_chunk_manager)))
     = 9%nat.
Proof.
  destruct (load_then_drain (12.5, 7) init_chunk_manager) as (Hq & _ & Hl & _).
  - split; [constructor|intros c ch []].
  - reflexivity.
  - split; [exact Hq|exact Hl].
Defined.

(** ** Terrain sampling *)

Lemma int_inside (x : R) (n : positive) :
  0 <= x < IZR (Z.pos n) -> (0 <= int x < Z.pos n)%Z.
Proof.
  intros (H0 & Hn). unfold int. destruct (Rle_dec 0 x); [|contradiction].
  pose proof (Zfloor_bound x) as (Hlo & Hhi). split.
  - apply Zfloor_lub. exact H0.
  - apply lt_IZR. lra.
Qed.

(** X5.  The collision sampler reads the height map only at cells of
    the grid, wherever the position is: on two maps of one shape that
    agree on every cell of the grid it returns the same height. *)
Theorem collision_check_reads_grid_only (INFINITE_MAP : bool) (pos : Vec2)
    (hm1 hm2 : HeightMap) :
  hm_shape0 hm1 = hm_shape0 hm2 -> hm_shape1 hm1 = hm_shape1 hm2 ->
  (forall x y, (0 <= x < Z.pos (hm_shape0 hm1))%Z ->
               (0 <= y < Z.pos (hm_shape1 hm1))%Z ->
               hm_at hm1 x y = hm_at hm2 x y) ->
  optimized_collision_check INFINITE_MAP pos hm1
  = optimized_collision_check INFINITE_MAP pos hm2.
Proof.
  intros H0 H1 Hcells. unfold optimized_collision_check.
  rewrite <- H0, <- H1. destruct INFINITE_MAP.
  - apply Hcells; apply Z.mod_pos_bound; lia.
  - apply Hcells.
    + destruct (int (fst pos) <? 0)%Z eqn:E; [lia|]. apply Z.ltb_ge in E.
      destruct (int (fst pos) >=? Z.pos (hm_shape0 hm1))%Z eqn:E'; lia.
    + destruct (int (snd pos) <? 0)%Z eqn:E; [lia|]. apply Z.ltb_ge in E.
      destruct (int (snd pos) >=? Z.pos (hm_shape1 hm1))%Z eqn:E'; lia.
Qed.

(** X6.  At a position inside the map, [0 <= x < W] and [0 <= y < H],
    the wrapping and the bounded sampler read the same cell,
    [(int(x), int(y))]. *)
Theorem collision_check_policies_agree (pos : Vec2) (hm : HeightMap) :
  0 <= fst pos < IZR (Z.pos (hm_shape0 hm)) ->
  0 <= snd pos < IZR (Z.pos (hm_shape1 hm)) ->
  optimized_collision_check true pos hm = hm_at hm (int (fst pos)) (int (snd pos))
  /\ optimized_collision_check false pos hm
     = hm_at hm (int (fst pos)) (int (snd pos)).
Proof.
  intros Hx Hy. apply int_inside in Hx, Hy.
  unfold optimized_collision_check. split.
  - now rewrite !Z.mod_small.
  - destruct (int (fst pos) <? 0)%Z eqn:E0; [lia|].
    destruct (int (fst pos) >=? Z.pos (hm_shape0 hm))%Z eqn:E1; [lia|].
    destruct (int (snd pos) <? 0)%Z eqn:E2; [lia|].
    destruct (int (snd pos) >=? Z.pos (hm_shape1 hm))%Z eqn:E3; [lia|].
    reflexivity.
Qed.

Lemma collision_check_reads_grid_only_witness :
  optimized_collision_check false (-3, 7.5) flat4
  = optimized_collision_check false (-3, 7.5) cliff4_far.
Proof.
  apply collision_check_reads_grid_only; try reflexivity.
  intros x y Hx Hy. simpl in *.
  destruct (y =? 9)%Z eqn:E; [lia|]. now rewrite andb_false_r.
Defined.

Lemma collision_check_policies_agree_witness :
  optimized_collision_check true (1.5, 2) cliff4 = hm_at cliff4 (int 1.5) (int 2)
  /\ optimized_collision_check false (1.5, 2) cliff4
     = hm_at cliff4 (int 1.5) (int 2).
Proof.
  apply (collision_check_policies_agree (1.5, 2) cliff4); simpl; lra.
Defined.

(** ** More on the player controller *)

Lemma update_player_eq im hm (p : Player) mr dd dt ws pl :
  ws <> 0 ->
  update_player im hm p mr dd dt ws pl
  = Some (update_player_body im hm (mouse_look p mr dt) pl dt ws (1 / ws)).
Proof.
  intros Hws. unfold update_player.
  destruct (Req_dec_T ws 0); [contradiction|reflexivity].
Qed.

Lemma clamp_pitch_range (x : R) : PITCH_MIN <= clamp_pitch x <= PITCH_MAX.
Proof.
  unfold clamp_pitch, PITCH_MIN, PITCH_MAX.
  unfold Rmax, Rmin. destruct (Rle_dec x 1000); destruct (Rle_dec _ (-1000)); lra.
Qed.

Lemma flying_toggle_pitch (p : Player) k t sf :
  pitch (flying_toggle p k t sf) = pitch p.
Proof.
  unfold flying_toggle.
  destruct (flying p), (K_SPACE k), (space_pressed_prev p),
    (t - last_space_press p <? 300)%Z, (is_on_ground p); reflexivity.
Qed.

Lemma gravity_step_pitch im hm (p : Player) dt sf ws :
  pitch (gravity_step im hm p dt sf ws) = pitch p.
Proof.
  unfold gravity_step. destruct (flying p); simpl; [reflexivity|].
  destruct (Rlt_dec _ _); reflexivity.
Qed.

(** X7.  Whenever [update_player] returns, the pitch it leaves is
    within [[PITCH_MIN, PITCH_MAX]], whatever the pitch, the pitch
    velocity and the mouse motion were. *)
Theorem update_player_pitch_range im hm (p : Player) (mouse_rel : Z * Z)
    (draw_distance : Z) (dt world_scale : R) (pl : Polled) :
  world_scale <> 0 ->
  exists p',
    update_player im hm p mouse_rel draw_distance dt world_scale pl = Some p'
    /\ PITCH_MIN <= pitch p' <= PITCH_MAX.
Proof.
  intros Hws. rewrite update_player_eq by exact Hws.
  eexists; split; [reflexivity|]. unfold update_player_body.
  rewrite gravity_step_pitch, flying_toggle_pitch.
  unfold pitch_update. simpl. apply clamp_pitch_range.
Qed.

Lemma update_player_pitch_range_witness :
  exists p',
    update_player false flat4 rested (0, -900000)%Z 5000 (1 / 60) 1
      (idle_at 1000) = Some p'
    /\ PITCH_MIN <= pitch p' <= PITCH_MAX.
Proof.
  apply (update_player_pitch_range false flat4 rested (0, -900000)%Z 5000
           (1 / 60) 1 (idle_at 1000)).
  lra.
Defined.

Lemma norm_normalized (v : Vec2) :
  norm v <> 0 -> norm (fst v / norm v, snd v / norm v) = 1.
Proof.
  intros E.
  assert (Hn : 0 < norm v) by (pose proof (norm_nonneg v); lra).
  assert (Hsq : norm v * norm v = fst v * fst v + snd v * snd v).
  { unfold norm. apply sqrt_sqrt. nra. }
  set (n := norm v) in *. unfold norm. cbn [fst snd].
  replace (fst v / n * (fst v / n) + snd v / n * (snd v / n)) with 1.
  - apply sqrt_1.
  - replace (fst v / n * (fst v / n) + snd v / n * (snd v / n))
      with ((fst v * fst v + snd v * snd v) / (n * n)) by (field; lra).
    rewrite <- Hsq. field. lra.
Qed.

Lemma input_vector_norm (k : Keys) (mb0 : bool) :
  norm (input_vector k mb0) = 0 \/ norm (input_vector k mb0) = 1.
Proof.
  unfold input_vector. cbv zeta.
  match goal with
  | |- context [Req_dec_T (norm ?v) 0] =>
      destruct (Req_dec_T (norm v) 0) as [E|E];
      [now left|right; exact (norm_normalized v E)]
  end.
Qed.

Lemma normalized_signs (w : Vec2) :
  let v := if Req_dec_T (norm w) 0 then w
           else (fst w / norm w, snd w / norm w) in
  (fst w = 0 -> fst v = 0) /\ (0 < fst w -> 0 < fst v)
  /\ (fst w < 0 -> fst v < 0)
  /\ (snd w = 0 -> snd v = 0) /\ (0 < snd w -> 0 < snd v)
  /\ (snd w < 0 -> snd v < 0).
Proof.
  cbv zeta. destruct (Req_dec_T (norm w) 0) as [E|E]; [tauto|].
  assert (Hn : 0 < / norm w).
  { apply Rinv_0_lt_compat. pose proof (norm_nonneg w). lra. }
  cbn [fst snd]. unfold Rdiv.
  repeat match goal with |- _ /\ _ => split end;
    intros H; try (rewrite H; ring); nra.
Qed.

Lemma norm_zero_components (v : Vec2) : norm v = 0 -> fst v = 0 /\ snd v = 0.
Proof.
  unfold norm. intros H. apply sqrt_eq_0 in H; [|nra]. nra.
Qed.

(** X8.  The movement input is the zero vector or a unit vector, so keys
    held together on both axes do not make the player accelerate faster
    than a single key does.  Opposite keys cancel: with A and D both
    held or both released the sideways component is 0, and likewise the
    forward component for W (or the left mouse button) and S; the input
    is the zero vector exactly when both axes cancel.  Otherwise D
    pushes towards positive [input_vec[0]] and A towards negative, W or
    the mouse button towards positive [input_vec[1]] and S towards
    negative. *)
Theorem input_vector_unit_or_zero (k : Keys) (mb0 : bool) :
  let v := input_vector k mb0 in
  let forward := K_w k || mb0 in
  (norm v = 0 \/ norm v = 1)
  /\ (K_a k = K_d k -> fst v = 0)
  /\ (forward = K_s k -> snd v = 0)
  /\ (K_d k = true -> K_a k = false -> 0 < fst v)
  /\ (K_a k = true -> K_d k = false -> fst v < 0)
  /\ (forward = true -> K_s k = false -> 0 < snd v)
  /\ (K_s k = true -> forward = false -> snd v < 0)
  /\ (norm v = 0 <-> K_a k = K_d k /\ forward = K_s k).
Proof.
  intros v forward.
  pose proof (input_vector_norm k mb0) as Hn. fold v in Hn.
  assert (Hsign :
    (K_a k = K_d k -> fst v = 0)
    /\ (forward = K_s k -> snd v = 0)
    /\ (K_d k = true -> K_a k = false -> 0 < fst v)
    /\ (K_a k = true -> K_d k = false -> fst v < 0)
    /\ (forward = true -> K_s k = false -> 0 < snd v)
    /\ (K_s k = true -> forward = false -> snd v < 0)).
  { unfold v, forward, input_vector. cbv zeta.
    match goal with
    | |- context [Req_dec_T (norm ?w) 0] =>
        pose proof (normalized_signs w) as S0; cbv zeta in S0;
        destruct S0 as (S1 & S2 & S3 & S4 & S5 & S6)
    end.
    destruct (K_w k || mb0), (K_s k), (K_a k), (K_d k);
      cbn [fst snd] in S1, S2, S3, S4, S5, S6;
      repeat match goal with |- _ /\ _ => split end; intros;
      try discriminate;
      first [apply S1|apply S2|apply S3|apply S4|apply S5|apply S6]; lra. }
  destruct Hsign as (C0 & C1 & P0 & N0 & P1 & N1).
  split; [exact Hn|].
  repeat match goal with |- _ /\ _ => split end; try assumption.
  split.
  - intros Hz. destruct (norm_zero_components v Hz) as (Hz0 & Hz1).
    split.
    + destruct (K_a k) eqn:Ea, (K_d k) eqn:Ed; try reflexivity; exfalso.
      * specialize (N0 eq_refl eq_refl). lra.
      * specialize (P0 eq_refl eq_refl). lra.
    + destruct forward eqn:Ef, (K_s k) eqn:Es; try reflexivity; exfalso.
      * specialize (P1 eq_refl eq_refl). lra.
      * specialize (N1 eq_refl eq_refl). lra.
  - intros (Ha & Hf). unfold norm. rewrite (C0 Ha), (C1 Hf).
    replace (0 * 0 + 0 * 0) with 0 by ring. apply sqrt_0.
Qed.

Lemma norm_triangle (u v : Vec2) :
  norm (fst u + fst v, snd u + snd v) <= norm u + norm v.
Proof.
  pose proof (norm_nonneg u) as Hu. pose proof (norm_nonneg v) as Hv.
  assert (Hu2 : norm u * norm u = fst u * fst u + snd u * snd u).
  { unfold norm. apply sqrt_sqrt. nra. }
  assert (Hv2 : norm v * norm v = fst v * fst v + snd v * snd v).
  { unfold norm. apply sqrt_sqrt. nra. }
  pose proof (sqrt_cauchy (fst u) (snd u) (fst v) (snd v)) as Hc.
  unfold Rsqr in Hc. fold (norm u) in Hc. fold (norm v) in Hc.
  rewrite <- (sqrt_square (norm u + norm v)) by lra.
  unfold norm at 1. cbn [fst snd]. apply sqrt_le_1_alt. nra.
Qed.

Lemma norm_scale_abs (v : Vec2) (k : R) :
  norm (fst v * k, snd v * k) = Rabs k * norm v.
Proof.
  unfold norm. cbn [fst snd].
  replace (fst v * k * (fst v * k) + snd v * k * (snd v * k))
    with (Rsqr k * (fst v * fst v + snd v * snd v)) by (unfold Rsqr; ring).
  rewrite sqrt_mult_alt by apply Rle_0_sqr.
  now rewrite sqrt_Rsqr_abs.
Qed.

Lemma norm_le_components (a b a' b' : R) :
  Rabs a' <= Rabs a -> Rabs b' <= Rabs b -> norm (a', b') <= norm (a, b).
Proof.
  intros Ha Hb. unfold norm. cbn [fst snd]. apply sqrt_le_1_alt.
  apply Rsqr_le_abs_1 in Ha, Hb. unfold Rsqr in *. lra.
Qed.

Lemma Rmax_0_abs (x : R) : Rabs (Rmax 0 x) <= Rabs x.
Proof.
  unfold Rmax. destruct (Rle_dec 0 x); [lra|].
  rewrite Rabs_R0. apply Rabs_pos.
Qed.

Lemma Rmin_0_abs (x : R) : Rabs (Rmin 0 x) <= Rabs x.
Proof.
  unfold Rmin. destruct (Rle_dec 0 x); [|lra].
  rewrite Rabs_R0. apply Rabs_pos.
Qed.

(** The boundary step does not raise the speed. *)
Lemma clamp_position_speed im hm (p : Player) :
  norm (vel (clamp_position im hm p)) <= norm (vel p).
Proof.
  replace (norm (vel p)) with (norm (fst (vel p), snd (vel p)))
    by (destruct (vel p); reflexivity).
  unfold clamp_position. destruct im; simpl.
  { destruct (vel p); simpl; lra. }
  pose proof (Rmax_0_abs (fst (vel p))). pose proof (Rmin_0_abs (fst (vel p))).
  pose proof (Rmax_0_abs (snd (vel p))). pose proof (Rmin_0_abs (snd (vel p))).
  pose proof (Rle_refl (Rabs (fst (vel p)))).
  pose proof (Rle_refl (Rabs (snd (vel p)))).
  destruct (Rlt_dec (fst (pos p)) 0); [|destruct (Rge_dec (fst (pos p)) _)];
    simpl;
    (destruct (Rlt_dec _ 0); [|destruct (Rge_dec _ _)]); simpl;
    try (apply norm_le_components; assumption).
Qed.

Lemma update_player_body_vel im hm (p : Player) pl dt ws sf :
  vel (update_player_body im hm p pl dt ws sf)
  = vel (clamp_position im hm
           (horizontal_move p (keys pl) (mouse_button0 pl) dt sf)).
Proof.
  unfold update_player_body.
  rewrite gravity_step_vel.
  rewrite (proj2 (proj2 (flying_toggle_frame _ _ _ _))).
  rewrite (proj1 (proj2 (proj2 (pitch_update_frame _ _ _)))).
  rewrite (proj1 (proj2 (terrain_collision_frame im hm _ _))).
  now rewrite (proj1 (proj2 (vertical_move_frame _ _ _ _))).
Qed.

(** X9.  One call of [update_player] raises the horizontal speed by at
    most the acceleration of a full input and then damps it: the speed
    it returns is at most
    [(speed + ACCELERATION * |dt * 60 / world_scale|) * DAMPING ** (dt * 60)].
    So a speed limit [L] that this bound maps below itself is never
    exceeded once the speed is below it. *)
Theorem update_player_speed_bound im hm (p : Player) (mouse_rel : Z * Z)
    (draw_distance : Z) (dt world_scale : R) (pl : Polled) :
  world_scale <> 0 ->
  let a := ACCELERATION * Rabs (dt * 60 * (1 / world_scale)) in
  let r := Rpower DAMPING (dt * 60) in
  exists p',
    update_player im hm p mouse_rel draw_distance dt world_scale pl = Some p'
    /\ norm (vel p') <= (norm (vel p) + a) * r
    /\ forall L, norm (vel p) <= L -> (L + a) * r <= L -> norm (vel p') <= L.
Proof.
  intros Hws a r. rewrite update_player_eq by exact Hws.
  eexists; split; [reflexivity|].
  assert (Hr : 0 < r) by apply exp_pos.
  assert (Hmain : norm (vel (update_player_body im hm
                               (mouse_look p mouse_rel dt) pl dt world_scale
                               (1 / world_scale)))
                  <= (norm (vel p) + a) * r).
  { rewrite update_player_body_vel.
    eapply Rle_trans; [apply clamp_position_speed|].
    unfold horizontal_move. simpl vel. fold r.
    set (iv := input_vector (keys pl) (mouse_button0 pl)).
    set (K := ACCELERATION * dt * 60 * (1 / world_scale)).
    replace (fst (vel p) + fst iv * ACCELERATION * dt * 60 * (1 / world_scale))
      with (fst (vel p) + fst (fst iv * K, snd iv * K))
      by (unfold K; simpl; ring).
    replace (snd (vel p) + snd iv * ACCELERATION * dt * 60 * (1 / world_scale))
      with (snd (vel p) + snd (fst iv * K, snd iv * K))
      by (unfold K; simpl; ring).
    set (u := (fst iv * K, snd iv * K)).
    pose proof (norm_scale (fst (vel p) + fst u, snd (vel p) + snd u) r)
      as Hs.
    cbn [fst snd] in Hs. rewrite Hs by lra. clear Hs.
    rewrite Rmult_comm. apply Rmult_le_compat_r; [lra|].
    eapply Rle_trans; [apply norm_triangle|].
    apply Rplus_le_compat_l. unfold u. rewrite norm_scale_abs.
    assert (HK : Rabs K = a).
    { unfold K, a, ACCELERATION.
      replace (2 * dt * 60 * (1 / world_scale))
        with (2 * (dt * 60 * (1 / world_scale))) by ring.
      rewrite Rabs_mult, (Rabs_pos_eq 2) by lra. reflexivity. }
    rewrite HK.
    assert (Ha : 0 <= a).
    { unfold a, ACCELERATION.
      pose proof (Rabs_pos (dt * 60 * (1 / world_scale))). lra. }
    destruct (input_vector_norm (keys pl) (mouse_button0 pl)) as [E|E];
      fold iv in E; rewrite E; lra. }
  split; [exact Hmain|].
  intros L HL Hcap. eapply Rle_trans; [exact Hmain|].
  eapply Rle_trans; [|exact Hcap].
  apply Rmult_le_compat_r; lra.
Qed.

Lemma update_player_speed_bound_witness :
  exists p',
    update_player false flat100 coasting (0, 0)%Z 5000 (1 / 60) 1
      (idle_at 1000) = Some p'
    /\ norm (vel p')
       <= (norm (vel coasting) + ACCELERATION * Rabs (1 / 60 * 60 * (1 / 1)))
          * Rpower DAMPING (1 / 60 * 60).
Proof.
  destruct (update_player_speed_bound false flat100 coasting (0, 0)%Z 5000
              (1 / 60) 1 (idle_at 1000)) as (p' & Hp' & Hb & _); [lra|].
  exists p'. split; [exact Hp'|exact Hb].
Defined.

(** X10.  When [update_player] returns a player that is not flying and
    is marked as on the ground, that player stands exactly on the floor
    of its position, [sampleHeight * world_scale + 40 * world_scale],
    with [velocity_y = 0]. *)
Theorem grounded_means_on_floor im hm (p : Player) (mouse_rel : Z * Z)
    (draw_distance : Z) (dt world_scale : R) (pl : Polled) :
  world_scale <> 0 ->
  exists p',
    update_player im hm p mouse_rel draw_distance dt world_scale pl = Some p'
    /\ (flying p' = false -> is_on_ground p' = true ->
        height p'
        = IZR (optimized_collision_check im (pos p') hm) * world_scale
          + 40 * world_scale
        /\ velocity_y p' = 0).
Proof.
  intros Hws. rewrite update_player_eq by exact Hws.
  eexists; split; [reflexivity|]. unfold update_player_body.
  set (r := flying_toggle _ _ _ _). unfold gravity_step.
  destruct (flying r) eqn:Hf; simpl.
  - intros Hf'. congruence.
  - destruct (Rlt_dec _ _); simpl.
    + intros _ _. split; reflexivity.
    + intros _ Hg. discriminate.
Qed.

Lemma grounded_means_on_floor_witness :
  exists p',
    update_player false flat4 rested (0, 0)%Z 5000 (1 / 60) 1 (idle_at 1000)
    = Some p'
    /\ (flying p' = false -> is_on_ground p' = true ->
        height p' = IZR (optimized_collision_check false (pos p') flat4) * 1
                    + 40 * 1
        /\ velocity_y p' = 0).
Proof.
  apply (grounded_means_on_floor false flat4 rested (0, 0)%Z 5000 (1 / 60) 1
           (idle_at 1000)).
  lra.
Defined.

Lemma flying_toggle_gravity (p : Player) k t sf :
  gravity (flying_toggle p k t sf) = gravity p.
Proof.
  unfold flying_toggle.
  destruct (flying p), (K_SPACE k), (space_pressed_prev p),
    (t - last_space_press p <? 300)%Z, (is_on_ground p); reflexivity.
Qed.

(** The branches of the toggle for a flying player. *)
Lemma flying_toggle_cases_flying (p : Player) (k : Keys) (t : Z) (sf : R) :
  flying p = true ->
  let q := flying_toggle p k t sf in
  (K_SPACE k = true -> space_pressed_prev p = false ->
   (t - last_space_press p < 300)%Z ->
   flying q = false /\ velocity_y q = 0 /\ is_on_ground q = is_on_ground p
   /\ last_space_press q = t)
  /\ (K_SPACE k = true -> space_pressed_prev p = false ->
      (300 <= t - last_space_press p)%Z ->
      flying q = true /\ velocity_y q = velocity_y p
      /\ is_on_ground q = is_on_ground p /\ last_space_press q = t)
  /\ (K_SPACE k = false \/ space_pressed_prev p = true ->
      flying q = true /\ velocity_y q = velocity_y p
      /\ is_on_ground q = is_on_ground p
      /\ last_space_press q = last_space_press p).
Proof.
  intros Hf. unfold flying_toggle. rewrite Hf. simpl negb. cbv iota zeta.
  split; [|split].
  - intros -> -> Ht. apply Z.ltb_lt in Ht. rewrite Ht. simpl. auto.
  - intros -> -> Ht. apply Z.ltb_ge in Ht. rewrite Ht. simpl. auto.
  - intros [-> | ->]; simpl; [auto|].
    rewrite andb_false_r. simpl. auto.
Qed.

(** X12.  For a flying player, a jump-key down-edge less than 300 ms
    after the recorded press ends the flight within the same call:
    [update_player] returns a player that is not flying and that gravity
    has already acted on, falling with [velocity_y = - gravity * dt * 60]
    or put on the floor with [velocity_y = 0]; a down-edge that comes
    later only records its time and the player keeps flying with its
    [velocity_y]. *)
Theorem flying_double_tap_lands im hm (p : Player) (mouse_rel : Z * Z)
    (draw_distance : Z) (dt world_scale : R) (pl : Polled) :
  world_scale <> 0 -> flying p = true ->
  K_SPACE (keys pl) = true -> space_pressed_prev p = false ->
  exists p',
    update_player im hm p mouse_rel draw_distance dt world_scale pl = Some p'
    /\ last_space_press p' = current_time pl
    /\ ((current_time pl - last_space_press p < 300)%Z ->
        flying p' = false
        /\ ((velocity_y p' = - gravity p * dt * 60 /\ is_on_ground p' = false)
            \/ (velocity_y p' = 0 /\ is_on_ground p' = true)))
    /\ ((300 <= current_time pl - last_space_press p)%Z ->
        flying p' = true /\ velocity_y p' = velocity_y p
        /\ is_on_ground p' = is_on_ground p).
Proof.
  intros Hws Hf Hk Hprev.
  destruct (flying_toggle_cases_flying p (keys pl) (current_time pl)
              (1 / world_scale) Hf) as (Hoff & Hon & _).
  rewrite update_player_eq by exact Hws.
  eexists; split; [reflexivity|]. unfold update_player_body.
  pose proof (flying_toggle_same _ _ (keys pl) (current_time pl)
                (1 / world_scale)
                (before_toggle_same im hm p mouse_rel dt world_scale
                   (1 / world_scale) pl))
    as (E1 & E2 & _ & E4 & E5 & _ & E7).
  rewrite (flying_toggle_gravity p) in E7.
  set (r := flying_toggle (pitch_update _ _ _) _ _ _) in *.
  destruct (gravity_step_toggle_fields im hm r dt (1 / world_scale)
              world_scale) as (G1 & G2 & _).
  rewrite G1, G2, E1, E2.
  destruct (Z.lt_ge_cases (current_time pl - last_space_press p) 300)
    as [Ht|Ht].
  - destruct (Hoff Hk Hprev Ht) as (F1 & F2 & F3 & F4).
    split; [exact F4|]. split; [|intros; lia].
    intros _. split; [exact F1|].
    unfold gravity_step. rewrite E1, F1. simpl negb. cbv iota. simpl.
    rewrite E5, F2, E7.
    destruct (Rlt_dec _ _); simpl; [right; auto|left; split; [lra|reflexivity]].
  - destruct (Hon Hk Hprev Ht) as (F1 & F2 & F3 & F4).
    split; [exact F4|]. split; [intros; lia|].
    intros _. split; [exact F1|].
    rewrite gravity_step_flying by congruence. split; congruence.
Qed.

Lemma flying_double_tap_lands_witness :
  exists p',
    update_player false flat4 airborne (0, 0)%Z 5000 (1 / 60) 1
      (space_at 1100) = Some p'
    /\ flying p' = false.
Proof.
  destruct (flying_double_tap_lands false flat4 airborne (0, 0)%Z 5000
              (1 / 60) 1 (space_at 1100)) as (p' & Hp' & _ & Hoff & _);
    try reflexivity; [lra|].
  exists p'. split; [exact Hp'|]. apply Hoff. simpl. lia.
Defined.

Lemma clamp_position_v_vel im hm (p : Player) :
  v_vel (clamp_position im hm p) = v_vel p.
Proof.
  unfold clamp_position. destruct im; simpl; [reflexivity|].
  destruct (Rlt_dec (fst (pos p)) 0); [|destruct (Rge_dec (fst (pos p)) _)];
    simpl;
    (destruct (Rlt_dec _ 0); [|destruct (Rge_dec _ _)]); reflexivity.
Qed.

Lemma before_vertical_move im hm (p : Player) mr k mb dt sf :
  let q := clamp_position im hm (horizontal_move (mouse_look p mr dt) k mb dt sf) in
  v_vel q = v_vel p /\ height q = height p.
Proof.
  cbv zeta. rewrite clamp_position_v_vel.
  rewrite (proj1 (clamp_position_frame im hm _)). split; reflexivity.
Qed.

Lemma flying_toggle_v_vel (p : Player) k t sf :
  v_vel (flying_toggle p k t sf) = v_vel p.
Proof.
  unfold flying_toggle.
  destruct (flying p), (K_SPACE k), (space_pressed_prev p),
    (t - last_space_press p <? 300)%Z, (is_on_ground p); reflexivity.
Qed.

(** X11.  A flying player with no vertical key held and no vertical
    speed hovers: [update_player] returns it still flying, with its
    [velocity_y] untouched, at its old eye height or, where the terrain
    under its new position reaches higher, on that floor. *)
Theorem flying_hover im hm (p : Player) (mouse_rel : Z * Z)
    (draw_distance : Z) (dt world_scale : R) (pl : Polled) :
  world_scale <> 0 -> flying p = true -> v_vel p = 0 ->
  K_SPACE (keys pl) = false -> K_LSHIFT (keys pl) = false ->
  K_RSHIFT (keys pl) = false ->
  exists p',
    update_player im hm p mouse_rel draw_distance dt world_scale pl = Some p'
    /\ flying p' = true /\ v_vel p' = 0
    /\ velocity_y p' = velocity_y p
    /\ height p'
       = Rmax (height p)
           (IZR (optimized_collision_check im (pos p') hm) * world_scale
            + 40 * world_scale).
Proof.
  intros Hws Hf Hv Hk Hl Hr.
  destruct (flying_toggle_cases_flying p (keys pl) (current_time pl)
              (1 / world_scale) Hf) as (_ & _ & Hstay).
  destruct Hstay as (F1 & F2 & _); [now left|].
  rewrite update_player_eq by exact Hws.
  eexists; split; [reflexivity|]. unfold update_player_body.
  pose proof (flying_toggle_same _ _ (keys pl) (current_time pl)
                (1 / world_scale)
                (before_toggle_same im hm p mouse_rel dt world_scale
                   (1 / world_scale) pl))
    as (E1 & _ & _ & _ & E5 & _).
  destruct (before_vertical_move im hm p mouse_rel (keys pl)
              (mouse_button0 pl) dt (1 / world_scale)) as (B1 & B2).
  set (q0 := clamp_position im hm _) in *.
  set (q2 := terrain_collision im hm (vertical_move q0 _ _ _) world_scale) in *.
  set (r := flying_toggle (pitch_update q2 _ _) _ _ _) in *.
  rewrite gravity_step_flying by congruence.
  assert (Hpos : pos r = pos q2).
  { unfold r. rewrite (proj1 (flying_toggle_frame _ _ _ _)).
    now rewrite (proj1 (pitch_update_frame _ _ _)). }
  assert (Hh : height r = height q2).
  { unfold r. rewrite (proj1 (proj2 (flying_toggle_frame _ _ _ _))).
    now rewrite (proj1 (proj2 (pitch_update_frame _ _ _))). }
  assert (Hvv : v_vel r = v_vel q2).
  { unfold r. now rewrite flying_toggle_v_vel. }
  split; [congruence|]. rewrite Hvv, Hh, Hpos, E5, F2.
  unfold q2, terrain_collision, vertical_move.
  rewrite Hk, Hl, Hr. simpl. rewrite B1, B2, Hv.
  destruct (Rlt_dec _ _) as [Hlt|Hge]; simpl.
  - repeat split. unfold Rmax. destruct (Rle_dec _ _); [reflexivity|lra].
  - repeat split; [ring|].
    unfold Rmax. destruct (Rle_dec _ _); lra.
Qed.

Lemma flying_hover_witness :
  exists p',
    update_player false flat4 airborne (0, 0)%Z 5000 (1 / 60) 1
      (idle_at 1100) = Some p'
    /\ flying p' = true /\ v_vel p' = 0
    /\ velocity_y p' = velocity_y airborne
    /\ height p'
       = Rmax (height airborne)
           (IZR (optimized_collision_check false (pos p') flat4) * 1 + 40 * 1).
Proof.
  apply (flying_hover false flat4 airborne (0, 0)%Z 5000 (1 / 60) 1
           (idle_at 1100)); try reflexivity.
  lra.
Defined.

(** ** More on the raycaster *)

Section RayMore.

Variable INFINITE_MAP : bool.
Variable base_height_map : HeightMap.
Variable base_color_map : ColorMap.
Variable screen_array0 : Screen.
Variable player_pos : Vec2.
Variables player_angle player_height player_pitch : R.
Variables screen_width screen_height : Z.
Variable delta_angle : R.
Variable ray_distance : Z.
Variables h_fov scale_height world_scale : R.

Local Abbreviation cell := (sample_cell INFINITE_MAP base_height_map player_pos).
Local Abbreviation proj :=
  (project base_height_map player_angle player_height player_pitch
     scale_height world_scale).
Local Abbreviation step :=
  (march_step INFINITE_MAP base_height_map base_color_map player_pos
     player_angle player_height player_pitch screen_height scale_height
     world_scale).
Local Abbreviation marching :=
  (march INFINITE_MAP base_height_map base_color_map player_pos
     player_angle player_height player_pitch screen_height scale_height
     world_scale).
Local Abbreviation column :=
  (march_column INFINITE_MAP base_height_map base_color_map player_pos
     player_angle player_height player_pitch screen_height ray_distance
     scale_height world_scale).
Local Abbreviation casting :=
  (cast INFINITE_MAP base_height_map base_color_map screen_array0 player_pos
     player_angle player_height player_pitch screen_height delta_angle
     ray_distance h_fov scale_height world_scale).
Local Abbreviation the_cast :=
  (ray_casting INFINITE_MAP base_height_map base_color_map screen_array0
     player_pos player_angle player_height player_pitch screen_width
     screen_height delta_angle ray_distance h_fov scale_height world_scale).

(** *** No exception inside the field of view *)

Lemma march_step_not_raised (c : Z) (a : R) (depth : Z) (m : March) :
  cos (player_angle - a) <> 0 -> depth <> 0%Z ->
  flow (step c a depth m) <> Raised.
Proof.
  intros Hcos Hd. unfold march_step.
  destruct (cell a depth) as [[x y]|]; simpl; [|discriminate].
  destruct (Req_dec_T _ 0) as [E|E]; simpl; [|discriminate].
  exfalso. apply Rmult_integral in E. destruct E as [E|E]; [|contradiction].
  apply eq_IZR_R0 in E. contradiction.
Qed.

Lemma march_not_raised (c : Z) (a : R) (st0 : RayState) (n : nat) :
  cos (player_angle - a) <> 0 -> flow (marching c a st0 n) <> Raised.
Proof.
  intros Hcos. induction n as [|n IH]; [discriminate|].
  rewrite march_succ. destruct (flow (marching c a st0 n)) eqn:E.
  - apply march_step_not_raised; [exact Hcos|lia].
  - rewrite E. discriminate.
  - contradiction.
Qed.

Lemma cast_fan (k : nat) :
  (forall j, (j < k)%nat ->
             cos (player_angle - (player_angle - h_fov + INR j * delta_angle))
             <> 0) ->
  raised (casting k) = false
  /\ ray_angle_of (casting k) = player_angle - h_fov + INR k * delta_angle.
Proof.
  induction k as [|k IH]; intros Hcos.
  - simpl. split; [reflexivity|ring].
  - destruct IH as (Hr & Ha); [intros j Hj; apply Hcos; lia|].
    rewrite cast_succ, Hr. cbv zeta.
    pose proof (march_not_raised (Z.of_nat k) (ray_angle_of (casting k))
                  (state (casting k)) (Z.to_nat (ray_distance - 1))) as Hm.
    rewrite Ha in Hm. specialize (Hm (Hcos k (Nat.lt_succ_diag_r k))).
    rewrite <- Ha in Hm. unfold march_column.
    destruct (flow _) eqn:E; cbn [raised ray_angle_of];
      [| |exfalso; apply Hm; reflexivity];
      (split; [reflexivity|rewrite Ha, S_INR; ring]).
Qed.

Lemma fan_not_raised :
  0 <= delta_angle -> IZR (Z.max 0 screen_width) * delta_angle <= 2 * h_fov ->
  h_fov < PI / 2 ->
  raised the_cast = false
  /\ ray_angle_of the_cast
     = player_angle - h_fov + IZR (Z.max 0 screen_width) * delta_angle.
Proof.
  intros Hd Hw Hh. unfold ray_casting.
  assert (HI : INR (Z.to_nat screen_width) = IZR (Z.max 0 screen_width)).
  { rewrite INR_IZR_INZ. f_equal. lia. }
  rewrite <- HI in *. apply cast_fan. intros j Hj.
  replace (player_angle - (player_angle - h_fov + INR j * delta_angle))
    with (h_fov - INR j * delta_angle) by ring.
  assert (Hj' : 0 <= INR j <= INR (Z.to_nat screen_width)).
  { split; [apply pos_INR|]. apply le_INR. lia. }
  apply Rgt_not_eq, cos_gt_0; nra.
Qed.

(** X14.  [ray_casting] raises no [ZeroDivisionError] when the fan of
    ray angles stays inside a half turn: for a non-negative
    [delta_angle], [screen_width * delta_angle <= 2 * h_fov] and
    [h_fov < pi/2], whatever the player, the terrain and the draw
    distance; and the ray angle it ends on is
    [player_angle - h_fov + screen_width * delta_angle]. *)
Theorem ray_casting_fan_never_raises :
  0 <= delta_angle -> IZR (Z.max 0 screen_width) * delta_angle <= 2 * h_fov ->
  h_fov < PI / 2 ->
  raised (ray_casting INFINITE_MAP base_height_map base_color_map
            screen_array0 player_pos player_angle player_height player_pitch
            screen_width screen_height delta_angle ray_distance h_fov
            scale_height world_scale) = false
  /\ ray_angle_of (ray_casting INFINITE_MAP base_height_map base_color_map
                     screen_array0 player_pos player_angle player_height
                     player_pitch screen_width screen_height delta_angle
                     ray_distance h_fov scale_height world_scale)
     = player_angle - h_fov + IZR (Z.max 0 screen_width) * delta_angle.
Proof. exact fan_not_raised. Qed.

(** *** What the frame shows *)

Lemma paint_traced (st : RayState) (col row x y : Z) :
  (0 <= x < Z.pos (hm_shape0 base_height_map))%Z ->
  (0 <= y < Z.pos (hm_shape1 base_height_map))%Z ->
  traced base_height_map base_color_map screen_array0 st ->
  traced base_height_map base_color_map screen_array0
    (paint base_color_map st col row x y).
Proof.
  intros Hx Hy (Hkeep & Hshow). unfold traced, paint. cbn [screen_array accesses].
  cbn [pixel_writes]. split.
  - intros c r Hnot.
    destruct ((c =? col) && (r =? row))%Z eqn:E.
    + exfalso. apply Hnot. left.
      apply andb_true_iff in E. destruct E as (E1 & E2).
      apply Z.eqb_eq in E1, E2. now subst.
    + apply Hkeep. intros Hin. apply Hnot. now right.
  - intros c r Hin.
    destruct ((c =? col) && (r =? row))%Z eqn:E.
    + exists x, y. auto.
    + destruct Hin as [Hin|Hin]; [|now apply Hshow].
      inversion Hin; subst. now rewrite !Z.eqb_refl in E.
Qed.

Lemma paint_rows_traced (rows : list Z) (col x y : Z) (st : RayState) :
  (0 <= x < Z.pos (hm_shape0 base_height_map))%Z ->
  (0 <= y < Z.pos (hm_shape1 base_height_map))%Z ->
  traced base_height_map base_color_map screen_array0 st ->
  traced base_height_map base_color_map screen_array0
    (paint_rows base_color_map rows col x y st).
Proof.
  intros Hx Hy. revert st.
  induction rows as [|r rows IH]; intros st Hst; simpl; [exact Hst|].
  apply IH. now apply paint_traced.
Qed.

Lemma march_step_traced (c : Z) (a : R) (depth : Z) (m : March) :
  traced base_height_map base_color_map screen_array0 (ray m) ->
  traced base_height_map base_color_map screen_array0 (ray (step c a depth m)).
Proof.
  intros Hst. unfold march_step.
  destruct (cell a depth) as [[x y]|] eqn:Hcell; simpl; [|exact Hst].
  destruct (sample_cell_inside INFINITE_MAP base_height_map player_pos
              a depth x y Hcell) as (Hx & Hy).
  destruct (Req_dec_T _ 0); simpl; [exact Hst|].
  assert (Hset : forall st v,
            traced base_height_map base_color_map screen_array0 st ->
            traced base_height_map base_color_map screen_array0
              (set_y_buffer st c v)) by (intros st v H; exact H).
  assert (Hread : traced base_height_map base_color_map screen_array0
                    (read_height (ray m) x y)) by exact Hst.
  destruct (negb (first_contact m)); destruct (_ <? _)%Z; simpl;
    repeat first [apply Hset | apply paint_rows_traced]; assumption.
Qed.

Lemma march_traced (c : Z) (a : R) (st0 : RayState) (n : nat) :
  traced base_height_map base_color_map screen_array0 st0 ->
  traced base_height_map base_color_map screen_array0
    (ray (marching c a st0 n)).
Proof.
  intros Hst. induction n as [|n IH]; [exact Hst|].
  rewrite march_succ. destruct (flow (marching c a st0 n)); try exact IH.
  now apply march_step_traced.
Qed.

Lemma cast_traced (k : nat) :
  traced base_height_map base_color_map screen_array0 (state (casting k)).
Proof.
  induction k as [|k IH].
  - split; [reflexivity|intros c r []].
  - destruct (cast_state_succ INFINITE_MAP base_height_map base_color_map
                screen_array0 player_pos player_angle player_height
                player_pitch screen_height delta_angle ray_distance h_fov
                scale_height world_scale k) as [E|E]; rewrite E;
      [exact IH|].
    unfold march_column. now apply march_traced.
Qed.

(** X16.  In the frame [ray_casting] returns, every pixel it never
    painted still shows the background it was given, and every pixel it
    painted shows the colour of a cell of the colour grid. *)
Theorem ray_casting_frame :
  (forall c r, ~ In (c, r) (pixel_writes (accesses (state the_cast))) ->
               screen_array (state the_cast) c r = screen_array0 c r)
  /\ (forall c r, In (c, r) (pixel_writes (accesses (state the_cast))) ->
        exists x y,
          (0 <= x < Z.pos (hm_shape0 base_height_map))%Z
          /\ (0 <= y < Z.pos (hm_shape1 base_height_map))%Z
          /\ screen_array (state the_cast) c r = cm_at base_color_map x y).
Proof. unfold ray_casting. exact (cast_traced (Z.to_nat screen_width)). Qed.

(** *** The cost of a frame *)

Lemma paint_rows_height_reads (rows : list Z) (col x y : Z) (st : RayState) :
  height_reads (accesses (paint_rows base_color_map rows col x y st))
  = height_reads (accesses st).
Proof.
  revert st. induction rows as [|r rows IH]; intros st; simpl; [reflexivity|].
  now rewrite IH.
Qed.

Lemma march_step_reads (c : Z) (a : R) (depth : Z) (m : March) :
  (height_reads (accesses (ray (step c a depth m)))
   <= S (height_reads (accesses (ray m))))%nat.
Proof.
  unfold march_step.
  destruct (cell a depth) as [[x y]|]; simpl; [|lia].
  destruct (Req_dec_T _ 0); simpl; [lia|].
  destruct (negb (first_contact m)); destruct (_ <? _)%Z; simpl;
    rewrite ?paint_rows_height_reads; simpl; lia.
Qed.

Lemma march_reads (c : Z) (a : R) (st0 : RayState) (n : nat) :
  (height_reads (accesses (ray (marching c a st0 n)))
   <= n + height_reads (accesses st0))%nat.
Proof.
  induction n as [|n IH]; [simpl; lia|].
  rewrite march_succ. destruct (flow (marching c a st0 n)); try lia.
  pose proof (march_step_reads c a (Z.of_nat (S n)) (marching c a st0 n)). lia.
Qed.

Lemma cast_reads (k : nat) :
  (height_reads (accesses (state (casting k)))
   <= k * Z.to_nat (ray_distance - 1))%nat.
Proof.
  induction k as [|k IH]; [simpl; lia|].
  destruct (cast_state_succ INFINITE_MAP base_height_map base_color_map
              screen_array0 player_pos player_angle player_height
              player_pitch screen_height delta_angle ray_distance h_fov
              scale_height world_scale k) as [E|E]; rewrite E; [lia|].
  unfold march_column.
  pose proof (march_reads (Z.of_nat k) (ray_angle_of (casting k))
                (state (casting k)) (Z.to_nat (ray_distance - 1))). lia.
Qed.

(** X19.  One call of [ray_casting] samples the terrain at most
    [screen_width * (ray_distance - 1)] times; with a draw distance of 1
    or less, or a frame of width 0, it samples nothing. *)
Theorem ray_casting_sample_count :
  (height_reads (accesses (state the_cast))
   <= Z.to_nat screen_width * Z.to_nat (ray_distance - 1))%nat.
Proof. unfold ray_casting. apply cast_reads. Qed.

(** *** The painted span of a column *)

Lemma march_step_contact (c : Z) (a : R) (depth : Z) (m : March) :
  flow (step c a depth m) = Running -> first_contact (step c a depth m) = true.
Proof.
  unfold march_step. destruct (cell a depth) as [[x y]|]; simpl;
    [|discriminate].
  destruct (Req_dec_T _ 0); simpl; [discriminate|reflexivity].
Qed.

Lemma march_running_contact (c : Z) (a : R) (st0 : RayState) (n : nat) :
  flow (marching c a st0 (S n)) = Running ->
  first_contact (marching c a st0 (S n)) = true.
Proof.
  rewrite march_succ. destruct (flow (marching c a st0 n)) eqn:E.
  - apply march_step_contact.
  - rewrite E. discriminate.
  - rewrite E. discriminate.
Qed.

(** A later iteration, on a column that has made contact. *)
Lemma march_step_later (c : Z) (a : R) (depth : Z) (m : March) :
  first_contact m = true ->
  let m' := step c a depth m in
  first_contact m' = true
  /\ ((y_buffer (ray m') c = y_buffer (ray m) c
       /\ pixel_writes (accesses (ray m')) = pixel_writes (accesses (ray m))
       /\ screen_array (ray m') = screen_array (ray m))
      \/ ((0 <= y_buffer (ray m') c < y_buffer (ray m) c)%Z
          /\ pixel_writes (accesses (ray m'))
             = rev (map (pair c)
                      (range (y_buffer (ray m') c) (y_buffer (ray m) c)))
               ++ pixel_writes (accesses (ray m)))).
Proof.
  intros Hfc. unfold march_step.
  destruct (cell a depth) as [[x y]|]; simpl; [|auto].
  destruct (Req_dec_T _ 0); simpl; [auto|].
  rewrite Hfc. simpl.
  set (h := proj a depth x y).
  set (h' := if (h <? 0)%Z then 0%Z else h).
  assert (Hh' : (0 <= h')%Z) by (unfold h'; destruct (h <? 0)%Z eqn:E; lia).
  destruct (h' <? y_buffer (ray m) c)%Z eqn:Hlt; simpl.
  - apply Z.ltb_lt in Hlt. rewrite Z.eqb_refl. split; [reflexivity|right].
    split; [lia|]. now rewrite paint_rows_pixel_writes.
  - split; [reflexivity|left]. auto.
Qed.

Lemma march_fill (c : Z) (a : R) (st0 : RayState) (n : nat) (r : Z) :
  y_buffer st0 c = screen_height ->
  first_contact (marching c a st0 (S n)) = true ->
  In (c, r) (pixel_writes (accesses (ray (marching c a st0 (S n)))))
  <-> In (c, r) (pixel_writes (accesses st0))
      \/ (y_buffer (ray (marching c a st0 (S n))) c <= r
          < y_buffer (ray (marching c a st0 1)) c)%Z.
Proof.
  intros Hstart. induction n as [|n IH]; intros Hfc.
  - pose proof (march_first_sample INFINITE_MAP base_height_map
                  base_color_map player_pos player_angle player_height
                  player_pitch screen_height scale_height world_scale
                  c a st0) as H.
    destruct (cell a 1) as [[x y]|].
    + destruct (Req_dec_T _ 0); rewrite H in *; simpl in *;
        [discriminate|]. split; [auto|]. intros [Hin|Hr]; [exact Hin|lia].
    + rewrite H in Hfc. discriminate.
  - pose proof (march_horizon_monotone INFINITE_MAP base_height_map
                  base_color_map player_pos player_angle player_height
                  player_pitch screen_height scale_height world_scale
                  c a st0 1 (S n) Hstart) as Hmono.
    specialize (Hmono ltac:(lia)).
    pose proof (march_running_contact c a st0 n) as Hrun.
    remember (marching c a st0 1) as m1 eqn:Hm1.
    remember (marching c a st0 (S n)) as mn eqn:Hmn.
    rewrite march_succ in Hfc |- *. rewrite <- Hmn in Hfc |- *.
    destruct (flow mn) eqn:E; try (now apply IH).
    specialize (Hrun eq_refl). specialize (IH Hrun).
    destruct (march_step_later c a (Z.of_nat (S (S n))) mn Hrun)
      as (_ & [(Ey & Ew & _)|(Hy & Ew)]).
    + rewrite Ey, Ew. exact IH.
    + rewrite Ew, in_app_iff, <- in_rev, in_map_iff, IH. split.
      * intros [(r' & Hr' & Hin)|[Hin|Hr]].
        -- inversion Hr'; subst r'. apply range_spec in Hin. right. lia.
        -- now left.
        -- right. lia.
      * intros [Hin|Hr]; [right; now left|].
        destruct (Z.lt_ge_cases r (y_buffer (ray mn) c)) as [Hlt|Hge].
        -- left. exists r. split; [reflexivity|]. apply range_spec. lia.
        -- right. right. lia.
Qed.

(** X17.  The rows a column has painted form one span without gaps:
    once the column has made contact, after any number of depth samples
    the painted rows of column [k] are exactly those from its current
    horizon (included) up to the horizon its first sample set
    (excluded). *)
Theorem column_painted_span (k n : nat) (r : Z) :
  first_contact (marching (Z.of_nat k) (ray_angle_of (casting k))
                   (state (casting k)) (S n)) = true ->
  In (Z.of_nat k, r)
    (pixel_writes (accesses (ray (marching (Z.of_nat k)
                                    (ray_angle_of (casting k))
                                    (state (casting k)) (S n)))))
  <-> (y_buffer (ray (marching (Z.of_nat k) (ray_angle_of (casting k))
                        (state (casting k)) (S n))) (Z.of_nat k) <= r
       < y_buffer (ray (marching (Z.of_nat k) (ray_angle_of (casting k))
                          (state (casting k)) 1)) (Z.of_nat k))%Z.
Proof.
  intros Hfc.
  destruct (cast_inv INFINITE_MAP base_height_map base_color_map
              screen_array0 player_pos player_angle player_height
              player_pitch screen_height delta_angle ray_distance h_fov
              scale_height world_scale k) as (Hy & _ & Hcols).
  rewrite march_fill; [|apply Hy; lia|exact Hfc].
  split; [|now right]. intros [Hin|Hr]; [|exact Hr].
  apply Hcols in Hin. simpl in Hin. lia.
Qed.

(** *** Stopping early *)

Lemma march_saturated (c : Z) (a : R) (st0 : RayState) (n n' : nat) :
  (n <= n')%nat ->
  first_contact (marching c a st0 n) = true ->
  (y_buffer (ray (marching c a st0 n)) c <= 0)%Z ->
  first_contact (marching c a st0 n') = true
  /\ y_buffer (ray (marching c a st0 n')) c
     = y_buffer (ray (marching c a st0 n)) c
  /\ pixel_writes (accesses (ray (marching c a st0 n')))
     = pixel_writes (accesses (ray (marching c a st0 n)))
  /\ screen_array (ray (marching c a st0 n'))
     = screen_array (ray (marching c a st0 n)).
Proof.
  intros Hle Hfc Hy. induction Hle as [|n' Hle (F & Y & W & Sc)]; [auto|].
  rewrite march_succ. destruct (flow (marching c a st0 n')); auto.
  destruct (march_step_later c a (Z.of_nat (S n')) (marching c a st0 n') F)
    as (F' & [(Ey & Ew & Es)|(Hlt & _)]).
  - repeat split; congruence.
  - lia.
Qed.

(** X18.  Once the horizon of a column has reached row 0 (or lies
    above the frame), further depth samples change nothing: the horizon
    entry, the pixels painted and the frame buffer stay as they are.
    Leaving the depth loop at that point would produce the same
    frame. *)
Theorem column_saturated (c : Z) (a : R) (st0 : RayState) (n n' : nat) :
  (n <= n')%nat ->
  first_contact (marching c a st0 n) = true ->
  (y_buffer (ray (marching c a st0 n)) c <= 0)%Z ->
  y_buffer (ray (marching c a st0 n')) c
  = y_buffer (ray (marching c a st0 n)) c
  /\ pixel_writes (accesses (ray (marching c a st0 n')))
     = pixel_writes (accesses (ray (marching c a st0 n)))
  /\ screen_array (ray (marching c a st0 n'))
     = screen_array (ray (marching c a st0 n)).
Proof.
  intros Hle Hfc Hy. now destruct (march_saturated c a st0 n n' Hle Hfc Hy).
Qed.

End RayMore.

(** [ray_casting] next to the wall of [cliff4]: the first sample of
    column 0. *)
Lemma cliff_first_march :
  march false cliff4 grey4 (0.5, 0.5) 0 40 0 450 920 1 0
    (ray_angle_of cliff_start) (state cliff_start) 1
  = {| flow := Running; first_contact := true;
       ray := set_y_buffer (read_height (state cliff_start) 1 0) 0
                (-147200) |}.
Proof.
  assert (Ha : 0 - 0 = 0) by lra.
  assert (Hcell : sample_cell false cliff4 (0.5, 0.5) (0 - 0) 1 = Some (1, 0)%Z).
  { unfold sample_cell. rewrite Ha, cos_0, sin_0. cbn [fst snd].
    rewrite (int_floor 1 (0.5 + 1 * 1)) by lra.
    rewrite (int_floor 0 (0.5 + 1 * 0)) by lra. reflexivity. }
  assert (Hcorr : IZR 1 * cos (0 - (0 - 0)) = 1).
  { rewrite Ha, Ha, cos_0. lra. }
  assert (Hproj : project cliff4 0 40 0 920 1 (0 - 0) 1 1 0 = (-147200)%Z).
  { unfold project. rewrite Hcorr. simpl hm_at.
    replace ((40 - 200 * 1) / 1 * 920 + 0) with (IZR (-147200)) by lra.
    apply int_IZR. }
  pose proof (march_first_sample false cliff4 grey4 (0.5, 0.5) 0 40 0 450
                920 1 0 (0 - 0) (state cliff_start)) as H.
  rewrite Hcell in H.
  destruct (Req_dec_T (IZR 1 * cos (0 - (0 - 0))) 0) as [E|_];
    [exfalso; lra|].
  rewrite Hproj in H. exact H.
Qed.

(** X14 with the field of view of [create_voxel_render] on a frame of
    width 800. *)
Lemma ray_casting_fan_never_raises_witness :
  raised (ray_casting false cliff4 grey4 black (0.5, 0.5) 0 40 0 800 450
            (PI / 6 / 800) 1000 (PI / 6 / 2) 920 1) = false.
Proof.
  pose proof PI_RGT_0 as Hpi.
  apply (ray_casting_fan_never_raises false cliff4 grey4 black (0.5, 0.5) 0
           40 0 800 450 (PI / 6 / 800) 1000 (PI / 6 / 2) 920 1).
  - lra.
  - change (IZR (Z.max 0 800)) with 800. lra.
  - lra.
Defined.

(** X17 and X18 next to the wall of [cliff4]. *)
Lemma column_painted_span_witness :
  In (0%Z, 5%Z)
    (pixel_writes (accesses (ray (march false cliff4 grey4 (0.5, 0.5) 0 40 0
                                    450 920 1 0 (ray_angle_of cliff_start)
                                    (state cliff_start) 1))))
  <-> Z.le (y_buffer (ray (march false cliff4 grey4 (0.5, 0.5) 0 40 0 450
                             920 1 0 (ray_angle_of cliff_start)
                             (state cliff_start) 1)) 0) 5
      /\ Z.lt 5 (y_buffer (ray (march false cliff4 grey4 (0.5, 0.5) 0 40 0
                                  450 920 1 0 (ray_angle_of cliff_start)
                                  (state cliff_start) 1)) 0).
Proof.
  apply (column_painted_span false cliff4 grey4 black (0.5, 0.5) 0 40 0 450
           (PI / 6) 2 0 920 1 0 0 5).
  change (Z.of_nat 0) with 0%Z.
  change (cast false cliff4 grey4 black (0.5, 0.5) 0 40 0 450 (PI / 6) 2 0
            920 1 0) with cliff_start.
  now rewrite cliff_first_march.
Defined.

Lemma column_saturated_witness :
  y_buffer (ray (march false cliff4 grey4 (0.5, 0.5) 0 40 0 450 920 1 0
                   (ray_angle_of cliff_start) (state cliff_start) 3)) 0
  = y_buffer (ray (march false cliff4 grey4 (0.5, 0.5) 0 40 0 450 920 1 0
                     (ray_angle_of cliff_start) (state cliff_start) 1)) 0
  /\ pixel_writes
       (accesses (ray (march false cliff4 grey4 (0.5, 0.5) 0 40 0 450 920 1 0
                         (ray_angle_of cliff_start) (state cliff_start) 3)))
     = pixel_writes
         (accesses (ray (march false cliff4 grey4 (0.5, 0.5) 0 40 0 450 920 1
                           0 (ray_angle_of cliff_start) (state cliff_start) 1)))
  /\ screen_array (ray (march false cliff4 grey4 (0.5, 0.5) 0 40 0 450 920 1 0
                          (ray_angle_of cliff_start) (state cliff_start) 3))
     = screen_array (ray (march false cliff4 grey4 (0.5, 0.5) 0 40 0 450 920
                            1 0 (ray_angle_of cliff_start) (state cliff_start)
                            1)).
Proof.
  apply (column_saturated false cliff4 grey4 (0.5, 0.5) 0 40 0 450 920 1 0
           (ray_angle_of cliff_start) (state cliff_start) 1 3).
  - lia.
  - now rewrite cliff_first_march.
  - rewrite cliff_first_march. simpl. lia.
Defined.

(** ** The application loop *)

Lemma adjust_world_scale_in_range (k : Keys) (ws : R) :
  WORLD_SCALE_MIN <= ws <= WORLD_SCALE_MAX ->
  WORLD_SCALE_MIN <= adjust_world_scale k ws <= WORLD_SCALE_MAX.
Proof.
  unfold adjust_world_scale, WORLD_SCALE_MIN, WORLD_SCALE_MAX, WORLD_SCALE_STEP.
  intros Hws.
  destruct (K_EQUALS k || K_KP_PLUS k), (K_MINUS k || K_KP_MINUS k);
    unfold Rmax, Rmin;
    repeat (destruct (Rle_dec _ _)); lra.
Qed.

(** X13.  The world scale stays within
    [[WORLD_SCALE_MIN, WORLD_SCALE_MAX]]: from a value in the range,
    whatever keys are held, the adjusted value is in the range, and with
    neither key held it is unchanged. *)
Theorem world_scale_stays_in_range (k : Keys) (ws : R) :
  WORLD_SCALE_MIN <= ws <= WORLD_SCALE_MAX ->
  WORLD_SCALE_MIN <= adjust_world_scale k ws <= WORLD_SCALE_MAX
  /\ (K_EQUALS k = false -> K_KP_PLUS k = false ->
      K_MINUS k = false -> K_KP_MINUS k = false ->
      adjust_world_scale k ws = ws).
Proof.
  intros Hws. split; [now apply adjust_world_scale_in_range|].
  intros H1 H2 H3 H4. unfold adjust_world_scale. now rewrite H1, H2, H3, H4.
Qed.

Lemma world_scale_stays_in_range_witness :
  WORLD_SCALE_MIN <= adjust_world_scale no_keys 4.95 <= WORLD_SCALE_MAX.
Proof.
  apply (world_scale_stays_in_range no_keys 4.95).
  unfold WORLD_SCALE_MIN, WORLD_SCALE_MAX. lra.
Defined.

Lemma adjust_draw_distance_bounds (k : Keys) (d : Z) :
  (500 <= d <= 5000)%Z -> (500 <= adjust_draw_distance k d <= 5000)%Z.
Proof.
  intros Hd. unfold adjust_draw_distance.
  destruct (K_PAGEUP k), (K_PAGEDOWN k); lia.
Qed.

Lemma clamp_position_range (hm : HeightMap) (p : Player) :
  0 <= fst (pos (clamp_position false hm p)) < IZR (Z.pos (hm_shape0 hm))
  /\ 0 <= snd (pos (clamp_position false hm p)) < IZR (Z.pos (hm_shape1 hm)).
Proof.
  unfold clamp_position. simpl negb. cbv iota zeta.
  assert (HW : 1 <= IZR (Z.pos (hm_shape0 hm))) by (apply IZR_le; lia).
  assert (HH : 1 <= IZR (Z.pos (hm_shape1 hm))) by (apply IZR_le; lia).
  destruct (Rlt_dec (fst (pos p)) 0) as [Hx|Hx];
    [|destruct (Rge_dec (fst (pos p)) _) as [Hx'|Hx']]; simpl;
    (destruct (Rlt_dec (snd (pos p)) 0) as [Hy|Hy];
       [|destruct (Rge_dec (snd (pos p)) _) as [Hy'|Hy']]); simpl; lra.
Qed.

(** What one call of [update_player] guarantees of the player it
    returns. *)
Lemma update_player_ok im hm (p : Player) mr dd dt ws pl :
  ws <> 0 ->
  exists p',
    update_player im hm p mr dd dt ws pl = Some p'
    /\ PITCH_MIN <= pitch p' <= PITCH_MAX
    /\ height p' >= IZR (optimized_collision_check im (pos p') hm) * ws + 40 * ws
    /\ (im = false ->
        0 <= fst (pos p') < IZR (Z.pos (hm_shape0 hm))
        /\ 0 <= snd (pos p') < IZR (Z.pos (hm_shape1 hm))).
Proof.
  intros Hws.
  pose proof (update_player_eq im hm p mr dd dt ws pl Hws) as Heq.
  eexists; split; [exact Heq|]. split; [|split].
  - unfold update_player_body.
    rewrite gravity_step_pitch, flying_toggle_pitch.
    unfold pitch_update. simpl. apply clamp_pitch_range.
  - apply update_player_body_floor.
  - intros ->. rewrite (update_player_pos _ _ _ _ _ _ _ _ _ Heq).
    apply clamp_position_range.
Qed.

Lemma update_voxel_render_returns im hm cm (vr : VoxelRender) (player : Player)
    (w h dd t : Z) (ws : R) :
  sky_width (vr_sky_image vr) <> 0%Z ->
  0 <= vr_delta_angle vr ->
  IZR (Z.max 0 w) * vr_delta_angle vr <= 2 * vr_h_fov vr ->
  vr_h_fov vr < PI / 2 ->
  exists vr',
    update_voxel_render im hm cm vr player w h dd t ws = Some (vr', player)
    /\ vr_h_fov vr' = vr_h_fov vr
    /\ vr_delta_angle vr' = vr_delta_angle vr
    /\ vr_sky_image vr' = vr_sky_image vr.
Proof.
  intros Hsky Hd Hw Hh. unfold update_voxel_render.
  apply Z.eqb_neq in Hsky. rewrite Hsky.
  match goal with
  | |- context [raised ?c] =>
      assert (Hr : raised c = false)
        by (apply fan_not_raised; assumption);
      rewrite Hr
  end.
  eexists. split; [reflexivity|]. simpl. auto.
Qed.

Lemma init_app_ok im hm sky :
  exists app, init_app im hm sky = Some app /\ app_ok im hm app.
Proof.
  unfold init_app, create_voxel_render. simpl Z.eqb. cbv iota.
  eexists; split; [reflexivity|]. unfold app_ok. simpl.
  repeat split; try reflexivity;
    unfold WORLD_SCALE, WORLD_SCALE_MIN, WORLD_SCALE_MAX, PITCH_MIN,
      PITCH_MAX, DRAW_DISTANCE; try lra; try lia.
  - replace (800 * 1.5) with (IZR 1200) by lra. apply int_IZR.
  - apply IZR_le. apply Z.div_pos; lia.
  - apply IZR_lt. apply Z.div_lt; lia.
  - apply IZR_le. apply Z.div_pos; lia.
  - apply IZR_lt. apply Z.div_lt; lia.
Qed.

Lemma update_app_ok im hm cm (app : App) dt mr ticks pl :
  app_ok im hm app ->
  exists app',
    update_app im hm cm (set_dt app dt) mr ticks pl = Some app'
    /\ app_ok im hm app'.
Proof.
  intros (Hw & Hh & Hfov & Hdel & Hsky & Hws & Hdd & _).
  unfold update_app. cbn [set_dt app_player app_draw_distance app_dt
                          app_world_scale app_voxel_render app_width
                          app_height].
  pose proof (adjust_world_scale_in_range (keys pl) _ Hws) as Hws'.
  pose proof (adjust_draw_distance_bounds (keys pl) _ Hdd) as Hdd'.
  set (ws' := adjust_world_scale (keys pl) (app_world_scale app)) in *.
  set (dd' := adjust_draw_distance (keys pl) (app_draw_distance app)) in *.
  destruct (update_player_ok im hm (app_player app) mr dd' dt ws' pl)
    as (p' & Hp' & Hpitch & Hfloor & Hbox).
  { unfold WORLD_SCALE_MIN in Hws'. lra. }
  rewrite Hp'.
  pose proof PI_RGT_0 as Hpi.
  destruct (update_voxel_render_returns im hm cm (app_voxel_render app) p'
              (app_width app) (app_height app) dd' ticks ws')
    as (vr' & Hvr & V1 & V2 & V3).
  { rewrite Hsky. lia. }
  { rewrite Hdel. apply Rlt_le, Rdiv_lt_0_compat; lra. }
  { rewrite Hdel, Hfov, Hw. change (IZR (Z.max 0 800)) with 800. lra. }
  { rewrite Hfov. lra. }
  rewrite Hvr. eexists; split; [reflexivity|].
  unfold app_ok. cbn [app_player app_draw_distance app_dt app_world_scale
                      app_voxel_render app_width app_height].
  rewrite V1, V2, V3. repeat split; try assumption; try apply Hws';
    try apply Hdd'; try apply Hpitch; try (now apply Hbox).
Qed.

(** X15.  From [init_app] on, no iteration of the main loop raises a
    [ZeroDivisionError], for any terrain, any input and any frame time:
    [update_app] returns at every iteration, and after each one the
    world scale is within [[WORLD_SCALE_MIN, WORLD_SCALE_MAX]], the draw
    distance within
    [[500, 5000]], the pitch within [[PITCH_MIN, PITCH_MAX]], the eye at
    or above the floor of the current world scale, and on the bounded
    map the player inside the map. *)
Theorem run_app_never_raises (INFINITE_MAP : bool) (hm : HeightMap)
    (cm : ColorMap) (sky : Z -> Z -> Color) (frames : nat -> Frame) (n : nat) :
  exists app,
    run_app INFINITE_MAP hm cm sky frames n = Some app
    /\ app_ok INFINITE_MAP hm app.
Proof.
  induction n as [|n (app & Hrun & Hok)].
  - apply init_app_ok.
  - simpl. rewrite Hrun. now apply update_app_ok.
Qed.

(** ** The sky *)

Lemma int_monotone (x y : R) : x <= y -> (int x <= int y)%Z.
Proof.
  intros Hxy. unfold int.
  destruct (Rle_dec 0 x) as [Hx|Hx]; destruct (Rle_dec 0 y) as [Hy|Hy].
  - now apply Zfloor_le.
  - lra.
  - pose proof (Zceil_bound x) as (Hc & _).
    assert (Zceil x <= 0)%Z.
    { apply Z.lt_succ_r. apply lt_IZR. simpl. lra. }
    assert (0 <= Zfloor y)%Z by (apply Zfloor_lub; exact Hy). lia.
  - now apply Zceil_le.
Qed.

Lemma int_between (x : R) (n : Z) :
  0 <= x <= IZR n -> (0 <= int x <= n)%Z.
Proof.
  intros (H0 & Hn).
  pose proof (int_monotone 0 x H0) as Hlo.
  pose proof (int_monotone x (IZR n) Hn) as Hhi.
  change 0 with (IZR 0) in Hlo. rewrite int_IZR in Hlo, Hhi. lia.
Qed.

Lemma sky_factor (sky_height y : Z) :
  (0 <= y < sky_height)%Z -> 0 <= 1 - IZR y / IZR sky_height <= 1.
Proof.
  intros (H0 & Hh).
  assert (Hy : 0 <= IZR y) by (now apply IZR_le).
  assert (Hs : IZR y < IZR sky_height) by (now apply IZR_lt).
  assert (Hd : 0 <= IZR y / IZR sky_height <= 1).
  { split.
    - apply Rmult_le_pos; [exact Hy|]. apply Rlt_le, Rinv_0_lt_compat. lra.
    - apply Rmult_le_reg_r with (IZR sky_height); [lra|].
      unfold Rdiv. rewrite Rmult_assoc, Rinv_l by lra. lra. }
  lra.
Qed.

(** X20.  Every row of the sky band gets a valid colour: for a row
    [0 <= y < sky_height] the three channels lie in [[0, 135]],
    [[0, 206]] and [[0, 235]]; the top row is (135, 206, 235); and no
    channel grows from a row to a lower one. *)
Theorem sky_color_valid (sky_height y : Z) :
  (0 <= y < sky_height)%Z ->
  ((0 <= fst (fst (sky_color sky_height y)) <= 135)%Z
   /\ (0 <= snd (fst (sky_color sky_height y)) <= 206)%Z
   /\ (0 <= snd (sky_color sky_height y) <= 235)%Z)
  /\ sky_color sky_height 0 = (135, 206, 235)%Z
  /\ (forall y', (y <= y' < sky_height)%Z ->
        (fst (fst (sky_color sky_height y'))
         <= fst (fst (sky_color sky_height y)))%Z
        /\ (snd (fst (sky_color sky_height y'))
            <= snd (fst (sky_color sky_height y)))%Z
        /\ (snd (sky_color sky_height y') <= snd (sky_color sky_height y))%Z).
Proof.
  intros Hy. pose proof (sky_factor sky_height y Hy) as Hf.
  unfold sky_color. cbn [fst snd]. split; [|split].
  - split; [|split]; apply int_between; lra.
  - replace (1 - IZR 0 / IZR sky_height) with 1 by (unfold Rdiv; ring).
    replace (135 * 1) with (IZR 135) by ring.
    replace (206 * 1) with (IZR 206) by ring.
    replace (235 * 1) with (IZR 235) by ring.
    now rewrite !int_IZR.
  - intros y' Hy'.
    assert (Hle : 1 - IZR y' / IZR sky_height <= 1 - IZR y / IZR sky_height).
    { assert (Hs : 0 < IZR sky_height) by (apply IZR_lt; lia).
      assert (IZR y <= IZR y') by (apply IZR_le; lia).
      apply Rplus_le_compat_l, Ropp_le_contravar.
      apply Rmult_le_compat_r; [|assumption].
      apply Rlt_le, Rinv_0_lt_compat. exact Hs. }
    repeat split; apply int_monotone; lra.
Qed.

Lemma sky_color_valid_witness :
  (0 <= fst (fst (sky_color 900 450)) <= 135)%Z
  /\ (0 <= snd (fst (sky_color 900 450)) <= 206)%Z
  /\ (0 <= snd (sky_color 900 450) <= 235)%Z.
Proof.
  apply (sky_color_valid 900 450). lia.
Defined.

Lemma hypot_nonneg (a b : R) : 0 <= hypot a b.
Proof. apply sqrt_pos. Qed.

(** X21.  Every pixel of the sun sprite gets a valid colour.  Its alpha
    is within [[0, 255]]: 255 inside the core of radius [sun_radius],
    at most 254 in the glow ring, 0 outside the glow radius; the colour
    is yellow wherever the alpha is not that of the outside; and of two
    pixels the one farther from the centre never has the larger
    alpha. *)
Theorem sun_pixel_valid (x y : Z) :
  let dist := hypot (IZR (x - 80)) (IZR (y - 80)) in
  (0 <= snd (sun_pixel x y) <= 255)%Z
  /\ (dist <= 50 -> sun_pixel x y = (255, 255, 0, 255)%Z)
  /\ (50 < dist <= 80 ->
      fst (sun_pixel x y) = (255, 255, 0)%Z
      /\ (snd (sun_pixel x y) <= 254)%Z)
  /\ (80 < dist -> sun_pixel x y = (0, 0, 0, 0)%Z)
  /\ (forall x' y',
        dist <= hypot (IZR (x' - 80)) (IZR (y' - 80)) ->
        (snd (sun_pixel x' y') <= snd (sun_pixel x y))%Z).
Proof.
  assert (Hglow : forall d, 50 < d <= 80 ->
            (0 <= int (255 * (1 - (d - 50) / IZR (80 - 50))) <= 254)%Z).
  { intros d Hd.
    replace (IZR (80 - 50)) with 30 by (simpl; lra).
    split.
    - apply int_between with (n := 255%Z). lra.
    - assert (int (255 * (1 - (d - 50) / 30)) < 255)%Z; [|lia].
      unfold int. destruct (Rle_dec 0 _) as [H0|H0]; [|exfalso; lra].
      pose proof (Zfloor_bound (255 * (1 - (d - 50) / 30))) as (Hlo & _).
      apply lt_IZR. lra. }
  assert (Hcase : forall u v,
            let d := hypot (IZR (u - 80)) (IZR (v - 80)) in
            (d <= 50 /\ sun_pixel u v = (255, 255, 0, 255)%Z)
            \/ (50 < d <= 80
                /\ sun_pixel u v
                   = (255, 255, 0,
                      int (255 * (1 - (d - 50) / IZR (80 - 50))))%Z)
            \/ (80 < d /\ sun_pixel u v = (0, 0, 0, 0)%Z)).
  { intros u v d. unfold sun_pixel, sun_radius, sun_glow_radius. cbn [fst snd].
    fold d. destruct (Rle_dec d 50); [left; auto|].
    destruct (Rle_dec d 80); [right; left|right; right]; split;
      try reflexivity; lra. }
  intros dist.
  destruct (Hcase x y) as [(Hd & E)|[(Hd & E)|(Hd & E)]]; fold dist in Hd;
    rewrite E; cbn [fst snd].
  - repeat split; try lia; try (intros; lra).
    intros x' y' Hfar.
    destruct (Hcase x' y') as [(Hd' & E')|[(Hd' & E')|(Hd' & E')]];
      rewrite E'; cbn [snd]; try lia.
    pose proof (Hglow _ Hd'). lia.
  - pose proof (Hglow _ Hd) as Hg. unfold dist in Hg.
    repeat split; try lia; try (intros; lra).
    intros x' y' Hfar.
    destruct (Hcase x' y') as [(Hd' & E')|[(Hd' & E')|(Hd' & E')]];
      rewrite E'; cbn [snd]; try lia; [lra|].
    apply int_monotone. fold dist.
    replace (IZR (80 - 50)) with 30 by (simpl; lra). lra.
  - repeat split; try lia; try (intros; lra).
    intros x' y' Hfar.
    destruct (Hcase x' y') as [(Hd' & E')|[(Hd' & E')|(Hd' & E')]];
      rewrite E'; cbn [snd]; try lia; lra.
Qed.

Lemma range_nth (a b i d : Z) :
  (0 <= i < b - a)%Z -> nth (Z.to_nat i) (range a b) d = (a + i)%Z.
Proof.
  intros Hi. unfold range.
  rewrite nth_indep with (d' := (a + Z.of_nat 0)%Z)
    by (rewrite length_map, length_seq; lia).
  rewrite (map_nth (fun k => (a + Z.of_nat k)%Z)).
  rewrite seq_nth by lia. lia.
Qed.

Lemma to_uint8_exact (x : R) : 0 <= x <= 255 -> to_uint8 x = int x.
Proof.
  intros Hx. unfold to_uint8. apply Z.mod_small.
  pose proof (int_between x 255 Hx). lia.
Qed.

(** X22.  [create_sky_gradient] builds one row per [y] in
    [range(height)], and storing the rows as [uint8] never wraps: row
    [y] holds the truncated interpolated values themselves, red within
    [[0, 135]], green within [[0, 206]] and blue within [[125, 235]]. *)
Theorem create_sky_gradient_rows (height y : Z) :
  (0 <= y < height)%Z ->
  let t := IZR y / IZR height in
  length (create_sky_gradient height) = Z.to_nat height
  /\ nth (Z.to_nat y) (create_sky_gradient height) (0, 0, 0)%Z
     = (int (135 * (1 - t) + 0 * t), int (206 * (1 - t) + 0 * t),
        int (235 * (1 - t) + 125 * t))
  /\ (0 <= int (135 * (1 - t) + 0 * t) <= 135)%Z
  /\ (0 <= int (206 * (1 - t) + 0 * t) <= 206)%Z
  /\ (125 <= int (235 * (1 - t) + 125 * t) <= 235)%Z.
Proof.
  intros Hy t. pose proof (sky_factor height y Hy) as Hf. fold t in Hf.
  split; [|split].
  - unfold create_sky_gradient, range. rewrite !length_map, length_seq.
    f_equal. lia.
  - unfold create_sky_gradient.
    set (row := fun y0 : Z => _).
    rewrite nth_indep with (d' := row 0%Z)
      by (unfold range; rewrite !length_map, length_seq; lia).
    rewrite map_nth, (range_nth 0 height y 0%Z) by lia.
    unfold row. cbv zeta. rewrite Z.add_0_l. fold t.
    rewrite !to_uint8_exact by lra.
    reflexivity.
  - assert (Hb : 125 <= 235 * (1 - t) + 125 * t <= 235) by lra.
    pose proof (int_monotone _ _ (proj1 Hb)) as Hlo.
    pose proof (int_monotone _ _ (proj2 Hb)) as Hhi.
    rewrite int_IZR in Hlo, Hhi.
    split; [|split]; [apply int_between; lra..|lia].
Qed.

Lemma create_sky_gradient_rows_witness :
  length (create_sky_gradient 450) = Z.to_nat 450.
Proof.
  apply (create_sky_gradient_rows 450 100). lia.
Defined.

Lemma blit_sky_band (sky : SkyImage) (sky_x_offset c r : Z) :
  (0 <= sky_x_offset < sky_width sky)%Z ->
  (0 <= c < 2 * sky_width sky - sky_x_offset)%Z ->
  ((0 <= r < sky_height sky)%Z ->
   blit_sky sky sky_x_offset c r
   = sky_at sky ((c + sky_x_offset) mod sky_width sky)%Z r)
  /\ ((sky_height sky <= r)%Z -> blit_sky sky sky_x_offset c r = (0, 0, 0)%Z).
Proof.
  intros Hoff Hc. unfold blit_sky. split.
  - intros Hr.
    assert (E : ((0 <=? r) && (r <? sky_height sky))%Z = true).
    { apply andb_true_iff. split; [apply Z.leb_le|apply Z.ltb_lt]; lia. }
    rewrite E.
    destruct (Z.lt_ge_cases c (sky_width sky - sky_x_offset)) as [Hlt|Hge].
    + assert (E1 : ((sky_width sky - sky_x_offset <=? c)
                    && (c <? 2 * sky_width sky - sky_x_offset))%Z = false).
      { apply andb_false_iff. left. apply Z.leb_gt. lia. }
      assert (E2 : ((- sky_x_offset <=? c)
                    && (c <? sky_width sky - sky_x_offset))%Z = true).
      { apply andb_true_iff. split; [apply Z.leb_le|apply Z.ltb_lt]; lia. }
      rewrite E1, E2. f_equal. symmetry. apply Z.mod_small. lia.
    + assert (E1 : ((sky_width sky - sky_x_offset <=? c)
                    && (c <? 2 * sky_width sky - sky_x_offset))%Z = true).
      { apply andb_true_iff. split; [apply Z.leb_le|apply Z.ltb_lt]; lia. }
      rewrite E1. f_equal.
      apply Z.mod_unique with (q := 1%Z); lia.
  - intros Hr.
    assert (E : ((0 <=? r) && (r <? sky_height sky))%Z = false).
    { apply andb_false_iff. right. apply Z.ltb_ge. lia. }
    now rewrite E.
Qed.

(** X23.  The two blits tile the sky across the frame: for an offset
    [0 <= sky_x_offset < sky_width], every pixel in a column
    [0 <= c < 2 * sky_width - sky_x_offset] and a row of the band shows
    the sky pixel of column [(c + sky_x_offset) mod sky_width], with no
    seam between the two copies; below the band the surface stays
    black. *)
Theorem blit_sky_tiles (sky : SkyImage) (sky_x_offset c r : Z) :
  (0 <= sky_x_offset < sky_width sky)%Z ->
  (0 <= c < 2 * sky_width sky - sky_x_offset)%Z ->
  ((0 <= r < sky_height sky)%Z ->
   blit_sky sky sky_x_offset c r
   = sky_at sky ((c + sky_x_offset) mod sky_width sky)%Z r)
  /\ ((sky_height sky <= r)%Z -> blit_sky sky sky_x_offset c r = (0, 0, 0)%Z).
Proof. exact (blit_sky_band sky sky_x_offset c r). Qed.

Lemma blit_sky_tiles_witness :
  blit_sky sky_sample 1000%Z 700%Z 10%Z
  = sky_at sky_sample ((700 + 1000) mod 1200)%Z 10%Z.
Proof.
  apply (blit_sky_tiles sky_sample 1000%Z 700%Z 10%Z); simpl; lia.
Defined.

(** X24.  A frame has no hole: with the renderer [create_voxel_render]
    makes for a frame of positive width, [update_voxel_render] returns,
    and every pixel of the frame shows either the colour of a cell of
    the colour grid or the sky pixel of its row in column
    [(c + sky_x_offset) mod sky_width]; none keeps the black of the
    fresh surface. *)
Theorem frame_shows_terrain_or_sky im hm cm (sky : Z -> Z -> Color)
    (width height : Z) (vr : VoxelRender) (player : Player)
    (draw_distance current_time : Z) (world_scale : R) :
  (0 < width)%Z -> (0 <= height)%Z ->
  create_voxel_render sky width height = Some vr ->
  let sky_w := int (IZR width * 1.5) in
  let sky_x_offset :=
    (int (angle player / (2 * PI) * IZR width) mod sky_w)%Z in
  exists vr',
    update_voxel_render im hm cm vr player width height draw_distance
      current_time world_scale = Some (vr', player)
    /\ forall c r, (0 <= c < width)%Z -> (0 <= r < height)%Z ->
         (exists x y,
            (0 <= x < Z.pos (hm_shape0 hm))%Z
            /\ (0 <= y < Z.pos (hm_shape1 hm))%Z
            /\ vr_screen_array vr' c r = cm_at cm x y)
         \/ vr_screen_array vr' c r = sky ((c + sky_x_offset) mod sky_w)%Z r.
Proof.
  intros Hw Hh Hvr sky_w off.
  assert (HW : 0 < IZR width) by (now apply IZR_lt).
  assert (HH : 0 <= IZR height) by (now apply IZR_le).
  assert (Hsw : (width <= sky_w)%Z).
  { pose proof (int_monotone (IZR width) (IZR width * 1.5) ltac:(lra)) as H.
    now rewrite int_IZR in H. }
  assert (Hsh : (height <= int (IZR height * 2))%Z).
  { pose proof (int_monotone (IZR height) (IZR height * 2) ltac:(lra)) as H.
    now rewrite int_IZR in H. }
  unfold create_voxel_render in Hvr.
  destruct (width =? 0)%Z eqn:E0; [discriminate|].
  injection Hvr as <-. unfold update_voxel_render.
  cbn [vr_sky_image vr_delta_angle vr_h_fov vr_scale_height sky_width].
  fold sky_w. assert (Esw : (sky_w =? 0)%Z = false) by (apply Z.eqb_neq; lia).
  rewrite Esw. fold off.
  assert (Hoff : (0 <= off < sky_w)%Z) by (apply Z.mod_pos_bound; lia).
  assert (Hpi := PI_RGT_0).
  match goal with
  | |- context [raised ?c] =>
      assert (Hr : raised c = false);
      [|assert (Ht : traced hm cm
                       (blit_sky {| sky_width := sky_w;
                                    sky_height := int (IZR height * 2);
                                    sky_at := sky |} off) (state c))
          by (unfold ray_casting; apply cast_traced);
        rewrite Hr]
  end.
  { apply fan_not_raised.
    - apply Rlt_le, Rmult_lt_0_compat; [lra|now apply Rinv_0_lt_compat].
    - rewrite Z.max_r by lia. unfold Rdiv.
      rewrite (Rmult_comm (IZR width)), Rmult_assoc, Rinv_l by lra. lra.
    - lra. }
  eexists. split; [reflexivity|]. cbn [vr_screen_array].
  intros c r Hc Hrow. destruct Ht as (Hkeep & Hpaint).
  match type of Hkeep with
  | forall c r, ~ In _ ?ws -> _ =>
      destruct (in_dec (fun a b : Z * Z =>
                          ltac:(decide equality; apply Z.eq_dec)
                          : {a = b} + {a <> b}) (c, r) ws) as [Hin|Hout]
  end.
  - left. exact (Hpaint c r Hin).
  - right. rewrite (Hkeep c r Hout).
    match goal with
    | |- blit_sky ?img _ _ _ = _ =>
        destruct (blit_sky_band img off c r) as (Hband & _);
          [exact Hoff|cbn [sky_width]; lia|]
    end.
    apply Hband. cbn [sky_height]. lia.
Qed.

Lemma frame_shows_terrain_or_sky_witness :
  exists vr',
    update_voxel_render false cliff4 grey4
      {| vr_fov := PI / 6; vr_h_fov := PI / 6 / 2; vr_num_rays := 800;
         vr_delta_angle := PI / 6 / IZR 800; vr_ray_distance := 1000;
         vr_scale_height := 920;
         vr_sky_image := {| sky_width := int (IZR 800 * 1.5);
                            sky_height := int (IZR 450 * 2);
                            sky_at := sky_at sky_sample |};
         vr_screen_array := fun _ _ => (0, 0, 0)%Z |}
      rested 800 450 1000 0 1 = Some (vr', rested).
Proof.
  destruct (frame_shows_terrain_or_sky false cliff4 grey4 (sky_at sky_sample)
              800 450 _ rested 1000 0 1 ltac:(lia) ltac:(lia) eq_refl)
    as (vr' & Hrun & _).
  exists vr'. exact Hrun.
Defined.
